(** * Transcoding session controller and video track transcoder

    A shallow embedding of
    - [TranscodingSessionController] (the session scheduler), and
    - [VideoTrackTranscoder] (the single-track video pipeline),
    followed by the properties proved about them.

    Conventions.  C++ integers are [Z]; [std::map] is [gmap]; [std::list] is
    [list]; a raw [Session*] into [mSessionMap] is the key of the entry it
    points at ([std::map] never moves its nodes); calls on collaborators
    (transcoder, uid policy, client callbacks, codecs, sink) are recorded in
    an effect trace, and what the collaborators answer is an explicit
    environment argument.  A computation of type [option _] that yields
    [None] is one the process does not survive: a [LOG_ALWAYS_FATAL] abort or
    a dereference the C++ standard leaves undefined. *)

From Stdlib Require Import ZArith Lia.
From stdpp Require Import base option list gmap sets sorting strings.

Local Open Scope Z_scope.

(** ** The session controller *)

Module Scheduler.

Abbreviation ClientIdType := Z (only parsing).
Abbreviation SessionIdType := Z (only parsing).
Abbreviation uid_t := Z (only parsing).
Abbreviation SessionKeyType := (Z * Z)%type (only parsing).
Abbreviation SessionQueueType := (list (Z * Z)) (only parsing).

(** [constexpr static uid_t OFFLINE_UID = -1], with [uid_t] unsigned 32 bit. *)
Definition OFFLINE_UID : uid_t := 2 ^ 32 - 1.

(** Modelled from the spec: the request descriptor and its priority are
    declared outside the sources at hand; the controller only tells
    "unspecified" apart from every other priority. *)
Inductive TranscodingSessionPriority :=
  | kUnspecified
  | kPriority (level : Z).

#[global] Instance TranscodingSessionPriority_eq_dec :
  EqDecision TranscodingSessionPriority.
Proof. solve_decision. Defined.

Record TranscodingRequestParcel := mkRequest {
  priority : TranscodingSessionPriority;
  sourceFilePath : string;
  destinationFilePath : string;
}.

#[global] Instance TranscodingRequestParcel_eq_dec :
  EqDecision TranscodingRequestParcel.
Proof. solve_decision. Defined.

Inductive State := NOT_STARTED | RUNNING | PAUSED.

#[global] Instance State_eq_dec : EqDecision State.
Proof. solve_decision. Defined.

(** [struct Session]; [callback] is the identity of the object behind the
    [std::weak_ptr<ITranscodingClientCallback>]. *)
Record Session := mkSession {
  key : SessionKeyType;
  uid : uid_t;
  state : State;
  lastProgress : Z;
  request : TranscodingRequestParcel;
  callback : Z;
}.

Definition setState (v : State) (s : Session) : Session :=
  mkSession (key s) (uid s) v (lastProgress s) (request s) (callback s).

Definition setLastProgress (p : Z) (s : Session) : Session :=
  mkSession (key s) (uid s) (state s) p (request s) (callback s).

(** A value-initialised [Session], what [mSessionMap[k]] creates for an
    absent key. *)
Definition defaultSession : Session :=
  mkSession (0, 0) 0 NOT_STARTED 0 (mkRequest kUnspecified "" "") 0.

(** Calls made on the collaborators, oldest first in the trace.  The
    [option Z] of start and resume is the result of [callback.lock()]. *)
Inductive Effect :=
  | TranscoderStart (c : ClientIdType) (s : SessionIdType)
      (req : TranscodingRequestParcel) (cb : option Z)
  | TranscoderPause (c : ClientIdType) (s : SessionIdType)
  | TranscoderResume (c : ClientIdType) (s : SessionIdType)
      (req : TranscodingRequestParcel) (cb : option Z)
  | TranscoderStop (c : ClientIdType) (s : SessionIdType)
  | RegisterMonitorUid (u : uid_t)
  | UnregisterMonitorUid (u : uid_t)
  | ClientStarted (cb : Z) (s : SessionIdType)
  | ClientPaused (cb : Z) (s : SessionIdType)
  | ClientResumed (cb : Z) (s : SessionIdType)
  | ClientFinished (cb : Z) (s : SessionIdType) (resultSessionId bitrate : Z)
  | ClientFailed (cb : Z) (s : SessionIdType) (err : Z)
  | ClientProgress (cb : Z) (s : SessionIdType) (progress : Z).

#[global] Instance Effect_eq_dec : EqDecision Effect.
Proof. solve_decision. Defined.

(** What the collaborators answer while one public operation holds [mLock]:
    [isUidOnTop] and [getTopUids] of the uid policy ([getTopUids] is asked
    once per removed session, so its answer is indexed by that session), and
    whether [lock()] on a client callback still yields an object. *)
Record Env := mkEnv {
  isUidOnTop : uid_t -> bool;
  getTopUids : SessionKeyType -> gset Z;
  lockCallback : Z -> bool;
}.

(** The member variables.  [mOfflineUidIterator] designates the one node of
    [mUidSortedList] that holds [OFFLINE_UID]; no code path erases that node
    or pushes a second one, so the iterator is the position of
    [OFFLINE_UID] in the list. *)
Record Controller := mkController {
  mSessionMap : gmap (Z * Z) Session;
  mUidSortedList : list Z;
  mSessionQueues : gmap Z (list (Z * Z));
  mCurrentSession : option (Z * Z);
  mResourceLost : bool;
  mEffects : list Effect;
}.

Definition withSessionMap (m : gmap (Z * Z) Session) (st : Controller) :=
  mkController m (mUidSortedList st) (mSessionQueues st)
    (mCurrentSession st) (mResourceLost st) (mEffects st).
Definition withUidSortedList (l : list Z) (st : Controller) :=
  mkController (mSessionMap st) l (mSessionQueues st)
    (mCurrentSession st) (mResourceLost st) (mEffects st).
Definition withSessionQueues (q : gmap Z (list (Z * Z))) (st : Controller) :=
  mkController (mSessionMap st) (mUidSortedList st) q
    (mCurrentSession st) (mResourceLost st) (mEffects st).
Definition withCurrentSession (c : option (Z * Z)) (st : Controller) :=
  mkController (mSessionMap st) (mUidSortedList st) (mSessionQueues st)
    c (mResourceLost st) (mEffects st).
Definition withResourceLost (b : bool) (st : Controller) :=
  mkController (mSessionMap st) (mUidSortedList st) (mSessionQueues st)
    (mCurrentSession st) b (mEffects st).
Definition emit (e : Effect) (st : Controller) :=
  mkController (mSessionMap st) (mUidSortedList st) (mSessionQueues st)
    (mCurrentSession st) (mResourceLost st) (mEffects st ++ [e]).

(** The constructor: only the empty offline queue. *)
Definition initial : Controller :=
  mkController ∅ [OFFLINE_UID] {[ OFFLINE_UID := [] ]} None false [].

(** [mSessionMap[k]] and [mSessionQueues[u]]: [operator[]] creates a
    value-initialised entry when the key is absent. *)
Definition touchSession (k : SessionKeyType) (st : Controller) : Controller :=
  match mSessionMap st !! k with
  | Some _ => st
  | None => withSessionMap (<[k := defaultSession]> (mSessionMap st)) st
  end.

Definition touchQueue (u : uid_t) (st : Controller) : Controller :=
  match mSessionQueues st !! u with
  | Some _ => st
  | None => withSessionQueues (<[u := []]> (mSessionQueues st)) st
  end.

Definition sessionOf (k : SessionKeyType) (st : Controller) : Session :=
  default defaultSession (mSessionMap st !! k).

Definition queueOf (u : uid_t) (st : Controller) : SessionQueueType :=
  default [] (mSessionQueues st !! u).

Definition updateSession (k : SessionKeyType) (f : Session -> Session)
    (st : Controller) : Controller :=
  withSessionMap (alter f k (mSessionMap st)) st.

(** [dumpAllSessions], as far as it touches the member variables: the text
    it writes is left out, but [mSessionQueues[uid]] is evaluated for every
    listed real-time uid, and for the offline uid when the package names
    could be looked up ([namesOk]).  [None]: [pop_back] of an empty
    vector. *)
Definition dumpAllSessions (namesOk : bool) (st : Controller) : option Controller :=
  match mUidSortedList st with
  | [] => None
  | _ :: _ =>
      let uids := take (pred (length (mUidSortedList st))) (mUidSortedList st)
                  ++ (if namesOk then [OFFLINE_UID] else []) in
      Some (foldl (λ st u, touchQueue u st) st uids)
  end.

(** [getTopSession_l].  [None]: [begin()] of an empty list was
    dereferenced. *)
Definition getTopSession_l (st : Controller)
    : option (option SessionKeyType * Controller) :=
  if decide (mSessionMap st = ∅) then Some (None, st)
  else
    match mUidSortedList st with
    | [] => None
    | topUid :: _ =>
        let st := touchQueue topUid st in
        match queueOf topUid st with
        | [] => None
        | topSessionKey :: _ => Some (Some topSessionKey, touchSession topSessionKey st)
        end
    end.

(** The two calls on the transcoder that bring the top session to run. *)
Definition startOrResume (env : Env) (t : Session) (st : Controller) : Controller :=
  let cb := if lockCallback env (callback t) then Some (callback t) else None in
  match state t with
  | NOT_STARTED => emit (TranscoderStart (key t).1 (key t).2 (request t) cb) st
  | PAUSED => emit (TranscoderResume (key t).1 (key t).2 (request t) cb) st
  | RUNNING => st
  end.

(** [updateCurrentSession_l].  [None] also when [mCurrentSession] dangles. *)
Definition updateCurrentSession_l (env : Env) (st : Controller) : option Controller :=
  '(topSession, st) ← getTopSession_l st;
  let curSession := mCurrentSession st in
  match topSession with
  | None => Some (withCurrentSession None st)
  | Some top =>
      if decide (Some top ≠ curSession ∨ state (sessionOf top st) ≠ RUNNING) then
        st ← match curSession with
             | None => Some st
             | Some cur =>
                 c ← mSessionMap st !! cur;
                 if decide (state c = RUNNING)
                 then Some (updateSession cur (setState PAUSED)
                              (emit (TranscoderPause (key c).1 (key c).2) st))
                 else Some st
             end;
        let st :=
          if mResourceLost st then st
          else updateSession top (setState RUNNING)
                 (startOrResume env (sessionOf top st) st) in
        Some (withCurrentSession (Some top) st)
      else Some (withCurrentSession (Some top) st)
  end.

(** The loop of [moveUidsToTop_l] over the list it rearranges: [front] are
    the uids pushed to the front so far (last pushed first), [kept] the
    visited ones left in place, the last argument is what lies from the
    iterator on.  Returns the list at loop exit and [pushCurTopToFront]. *)
Fixpoint moveUidsLoop (uids : gset Z) (curTopUid : uid_t) (preserveTopUid : bool)
    (front kept : list Z) (pushCurTopToFront : bool) (numUidsMoved : nat)
    (rest : list Z) : list Z * bool :=
  match rest with
  | [] => (front ++ kept, pushCurTopToFront)
  | u :: rest' =>
      if decide (u ≠ OFFLINE_UID ∧ u ∈ uids) then
        let '(front, push) :=
          if decide (u = curTopUid ∧ preserveTopUid = true)
          then (front, true) else (u :: front, pushCurTopToFront) in
        if decide (S numUidsMoved = size uids)
        then (front ++ kept ++ rest', push)
        else moveUidsLoop uids curTopUid preserveTopUid front kept push
               (S numUidsMoved) rest'
      else moveUidsLoop uids curTopUid preserveTopUid front (kept ++ [u])
             pushCurTopToFront numUidsMoved rest'
  end.

(** [moveUidsToTop_l] *)
Definition moveUidsToTop_l (uids : gset Z) (preserveTopUid : bool)
    (st : Controller) : option Controller :=
  if decide (size uids = 0%nat) then Some st
  else
    match mUidSortedList st with
    | [] => None
    | curTopUid :: _ =>
        let '(l, push) :=
          moveUidsLoop uids curTopUid preserveTopUid [] [] false 0
            (mUidSortedList st) in
        Some (withUidSortedList (if push then curTopUid :: l else l) st)
    end.

(** [sessionQueue.erase(std::find(...))]: drops the first occurrence. *)
Fixpoint eraseFirst (k : SessionKeyType) (q : SessionQueueType) : SessionQueueType :=
  match q with
  | [] => []
  | x :: q' => if decide (x = k) then q' else x :: eraseFirst k q'
  end.

(** [removeSession_l] *)
Definition removeSession_l (env : Env) (sessionKey : SessionKeyType)
    (st : Controller) : option Controller :=
  match mSessionMap st !! sessionKey with
  | None => Some st
  | Some session =>
      let u := uid session in
      let st := touchQueue u st in
      let sessionQueue := queueOf u st in
      if decide (sessionKey ∈ sessionQueue) then
        let sessionQueue := eraseFirst sessionKey sessionQueue in
        let st := withSessionQueues (<[u := sessionQueue]> (mSessionQueues st)) st in
        st ← (if decide (u ≠ OFFLINE_UID ∧ sessionQueue = []) then
                let st := withUidSortedList
                            (filter (λ x, x ≠ u) (mUidSortedList st)) st in
                let st := withSessionQueues (delete u (mSessionQueues st)) st in
                let st := emit (UnregisterMonitorUid u) st in
                moveUidsToTop_l (getTopUids env sessionKey) false st
              else Some st);
        let st := if decide (mCurrentSession st = Some sessionKey)
                  then withCurrentSession None st else st in
        Some (withSessionMap (delete sessionKey (mSessionMap st)) st)
      else Some st
  end.

(** [mUidSortedList.insert(mOfflineUidIterator, uid)] *)
Fixpoint insertBeforeOffline (u : uid_t) (l : list Z) : list Z :=
  match l with
  | [] => [u]
  | x :: l' => if decide (x = OFFLINE_UID) then u :: x :: l'
               else x :: insertBeforeOffline u l'
  end.

(** [validateState_l], compiled in by [VALIDATE_STATE]: [true] when no
    [LOG_ALWAYS_FATAL_IF] fires.  [totalSessions] is counted without the
    wrap-around of [int32_t], which only a registry of [2^31] sessions
    could reach. *)
Definition validateState_l (st : Controller) : bool :=
  bool_decide (is_Some (mSessionQueues st !! OFFLINE_UID))
  && bool_decide (OFFLINE_UID ∈ mUidSortedList st)
  && bool_decide (length (mUidSortedList st) = size (mSessionQueues st))
  && forallb (λ u,
       bool_decide (is_Some (mSessionQueues st !! u))
       && forallb (λ k, bool_decide (is_Some (mSessionMap st !! k)))
            (queueOf u st))
       (mUidSortedList st)
  && bool_decide (size (mSessionMap st)
                  = sum_list (map (λ u, length (queueOf u st)) (mUidSortedList st))).

Definition validated (st : Controller) : option Controller :=
  if validateState_l st then Some st else None.

(** [submit] *)
Definition submit (env : Env) (clientId : ClientIdType) (sessionId : SessionIdType)
    (u : uid_t) (req : TranscodingRequestParcel) (cb : Z)
    (st : Controller) : option (bool * Controller) :=
  let sessionKey := (clientId, sessionId) in
  if decide (is_Some (mSessionMap st !! sessionKey)) then Some (false, st)
  else
    let u := if decide (priority req = kUnspecified) then OFFLINE_UID else u in
    let st := withSessionMap
                (<[sessionKey := mkSession sessionKey u NOT_STARTED 0 req cb]>
                   (mSessionMap st)) st in
    st ← (if decide (u ≠ OFFLINE_UID) then
            match mSessionQueues st !! u with
            | None =>
                let st := emit (RegisterMonitorUid u) st in
                if isUidOnTop env u
                then Some (withUidSortedList (u :: mUidSortedList st) st)
                else Some (withUidSortedList
                             (insertBeforeOffline u (mUidSortedList st)) st)
            | Some _ =>
                match mUidSortedList st with
                | [] => None
                | top :: _ =>
                    if decide (u ≠ top) then
                      if isUidOnTop env u
                      then Some (withUidSortedList
                                   (u :: filter (λ x, x ≠ u) (mUidSortedList st)) st)
                      else Some st
                    else Some st
                end
            end
          else Some st);
    let st := withSessionQueues
                (<[u := queueOf u st ++ [sessionKey]]> (mSessionQueues st)) st in
    st ← updateCurrentSession_l env st;
    st ← validated st;
    Some (true, st).

(** The iteration order of [std::map<SessionKeyType, Session>]. *)
Definition keyLe (a b : SessionKeyType) : Prop :=
  a.1 < b.1 ∨ (a.1 = b.1 ∧ a.2 ≤ b.2).

#[global] Instance keyLe_dec a b : Decision (keyLe a b).
Proof. unfold keyLe. apply _. Defined.

Definition sortedKeys (m : gmap (Z * Z) Session) : list (Z * Z) :=
  merge_sort keyLe (map fst (map_to_list m)).

(** The first loop of [cancel]: the client's real-time sessions. *)
Definition realtimeSessionsOf (clientId : ClientIdType) (st : Controller)
    : list (Z * Z) :=
  filter (λ k, k.1 = clientId ∧ uid (sessionOf k st) ≠ OFFLINE_UID)
    (sortedKeys (mSessionMap st)).

(** One round of the second loop of [cancel]. *)
Definition cancelOne (env : Env) (k : SessionKeyType) (st : Controller)
    : option Controller :=
  let st := touchSession k st in
  let st := if decide (state (sessionOf k st) ≠ NOT_STARTED)
            then emit (TranscoderStop k.1 k.2) st else st in
  removeSession_l env k st.

Fixpoint cancelLoop (env : Env) (sessionsToRemove : list (Z * Z))
    (st : Controller) : option Controller :=
  match sessionsToRemove with
  | [] => Some st
  | k :: ks => st ← cancelOne env k st; cancelLoop env ks st
  end.

(** [cancel] *)
Definition cancel (env : Env) (clientId : ClientIdType) (sessionId : SessionIdType)
    (st : Controller) : option (bool * Controller) :=
  let sessionKey := (clientId, sessionId) in
  if decide (sessionId < 0) then
    st ← cancelLoop env (realtimeSessionsOf clientId st) st;
    st ← updateCurrentSession_l env st;
    st ← validated st;
    Some (true, st)
  else
    match mSessionMap st !! sessionKey with
    | None => Some (false, st)
    | Some _ =>
        st ← cancelLoop env [sessionKey] st;
        st ← updateCurrentSession_l env st;
        st ← validated st;
        Some (true, st)
    end.

(** [getSession] *)
Definition getSession (clientId : ClientIdType) (sessionId : SessionIdType)
    (st : Controller) : option TranscodingRequestParcel :=
  request <$> mSessionMap st !! (clientId, sessionId).

(** [notifyClient]: [func] runs only for a session that exists and has been
    started. *)
Definition notifyClient (clientId : ClientIdType) (sessionId : SessionIdType)
    (func : SessionKeyType -> Controller -> option Controller)
    (st : Controller) : option Controller :=
  let sessionKey := (clientId, sessionId) in
  match mSessionMap st !! sessionKey with
  | None => Some st
  | Some s =>
      if decide (state s = NOT_STARTED) then Some st
      else func sessionKey st
  end.

(** [callback.lock()] followed by the call on the client, if any. *)
Definition callClient (env : Env) (k : SessionKeyType) (e : Z -> Effect)
    (st : Controller) : Controller :=
  let cb := callback (sessionOf k st) in
  if lockCallback env cb then emit (e cb) st else st.

Definition onStarted (env : Env) (clientId : ClientIdType) (sessionId : SessionIdType)
    : Controller -> option Controller :=
  notifyClient clientId sessionId (λ k st,
    Some (callClient env k (λ cb, ClientStarted cb sessionId) st)).

Definition onPaused (env : Env) (clientId : ClientIdType) (sessionId : SessionIdType)
    : Controller -> option Controller :=
  notifyClient clientId sessionId (λ k st,
    Some (callClient env k (λ cb, ClientPaused cb sessionId) st)).

Definition onResumed (env : Env) (clientId : ClientIdType) (sessionId : SessionIdType)
    : Controller -> option Controller :=
  notifyClient clientId sessionId (λ k st,
    Some (callClient env k (λ cb, ClientResumed cb sessionId) st)).

(** [onFinish] *)
Definition onFinish (env : Env) (clientId : ClientIdType) (sessionId : SessionIdType)
    : Controller -> option Controller :=
  notifyClient clientId sessionId (λ k st,
    let st := callClient env k (λ cb, ClientFinished cb sessionId sessionId (-1)) st in
    st ← removeSession_l env k st;
    st ← updateCurrentSession_l env st;
    validated st).

(** [onError] *)
Definition onError (env : Env) (clientId : ClientIdType) (sessionId : SessionIdType)
    (err : Z) : Controller -> option Controller :=
  notifyClient clientId sessionId (λ k st,
    let st := callClient env k (λ cb, ClientFailed cb sessionId err) st in
    st ← removeSession_l env k st;
    st ← updateCurrentSession_l env st;
    validated st).

(** [onProgressUpdate] *)
Definition onProgressUpdate (env : Env) (clientId : ClientIdType)
    (sessionId : SessionIdType) (progress : Z) : Controller -> option Controller :=
  notifyClient clientId sessionId (λ k st,
    let st := callClient env k (λ cb, ClientProgress cb sessionId progress) st in
    Some (updateSession k (setLastProgress progress) st)).

(** [onResourceLost] *)
Definition onResourceLost (env : Env) (st : Controller) : option Controller :=
  if mResourceLost st then Some st
  else
    st ← match mCurrentSession st with
         | None => Some st
         | Some cur =>
             c ← mSessionMap st !! cur;
             if decide (state c = RUNNING) then
               let st := updateSession cur (setState PAUSED) st in
               Some (if lockCallback env (callback c)
                     then emit (ClientPaused (callback c) (key c).2) st else st)
             else Some st
         end;
    validated (withResourceLost true st).

(** [onTopUidsChanged] *)
Definition onTopUidsChanged (env : Env) (uids : gset Z) (st : Controller)
    : option Controller :=
  if decide (size uids = 0%nat) then Some st
  else
    st ← moveUidsToTop_l uids true st;
    st ← updateCurrentSession_l env st;
    validated st.

(** [onResourceAvailable] *)
Definition onResourceAvailable (env : Env) (st : Controller) : option Controller :=
  if mResourceLost st then
    st ← updateCurrentSession_l env (withResourceLost false st);
    validated st
  else Some st.

(** The public operations, each with the collaborators' answers. *)
Inductive Op :=
  | Submit (env : Env) (clientId : ClientIdType) (sessionId : SessionIdType)
      (u : uid_t) (req : TranscodingRequestParcel) (cb : Z)
  | Cancel (env : Env) (clientId : ClientIdType) (sessionId : SessionIdType)
  | GetSession (clientId : ClientIdType) (sessionId : SessionIdType)
  | DumpAllSessions (namesOk : bool)
  | OnStarted (env : Env) (clientId : ClientIdType) (sessionId : SessionIdType)
  | OnPaused (env : Env) (clientId : ClientIdType) (sessionId : SessionIdType)
  | OnResumed (env : Env) (clientId : ClientIdType) (sessionId : SessionIdType)
  | OnFinish (env : Env) (clientId : ClientIdType) (sessionId : SessionIdType)
  | OnError (env : Env) (clientId : ClientIdType) (sessionId : SessionIdType) (err : Z)
  | OnProgressUpdate (env : Env) (clientId : ClientIdType)
      (sessionId : SessionIdType) (progress : Z)
  | OnResourceLost (env : Env)
  | OnTopUidsChanged (env : Env) (uids : gset Z)
  | OnResourceAvailable (env : Env).

Definition step (op : Op) (st : Controller) : option Controller :=
  match op with
  | Submit env c s u req cb => snd <$> submit env c s u req cb st
  | Cancel env c s => snd <$> cancel env c s st
  | GetSession c s => Some st
  | DumpAllSessions namesOk => dumpAllSessions namesOk st
  | OnStarted env c s => onStarted env c s st
  | OnPaused env c s => onPaused env c s st
  | OnResumed env c s => onResumed env c s st
  | OnFinish env c s => onFinish env c s st
  | OnError env c s err => onError env c s err st
  | OnProgressUpdate env c s p => onProgressUpdate env c s p st
  | OnResourceLost env => onResourceLost env st
  | OnTopUidsChanged env uids => onTopUidsChanged env uids st
  | OnResourceAvailable env => onResourceAvailable env st
  end.

(** A run of public operations from a given state. *)
Fixpoint run (ops : list Op) (st : Controller) : option Controller :=
  match ops with
  | [] => Some st
  | op :: ops' => st ← step op st; run ops' st
  end.

(** The states the controller can be in. *)
Definition reachable (st : Controller) : Prop :=
  ∃ ops, run ops initial = Some st.

(** The top session: the first key of the first uid's queue. *)
Definition topSession (st : Controller) : option SessionKeyType :=
  match mUidSortedList st with
  | [] => None
  | u :: _ => head (queueOf u st)
  end.

Definition runningSessions (st : Controller) : list (Z * Z) :=
  filter (λ k, state (sessionOf k st) = RUNNING) (sortedKeys (mSessionMap st)).

(** The part of [submit] between the duplicate check and the call of
    [updateCurrentSession_l]: the session is registered and queued. *)
Definition submitQueued (env : Env) (sessionKey : SessionKeyType) (u : uid_t)
    (req : TranscodingRequestParcel) (cb : Z) (st : Controller)
    : option Controller :=
  let u := if decide (priority req = kUnspecified) then OFFLINE_UID else u in
  let st := withSessionMap
              (<[sessionKey := mkSession sessionKey u NOT_STARTED 0 req cb]>
                 (mSessionMap st)) st in
  st ← (if decide (u ≠ OFFLINE_UID) then
          match mSessionQueues st !! u with
          | None =>
              let st := emit (RegisterMonitorUid u) st in
              if isUidOnTop env u
              then Some (withUidSortedList (u :: mUidSortedList st) st)
              else Some (withUidSortedList
                           (insertBeforeOffline u (mUidSortedList st)) st)
          | Some _ =>
              match mUidSortedList st with
              | [] => None
              | top :: _ =>
                  if decide (u ≠ top) then
                    if isUidOnTop env u
                    then Some (withUidSortedList
                                 (u :: filter (λ x, x ≠ u) (mUidSortedList st)) st)
                    else Some st
                  else Some st
              end
          end
        else Some st);
  Some (withSessionQueues
          (<[u := queueOf u st ++ [sessionKey]]> (mSessionQueues st)) st).

(** The uid a request is queued under. *)
Definition queueUid (u : uid_t) (req : TranscodingRequestParcel) : uid_t :=
  if decide (priority req = kUnspecified) then OFFLINE_UID else u.

(** Two registries that differ at most in the state of their sessions. *)
Definition sameButState (m m' : gmap (Z * Z) Session) : Prop :=
  ∀ k, match m !! k, m' !! k with
       | Some s, Some s' => s' = setState (state s') s
       | None, None => True
       | _, _ => False
       end.

(** What every public operation maintains of the member variables: the uid
    list ends with [OFFLINE_UID] and repeats no uid; the queues are those of
    the listed uids; a real-time queue is never empty; a key lies in the
    queue of uid [u] exactly when it is registered with that uid, and only
    once; a session is stored under its own key; only the current session
    runs, and none while resources are lost; the current-session pointer
    never dangles. *)
Record wf (st : Controller) : Prop := mkWf {
  wf_nodup : NoDup (mUidSortedList st);
  wf_last : last (mUidSortedList st) = Some OFFLINE_UID;
  wf_dom : ∀ u, u ∈ mUidSortedList st ↔ is_Some (mSessionQueues st !! u);
  wf_nonempty : ∀ u, u ∈ mUidSortedList st → u ≠ OFFLINE_UID → queueOf u st ≠ [];
  wf_queue_nodup : ∀ u, NoDup (queueOf u st);
  wf_queue : ∀ k u,
    k ∈ queueOf u st ↔ ∃ s, mSessionMap st !! k = Some s ∧ uid s = u;
  wf_key : ∀ k s, mSessionMap st !! k = Some s → key s = k;
  wf_running : ∀ k s,
    mSessionMap st !! k = Some s → state s = RUNNING →
    mCurrentSession st = Some k ∧ mResourceLost st = false;
  wf_cur : ∀ k, mCurrentSession st = Some k → is_Some (mSessionMap st !! k);
}.

(** The invariant of the public operations. *)
Definition Inv (st : Controller) : Prop :=
  wf st ∧ mCurrentSession st = topSession st.

(** A small population used to run the operations on: client 1 holds a
    running real-time session and an offline one, client 2 a real-time
    session that waits behind it. *)
Definition envTop : Env := mkEnv (λ _, true) (λ _, ∅) (λ _, true).
Definition envBack : Env := mkEnv (λ _, false) (λ _, ∅) (λ _, true).
Definition realtime : TranscodingRequestParcel := mkRequest (kPriority 1) "in" "out".
Definition offline : TranscodingRequestParcel := mkRequest kUnspecified "in" "out".

Definition demoOps : list Op :=
  [Submit envTop 1 1 100 realtime 7; Submit envBack 2 2 200 realtime 8;
   Submit envTop 1 3 100 offline 7].
Definition demoState : Controller := default initial (run demoOps initial).

(** The same after the resources were lost. *)
Definition lostOps : list Op := demoOps ++ [OnResourceLost envTop].
Definition lostState : Controller := default initial (run lostOps initial).

(** With the resources at hand, the top session is the one that runs. *)
Definition topRuns (st : Controller) : Prop :=
  mResourceLost st = false →
  ∀ t, topSession st = Some t → state (sessionOf t st) = RUNNING.

(** Two records of the same session: all but state and progress agree. *)
Definition sameIdentity (s s' : Session) : Prop :=
  key s' = key s ∧ uid s' = uid s ∧ request s' = request s
  ∧ callback s' = callback s.

(** The sessions registered in both registries kept their identity. *)
Definition identitiesKept (m m' : gmap (Z * Z) Session) : Prop :=
  ∀ k s s', m !! k = Some s → m' !! k = Some s' → sameIdentity s s'.

(** [onResourceLost] pauses whatever runs. *)
Definition pauseIfRunning (s : Session) : Session :=
  if decide (state s = RUNNING) then setState PAUSED s else s.

(** The calls [updateCurrentSession_l] makes: pause, start and resume. *)
Definition isSchedulingCall (e : Effect) : Prop :=
  match e with
  | TranscoderStart _ _ _ _ | TranscoderPause _ _ | TranscoderResume _ _ _ _ => True
  | _ => False
  end.

(** The registered keys. *)
Definition registered (k : SessionKeyType) (st : Controller) : Prop :=
  is_Some (mSessionMap st !! k).

(** A uid that [moveUidsToTop_l] moves for a given set. *)
Definition isMoved (uids : gset Z) (u : uid_t) : Prop :=
  u ≠ OFFLINE_UID ∧ u ∈ uids.

#[global] Instance isMoved_dec uids u : Decision (isMoved uids u).
Proof. unfold isMoved. apply _. Defined.

(** Two more reachable states: the registry emptied again, and the
    population of [demoState] with one more session. *)
Definition emptiedOps : list Op :=
  [Submit envTop 1 1 100 realtime 7; Cancel envTop 1 1].
Definition emptiedState : Controller := default initial (run emptiedOps initial).
Definition grownState : Controller :=
  default initial (run (demoOps ++ [Submit envTop 3 1 300 realtime 9]) initial).

End Scheduler.

(** ** The video track transcoder *)

Module Pipeline.

Abbreviation media_status_t := Z (only parsing).

(** Modelled from the spec: the status codes and buffer flags of the NDK
    headers, which are not among the sources at hand.  Only that the error
    codes differ from [AMEDIA_OK] and from each other matters below. *)
Definition AMEDIA_OK : media_status_t := 0.
Definition AMEDIA_ERROR_UNKNOWN : media_status_t := -10000.
Definition AMEDIA_ERROR_INVALID_PARAMETER : media_status_t := -10004.
Definition AMEDIA_ERROR_END_OF_STREAM : media_status_t := -10006.
Definition AMEDIACODEC_BUFFER_FLAG_END_OF_STREAM : Z := 4.
Definition AMEDIACODEC_INFO_OUTPUT_FORMAT_CHANGED : Z := -2.

(** Modelled from the spec: [AMediaFormat] is a table from key names to
    typed values; a typed getter finds a key only with a value of its own
    type, a setter replaces whatever the key held. *)
Inductive FormatValue :=
  | VInt32 (v : Z)
  | VInt64 (v : Z)
  | VString (v : string)
  | VOther (tag : Z).

#[global] Instance FormatValue_eq_dec : EqDecision FormatValue.
Proof. solve_decision. Defined.

Abbreviation AMediaFormat := (gmap string FormatValue) (only parsing).

Definition AMediaFormat_getInt32 (f : AMediaFormat) (name : string) : option Z :=
  match f !! name with Some (VInt32 v) => Some v | _ => None end.
Definition AMediaFormat_getInt64 (f : AMediaFormat) (name : string) : option Z :=
  match f !! name with Some (VInt64 v) => Some v | _ => None end.
Definition AMediaFormat_setInt32 (f : AMediaFormat) (name : string) (v : Z)
    : AMediaFormat := <[name := VInt32 v]> f.
Definition AMediaFormat_setInt64 (f : AMediaFormat) (name : string) (v : Z)
    : AMediaFormat := <[name := VInt64 v]> f.

Definition AMEDIAFORMAT_KEY_SAR_WIDTH : string := "sar-width".
Definition AMEDIAFORMAT_KEY_SAR_HEIGHT : string := "sar-height".
Definition AMEDIAFORMAT_KEY_DISPLAY_WIDTH : string := "display-width".
Definition AMEDIAFORMAT_KEY_DISPLAY_HEIGHT : string := "display-height".
Definition AMEDIAFORMAT_KEY_ROTATION : string := "rotation-degrees".
Definition AMEDIAFORMAT_KEY_DURATION : string := "durationUs".

Inductive Codec := Decoder | Encoder.

#[global] Instance Codec_eq_dec : EqDecision Codec.
Proof. solve_decision. Defined.

Record AMediaCodecBufferInfo := mkBufferInfo {
  bi_offset : Z;
  bi_size : Z;
  bi_presentationTimeUs : Z;
  bi_flags : Z;
}.

Record MediaSampleInfo := mkSampleInfo {
  si_size : Z;
  si_presentationTimeUs : Z;
  si_flags : Z;
}.

(** What [dequeueOutputSample] hands to the sink. *)
Record MediaSample := mkMediaSample {
  bufferId : Z;
  dataOffset : Z;
  info : MediaSampleInfo;
}.

(** The closures pushed on [mCodecMessageQueue]. *)
Inductive Message :=
  | MsgStartDecoder
  | MsgStartEncoder
  | MsgEnqueueInputSample (index : Z)
  | MsgOutputAvailable (codec : Codec) (index : Z) (bufferInfo : AMediaCodecBufferInfo)
  | MsgUpdateTrackFormat (format : gmap string FormatValue)
  | MsgError (error : media_status_t)
  | MsgAbort.

(** [BlockingQueue<T>] *)
Record BlockingQueue := mkQueue {
  mQueue : list Message;
  mAborted : bool;
}.

Definition push (value : Message) (front : bool) (q : BlockingQueue) : BlockingQueue :=
  if mAborted q then q
  else if front then mkQueue (value :: mQueue q) (mAborted q)
  else mkQueue (mQueue q ++ [value]) (mAborted q).

(** [pop]; [None] while the caller waits on the condition variable. *)
Definition pop (q : BlockingQueue) : option (Message * BlockingQueue) :=
  match mQueue q with
  | [] => None
  | value :: rest => Some (value, mkQueue rest (mAborted q))
  end.

Definition abort (q : BlockingQueue) : BlockingQueue := mkQueue [] true.

(** Calls on the codecs, the reader and the sink, oldest first. *)
Inductive Call :=
  | CodecStart (codec : Codec)
  | CodecStop (codec : Codec)
  | GetSampleInfoForTrack
  | ReadSampleDataForTrack (size : Z)
  | QueueInputBuffer (index size presentationTimeUs flags : Z)
  | ReleaseOutputBuffer (codec : Codec) (index : Z) (render : bool)
  | SignalEndOfInputStream
  | GetOutputFormat
  | OutputSampleAvailable (sample : MediaSample)
  | TrackFormatAvailable.

(** What the codecs and the reader answer while one message runs. *)
Record CodecEnv := mkCodecEnv {
  startStatus : media_status_t;
  sampleInfoStatus : media_status_t;
  sampleInfo : MediaSampleInfo;
  inputBufferSize : option Z;
  readStatus : media_status_t;
  queueStatus : media_status_t;
  signalEosStatus : media_status_t;
  formatCopyOk : bool;
}.

(** The member variables of the transcoder the run loop touches. *)
Record Transcoder := mkTranscoder {
  mCodecMessageQueue : BlockingQueue;
  mStatus : media_status_t;
  mStopRequested : bool;
  mEosFromSource : bool;
  mEosFromEncoder : bool;
  mSampleInfo : MediaSampleInfo;
  mSourceFormat : gmap string FormatValue;
  mActualOutputFormat : option (gmap string FormatValue);
  mEncoderStarted : bool;
  mCalls : list Call;
}.

Definition withQueue (q : BlockingQueue) (t : Transcoder) : Transcoder :=
  mkTranscoder q (mStatus t) (mStopRequested t) (mEosFromSource t)
    (mEosFromEncoder t) (mSampleInfo t) (mSourceFormat t)
    (mActualOutputFormat t) (mEncoderStarted t) (mCalls t).
Definition withStatus (s : media_status_t) (t : Transcoder) : Transcoder :=
  mkTranscoder (mCodecMessageQueue t) s (mStopRequested t) (mEosFromSource t)
    (mEosFromEncoder t) (mSampleInfo t) (mSourceFormat t)
    (mActualOutputFormat t) (mEncoderStarted t) (mCalls t).
Definition withStopRequested (b : bool) (t : Transcoder) : Transcoder :=
  mkTranscoder (mCodecMessageQueue t) (mStatus t) b (mEosFromSource t)
    (mEosFromEncoder t) (mSampleInfo t) (mSourceFormat t)
    (mActualOutputFormat t) (mEncoderStarted t) (mCalls t).
Definition withEosFromSource (b : bool) (t : Transcoder) : Transcoder :=
  mkTranscoder (mCodecMessageQueue t) (mStatus t) (mStopRequested t) b
    (mEosFromEncoder t) (mSampleInfo t) (mSourceFormat t)
    (mActualOutputFormat t) (mEncoderStarted t) (mCalls t).
Definition withEosFromEncoder (b : bool) (t : Transcoder) : Transcoder :=
  mkTranscoder (mCodecMessageQueue t) (mStatus t) (mStopRequested t)
    (mEosFromSource t) b (mSampleInfo t) (mSourceFormat t)
    (mActualOutputFormat t) (mEncoderStarted t) (mCalls t).
Definition withSampleInfo (i : MediaSampleInfo) (t : Transcoder) : Transcoder :=
  mkTranscoder (mCodecMessageQueue t) (mStatus t) (mStopRequested t)
    (mEosFromSource t) (mEosFromEncoder t) i (mSourceFormat t)
    (mActualOutputFormat t) (mEncoderStarted t) (mCalls t).
Definition withActualOutputFormat (f : option (gmap string FormatValue))
    (t : Transcoder) : Transcoder :=
  mkTranscoder (mCodecMessageQueue t) (mStatus t) (mStopRequested t)
    (mEosFromSource t) (mEosFromEncoder t) (mSampleInfo t) (mSourceFormat t)
    f (mEncoderStarted t) (mCalls t).
Definition withEncoderStarted (b : bool) (t : Transcoder) : Transcoder :=
  mkTranscoder (mCodecMessageQueue t) (mStatus t) (mStopRequested t)
    (mEosFromSource t) (mEosFromEncoder t) (mSampleInfo t) (mSourceFormat t)
    (mActualOutputFormat t) b (mCalls t).
Definition call (c : Call) (t : Transcoder) : Transcoder :=
  mkTranscoder (mCodecMessageQueue t) (mStatus t) (mStopRequested t)
    (mEosFromSource t) (mEosFromEncoder t) (mSampleInfo t) (mSourceFormat t)
    (mActualOutputFormat t) (mEncoderStarted t) (mCalls t ++ [c]).

(** [enqueueInputSample] *)
Definition enqueueInputSample (env : CodecEnv) (bufferIndex : Z)
    (t : Transcoder) : Transcoder :=
  if mEosFromSource t then t
  else
    let t := withSampleInfo (sampleInfo env) (call GetSampleInfoForTrack t) in
    let status := sampleInfoStatus env in
    if decide (status ≠ AMEDIA_OK ∧ status ≠ AMEDIA_ERROR_END_OF_STREAM)
    then withStatus status t
    else
      let endOfStream := bool_decide (status = AMEDIA_ERROR_END_OF_STREAM) in
      let queueIt (t : Transcoder) :=
        let t := call (QueueInputBuffer bufferIndex (si_size (mSampleInfo t))
                         (si_presentationTimeUs (mSampleInfo t))
                         (si_flags (mSampleInfo t))) t in
        if decide (queueStatus env ≠ AMEDIA_OK)
        then withStatus (queueStatus env) t else t in
      if negb endOfStream then
        match inputBufferSize env with
        | None => withStatus AMEDIA_ERROR_UNKNOWN t
        | Some bufferSize =>
            if decide (bufferSize < si_size (mSampleInfo t))
            then withStatus AMEDIA_ERROR_UNKNOWN t
            else
              let t := call (ReadSampleDataForTrack (si_size (mSampleInfo t))) t in
              if decide (readStatus env ≠ AMEDIA_OK)
              then withStatus (readStatus env) t
              else queueIt t
        end
      else queueIt (withEosFromSource true t).

Definition hasEosFlag (flags : Z) : bool :=
  negb (Z.land flags AMEDIACODEC_BUFFER_FLAG_END_OF_STREAM =? 0).

(** [transferBuffer] *)
Definition transferBuffer (env : CodecEnv) (bufferIndex : Z)
    (bufferInfo : AMediaCodecBufferInfo) (t : Transcoder) : Transcoder :=
  let t := if decide (0 ≤ bufferIndex)
           then call (ReleaseOutputBuffer Decoder bufferIndex
                        (bool_decide (0 < bi_size bufferInfo))) t
           else t in
  if hasEosFlag (bi_flags bufferInfo) then
    let t := call SignalEndOfInputStream t in
    if decide (signalEosStatus env ≠ AMEDIA_OK)
    then withStatus (signalEosStatus env) t else t
  else t.

(** Modelled from the spec: [onOutputSampleAvailable] of the base class
    delivers the sample to the sink. *)
Definition onOutputSampleAvailable (sample : MediaSample) (t : Transcoder)
    : Transcoder := call (OutputSampleAvailable sample) t.

(** Modelled from the spec: [notifyTrackFormatAvailable] of the base class
    tells the sink that the track format is there. *)
Definition notifyTrackFormatAvailable (t : Transcoder) : Transcoder :=
  call TrackFormatAvailable t.

(** [size_t]: 64 bits wide here.  A signed value assigned to a [size_t]
    is converted modulo [2^64]. *)
Definition size_t_of (x : Z) : Z := x mod 2 ^ 64.

(** [dequeueOutputSample].  [bufferInfo.offset] and [bufferInfo.size] are
    [int32_t]; the sample's [dataOffset] and [info.size] are [size_t]
    (MediaSample.h, which is not among the sources at hand), so both are
    converted on the way. *)
Definition dequeueOutputSample (bufferIndex : Z)
    (bufferInfo : AMediaCodecBufferInfo) (t : Transcoder) : Transcoder :=
  let t :=
    if decide (0 ≤ bufferIndex) then
      onOutputSampleAvailable
        (mkMediaSample bufferIndex (size_t_of (bi_offset bufferInfo))
           (mkSampleInfo (size_t_of (bi_size bufferInfo))
              (bi_presentationTimeUs bufferInfo) (bi_flags bufferInfo))) t
    else if decide (bufferIndex = AMEDIACODEC_INFO_OUTPUT_FORMAT_CHANGED)
    then call GetOutputFormat t
    else t in
  if hasEosFlag (bi_flags bufferInfo) then withEosFromEncoder true t else t.

(** The format [updateTrackFormat] builds from the encoder's output format
    and [mSourceFormat]. *)
Definition composeTrackFormat (sourceFormat outputFormat : gmap string FormatValue)
    : gmap string FormatValue :=
  let formatCopy := outputFormat in
  let formatCopy :=
    match AMediaFormat_getInt32 sourceFormat AMEDIAFORMAT_KEY_SAR_WIDTH with
    | Some sarWidth =>
        if decide (0 < sarWidth) then
          match AMediaFormat_getInt32 sourceFormat AMEDIAFORMAT_KEY_SAR_HEIGHT with
          | Some sarHeight =>
              if decide (0 < sarHeight) then
                AMediaFormat_setInt32
                  (AMediaFormat_setInt32 formatCopy AMEDIAFORMAT_KEY_SAR_WIDTH sarWidth)
                  AMEDIAFORMAT_KEY_SAR_HEIGHT sarHeight
              else formatCopy
          | None => formatCopy
          end
        else formatCopy
    | None => formatCopy
    end in
  let formatCopy :=
    match AMediaFormat_getInt32 sourceFormat AMEDIAFORMAT_KEY_DISPLAY_WIDTH with
    | Some displayWidth =>
        if decide (0 < displayWidth) then
          match AMediaFormat_getInt32 sourceFormat AMEDIAFORMAT_KEY_DISPLAY_HEIGHT with
          | Some displayHeight =>
              if decide (0 < displayHeight) then
                AMediaFormat_setInt32
                  (AMediaFormat_setInt32 formatCopy
                     AMEDIAFORMAT_KEY_DISPLAY_WIDTH displayWidth)
                  AMEDIAFORMAT_KEY_DISPLAY_HEIGHT displayHeight
              else formatCopy
          | None => formatCopy
          end
        else formatCopy
    | None => formatCopy
    end in
  let formatCopy :=
    match AMediaFormat_getInt32 sourceFormat AMEDIAFORMAT_KEY_ROTATION with
    | Some rotation =>
        if decide (rotation ≠ 0)
        then AMediaFormat_setInt32 formatCopy AMEDIAFORMAT_KEY_ROTATION rotation
        else formatCopy
    | None => formatCopy
    end in
  match AMediaFormat_getInt64 sourceFormat AMEDIAFORMAT_KEY_DURATION with
  | Some durationUs =>
      if decide (0 < durationUs)
      then AMediaFormat_setInt64 formatCopy AMEDIAFORMAT_KEY_DURATION durationUs
      else formatCopy
  | None => formatCopy
  end.

(** [updateTrackFormat] *)
Definition updateTrackFormat (env : CodecEnv) (outputFormat : gmap string FormatValue)
    (t : Transcoder) : Transcoder :=
  match mActualOutputFormat t with
  | Some _ => t
  | None =>
      if formatCopyOk env then
        notifyTrackFormatAvailable
          (withActualOutputFormat
             (Some (composeTrackFormat (mSourceFormat t) outputFormat)) t)
      else withStatus AMEDIA_ERROR_INVALID_PARAMETER t
  end.

(** Running one message of the queue. *)
Definition execute (env : CodecEnv) (m : Message) (t : Transcoder) : Transcoder :=
  match m with
  | MsgStartDecoder =>
      let t := call (CodecStart Decoder) t in
      if decide (startStatus env ≠ AMEDIA_OK) then withStatus (startStatus env) t else t
  | MsgStartEncoder =>
      let t := call (CodecStart Encoder) t in
      let t := if decide (startStatus env ≠ AMEDIA_OK)
               then withStatus (startStatus env) t else t in
      withEncoderStarted true t
  | MsgEnqueueInputSample index => enqueueInputSample env index t
  | MsgOutputAvailable Decoder index bufferInfo => transferBuffer env index bufferInfo t
  | MsgOutputAvailable Encoder index bufferInfo => dequeueOutputSample index bufferInfo t
  | MsgUpdateTrackFormat format => updateTrackFormat env format t
  | MsgError error => withStopRequested true (withStatus error t)
  | MsgAbort => withStopRequested true t
  end.

(** What other threads do to the transcoder while the loop runs: the four
    callbacks of [AsyncCodecCallbackDispatch] and [abortTranscodeLoop]. *)
Inductive Arrival :=
  | OnAsyncInputAvailable (codec : Codec) (index : Z)
  | OnAsyncOutputAvailable (codec : Codec) (index : Z)
      (bufferInfo : AMediaCodecBufferInfo)
  | OnAsyncFormatChanged (codec : Codec) (format : gmap string FormatValue)
  | OnAsyncError (codec : Codec) (error : media_status_t) (actionCode : Z)
  | AbortTranscodeLoop.

Definition pushMessage (m : Message) (front : bool) (t : Transcoder) : Transcoder :=
  withQueue (push m front (mCodecMessageQueue t)) t.

Definition arrive (a : Arrival) (t : Transcoder) : Transcoder :=
  match a with
  | OnAsyncInputAvailable codec index =>
      if decide (codec = Decoder)
      then pushMessage (MsgEnqueueInputSample index) false t else t
  | OnAsyncOutputAvailable codec index bufferInfo =>
      pushMessage (MsgOutputAvailable codec index bufferInfo) false t
  | OnAsyncFormatChanged codec format =>
      if decide (codec = Encoder)
      then pushMessage (MsgUpdateTrackFormat format) false t else t
  | OnAsyncError codec error actionCode => pushMessage (MsgError error) true t
  | AbortTranscodeLoop => pushMessage MsgAbort true t
  end.

Definition arriveAll (l : list Arrival) (t : Transcoder) : Transcoder :=
  foldl (λ t a, arrive a t) t l.

(** One turn of the loop: what arrived since the last turn, and what the
    codecs answer to the message that runs. *)
Record Tick := mkTick {
  arrivals : list Arrival;
  answers : CodecEnv;
}.

(** [!mStopRequested && !mEosFromEncoder && mStatus == AMEDIA_OK] *)
Definition loopCondition (t : Transcoder) : bool :=
  negb (mStopRequested t) && negb (mEosFromEncoder t)
  && bool_decide (mStatus t = AMEDIA_OK).

Inductive LoopResult :=
  | Exited (t : Transcoder)
  | Waiting (t : Transcoder).

(** The [while] loop of [runTranscodeLoop] along a schedule.  A turn that
    finds the queue empty waits in [pop] for the next arrivals; [Waiting]
    is a loop that the schedule leaves running. *)
Fixpoint transcodeLoop (sched : list Tick) (t : Transcoder) : LoopResult :=
  if loopCondition t then
    match sched with
    | [] => Waiting t
    | tick :: sched' =>
        let t := arriveAll (arrivals tick) t in
        match pop (mCodecMessageQueue t) with
        | None => transcodeLoop sched' t
        | Some (message, q) =>
            transcodeLoop sched' (execute (answers tick) message (withQueue q t))
        end
    end
  else Exited t.

(** What [runTranscodeLoop] does once the loop is left. *)
Definition finishTranscodeLoop (t : Transcoder) : media_status_t * Transcoder :=
  let t := withQueue (abort (mCodecMessageQueue t)) t in
  let t := call (CodecStop Decoder) t in
  let t := if mStopRequested t && negb (mEosFromEncoder t)
              && bool_decide (mStatus t = AMEDIA_OK)
           then withStatus AMEDIA_ERROR_UNKNOWN t else t in
  (mStatus t, t).

(** [runTranscodeLoop]; [None] while the loop still runs. *)
Definition runTranscodeLoop (sched : list Tick) (t : Transcoder)
    : option (media_status_t * Transcoder) :=
  let t := pushMessage MsgStartDecoder false t in
  let t := pushMessage MsgStartEncoder false t in
  match transcodeLoop sched t with
  | Exited t => Some (finishTranscodeLoop t)
  | Waiting _ => None
  end.

(** [abortTranscodeLoop] *)
Definition abortTranscodeLoop (t : Transcoder) : Transcoder :=
  pushMessage MsgAbort true t.

(** [getOutputFormat] *)
Definition getOutputFormat (t : Transcoder) : option (gmap string FormatValue) :=
  mActualOutputFormat t.

(** The entry the claim words promise for a key of the published format. *)
Definition validDimensions (sourceFormat : gmap string FormatValue)
    (widthKey heightKey : string) : option (Z * Z) :=
  match AMediaFormat_getInt32 sourceFormat widthKey,
        AMediaFormat_getInt32 sourceFormat heightKey with
  | Some w, Some h => if bool_decide (0 < w ∧ 0 < h) then Some (w, h) else None
  | _, _ => None
  end.

Definition overlaidEntry (sourceFormat outputFormat : gmap string FormatValue)
    (name : string) : option FormatValue :=
  if decide (name = AMEDIAFORMAT_KEY_SAR_WIDTH) then
    match validDimensions sourceFormat
            AMEDIAFORMAT_KEY_SAR_WIDTH AMEDIAFORMAT_KEY_SAR_HEIGHT with
    | Some (w, _) => Some (VInt32 w) | None => outputFormat !! name end
  else if decide (name = AMEDIAFORMAT_KEY_SAR_HEIGHT) then
    match validDimensions sourceFormat
            AMEDIAFORMAT_KEY_SAR_WIDTH AMEDIAFORMAT_KEY_SAR_HEIGHT with
    | Some (_, h) => Some (VInt32 h) | None => outputFormat !! name end
  else if decide (name = AMEDIAFORMAT_KEY_DISPLAY_WIDTH) then
    match validDimensions sourceFormat
            AMEDIAFORMAT_KEY_DISPLAY_WIDTH AMEDIAFORMAT_KEY_DISPLAY_HEIGHT with
    | Some (w, _) => Some (VInt32 w) | None => outputFormat !! name end
  else if decide (name = AMEDIAFORMAT_KEY_DISPLAY_HEIGHT) then
    match validDimensions sourceFormat
            AMEDIAFORMAT_KEY_DISPLAY_WIDTH AMEDIAFORMAT_KEY_DISPLAY_HEIGHT with
    | Some (_, h) => Some (VInt32 h) | None => outputFormat !! name end
  else if decide (name = AMEDIAFORMAT_KEY_ROTATION) then
    match AMediaFormat_getInt32 sourceFormat AMEDIAFORMAT_KEY_ROTATION with
    | Some r => if decide (r ≠ 0) then Some (VInt32 r) else outputFormat !! name
    | None => outputFormat !! name end
  else if decide (name = AMEDIAFORMAT_KEY_DURATION) then
    match AMediaFormat_getInt64 sourceFormat AMEDIAFORMAT_KEY_DURATION with
    | Some d => if decide (0 < d) then Some (VInt64 d) else outputFormat !! name
    | None => outputFormat !! name end
  else outputFormat !! name.

(** The four blocks of [updateTrackFormat], one at a time. *)
Definition transferDimensions (sourceFormat : gmap string FormatValue)
    (widthKey heightKey : string) (formatCopy : gmap string FormatValue)
    : gmap string FormatValue :=
  match AMediaFormat_getInt32 sourceFormat widthKey with
  | Some w =>
      if decide (0 < w) then
        match AMediaFormat_getInt32 sourceFormat heightKey with
        | Some h =>
            if decide (0 < h) then
              AMediaFormat_setInt32 (AMediaFormat_setInt32 formatCopy widthKey w)
                heightKey h
            else formatCopy
        | None => formatCopy
        end
      else formatCopy
  | None => formatCopy
  end.

Definition transferRotation (sourceFormat formatCopy : gmap string FormatValue)
    : gmap string FormatValue :=
  match AMediaFormat_getInt32 sourceFormat AMEDIAFORMAT_KEY_ROTATION with
  | Some rotation =>
      if decide (rotation ≠ 0)
      then AMediaFormat_setInt32 formatCopy AMEDIAFORMAT_KEY_ROTATION rotation
      else formatCopy
  | None => formatCopy
  end.

Definition transferDuration (sourceFormat formatCopy : gmap string FormatValue)
    : gmap string FormatValue :=
  match AMediaFormat_getInt64 sourceFormat AMEDIAFORMAT_KEY_DURATION with
  | Some durationUs =>
      if decide (0 < durationUs)
      then AMediaFormat_setInt64 formatCopy AMEDIAFORMAT_KEY_DURATION durationUs
      else formatCopy
  | None => formatCopy
  end.

Definition resultState (r : LoopResult) : Transcoder :=
  match r with Exited t => t | Waiting t => t end.

Definition isFormatNotification (c : Call) : bool :=
  match c with TrackFormatAvailable => true | _ => false end.

Definition isSampleDelivery (c : Call) : bool :=
  match c with OutputSampleAvailable _ => true | _ => false end.

(** How often the sink was told of a track format. *)
Definition formatNotifications (t : Transcoder) : list Call :=
  List.filter isFormatNotification (mCalls t).

(** The samples handed to the sink. *)
Definition samplesDelivered (t : Transcoder) : list Call :=
  List.filter isSampleDelivery (mCalls t).

Definition formatTick (fe : gmap string FormatValue * CodecEnv) : Tick :=
  mkTick [OnAsyncFormatChanged Encoder fe.1] fe.2.

(** An arrival that queues behind the pending messages. *)
Definition queuesBehind (a : Arrival) : bool :=
  match a with
  | OnAsyncError _ _ _ | AbortTranscodeLoop => false
  | _ => true
  end.

(** A transcoder before its run, and a run on one sample to the end of the
    stream. *)
Definition sourceFormat0 : gmap string FormatValue :=
  {[ "mime" := VString "video/avc"; "sar-width" := VInt32 4;
     "sar-height" := VInt32 3; "rotation-degrees" := VInt32 90;
     "durationUs" := VInt64 1000000; "display-width" := VInt32 0 ]}.
Definition encoderFormat0 : gmap string FormatValue :=
  {[ "mime" := VString "video/hevc"; "rotation-degrees" := VInt32 0;
     "csd-0" := VOther 1 ]}.
Definition transcoder0 : Transcoder :=
  mkTranscoder (mkQueue [] false) AMEDIA_OK false false false
    (mkSampleInfo 0 0 0) sourceFormat0 None false [].
Definition envOk : CodecEnv :=
  mkCodecEnv AMEDIA_OK AMEDIA_OK (mkSampleInfo 10 0 0) (Some 100)
    AMEDIA_OK AMEDIA_OK AMEDIA_OK true.
Definition envEos : CodecEnv :=
  mkCodecEnv AMEDIA_OK AMEDIA_ERROR_END_OF_STREAM (mkSampleInfo 0 0 4) (Some 100)
    AMEDIA_OK AMEDIA_OK AMEDIA_OK true.
Definition cleanRun : list Tick :=
  [ mkTick [] envOk; mkTick [] envOk;
    mkTick [OnAsyncInputAvailable Decoder 0] envOk;
    mkTick [OnAsyncInputAvailable Decoder 1] envEos;
    mkTick [OnAsyncOutputAvailable Decoder 0 (mkBufferInfo 0 10 0 0)] envOk;
    mkTick [OnAsyncOutputAvailable Decoder 1 (mkBufferInfo 0 0 0 4)] envOk;
    mkTick [OnAsyncFormatChanged Encoder encoderFormat0] envOk;
    mkTick [OnAsyncOutputAvailable Encoder 0 (mkBufferInfo 0 5 0 0)] envOk;
    mkTick [OnAsyncOutputAvailable Encoder 1 (mkBufferInfo 0 0 0 4)] envOk ].
Definition cleanEnd : Transcoder :=
  match runTranscodeLoop cleanRun transcoder0 with
  | Some (_, t) => t
  | None => transcoder0
  end.

(** The transcoder in the middle of its run, with two messages pending. *)
Definition runningTranscoder : Transcoder :=
  mkTranscoder
    (mkQueue [MsgEnqueueInputSample 2;
              MsgOutputAvailable Encoder 0 (mkBufferInfo 0 5 0 0)] false)
    AMEDIA_OK false false false (mkSampleInfo 10 0 0) sourceFormat0
    (Some encoderFormat0) true [CodecStart Decoder; CodecStart Encoder].

(** A sequence of [push] calls on the queue, each with its [front] flag. *)
Definition pushAll (l : list (Message * bool)) (q : BlockingQueue) : BlockingQueue :=
  foldl (λ q p, push p.1 p.2 q) q l.

(** The values pushed to the front, and those pushed to the back. *)
Definition pushedFront (l : list (Message * bool)) : list Message :=
  (filter (λ p, p.2 = true) l).*1.
Definition pushedBack (l : list (Message * bool)) : list Message :=
  (filter (λ p, p.2 = false) l).*1.

(** The message a callback pushes, with its [front] flag: what [arrive]
    does, read as a push. *)
Definition arrivalPush (a : Arrival) : list (Message * bool) :=
  match a with
  | OnAsyncInputAvailable codec index =>
      if decide (codec = Decoder) then [(MsgEnqueueInputSample index, false)] else []
  | OnAsyncOutputAvailable codec index bufferInfo =>
      [(MsgOutputAvailable codec index bufferInfo, false)]
  | OnAsyncFormatChanged codec format =>
      if decide (codec = Encoder) then [(MsgUpdateTrackFormat format, false)] else []
  | OnAsyncError codec error actionCode => [(MsgError error, true)]
  | AbortTranscodeLoop => [(MsgAbort, true)]
  end.

Definition isStartMessage (m : Message) : bool :=
  match m with MsgStartDecoder | MsgStartEncoder => true | _ => false end.

(** The messages that request the stop. *)
Definition isStopMessage (m : Message) : bool :=
  match m with MsgError _ | MsgAbort => true | _ => false end.

Definition isCodecStartOrStop (c : Call) : bool :=
  match c with CodecStart _ | CodecStop _ => true | _ => false end.

(** The calls that feed the decoder from the sample reader. *)
Definition isInputCall (c : Call) : bool :=
  match c with
  | GetSampleInfoForTrack | ReadSampleDataForTrack _ | QueueInputBuffer _ _ _ _ => true
  | _ => false
  end.

(** An encoder output buffer flagged end-of-stream, as event and as
    message. *)
Definition isEncoderEos (m : Message) : bool :=
  match m with
  | MsgOutputAvailable Encoder _ bufferInfo => hasEosFlag (bi_flags bufferInfo)
  | _ => false
  end.
Definition isEncoderEosArrival (a : Arrival) : bool :=
  match a with
  | OnAsyncOutputAvailable Encoder _ bufferInfo => hasEosFlag (bi_flags bufferInfo)
  | _ => false
  end.

(** The six keys [updateTrackFormat] may take from the source format. *)
Definition transferredKeys : list string :=
  [AMEDIAFORMAT_KEY_SAR_WIDTH; AMEDIAFORMAT_KEY_SAR_HEIGHT;
   AMEDIAFORMAT_KEY_DISPLAY_WIDTH; AMEDIAFORMAT_KEY_DISPLAY_HEIGHT;
   AMEDIAFORMAT_KEY_ROTATION; AMEDIAFORMAT_KEY_DURATION].

(** The two messages [runTranscodeLoop] pushes before it enters the loop. *)
Definition startMessage (c : Codec) : Message :=
  match c with Decoder => MsgStartDecoder | Encoder => MsgStartEncoder end.

(** Codecs whose output format cannot be copied, and two transcoders in the
    middle of a run: one with a format change pending before any format was
    published, one with the encoder's last output pending. *)
Definition envNoCopy : CodecEnv :=
  mkCodecEnv AMEDIA_OK AMEDIA_OK (mkSampleInfo 10 0 0) (Some 100)
    AMEDIA_OK AMEDIA_OK AMEDIA_OK false.
Definition formatPending : Transcoder :=
  mkTranscoder (mkQueue [MsgUpdateTrackFormat encoderFormat0] false)
    AMEDIA_OK false false false (mkSampleInfo 10 0 0) sourceFormat0
    None true [CodecStart Decoder; CodecStart Encoder].
Definition lastOutputPending : Transcoder :=
  mkTranscoder
    (mkQueue [MsgOutputAvailable Encoder 1 (mkBufferInfo 0 0 0 4)] false)
    AMEDIA_OK false true false (mkSampleInfo 0 0 4) sourceFormat0
    (Some encoderFormat0) true [CodecStart Decoder; CodecStart Encoder].

(** The clean run cut before its last turn, the transcoder it leaves
    waiting for the encoder's last output, and codecs that fail to start. *)
Definition pendingRun : list Tick := take 8 cleanRun.
Definition beforeLastOutput : Transcoder :=
  resultState
    (transcodeLoop pendingRun
       (pushMessage MsgStartEncoder false
          (pushMessage MsgStartDecoder false transcoder0))).
Definition envStartFails : CodecEnv :=
  mkCodecEnv (-10002) AMEDIA_OK (mkSampleInfo 0 0 0) None
    AMEDIA_OK AMEDIA_OK AMEDIA_OK true.

End Pipeline.

(** ** Properties of the session controller *)

Module SchedulerFacts.
Import Scheduler.

Lemma OFFLINE_UID_eq : OFFLINE_UID = 4294967295.
Proof. reflexivity. Qed.

Lemma eraseFirst_elem_of k q x :
  NoDup q → x ∈ eraseFirst k q ↔ x ≠ k ∧ x ∈ q.
Proof.
  induction q as [|y q IH]; intros Hnd; simpl.
  - set_solver.
  - apply NoDup_cons in Hnd as [Hy Hnd].
    destruct (decide (y = k)) as [->|Hne].
    + split; [intros Hx; split; [intros ->; done | by right]|].
      intros [Hxk [?|?]%elem_of_cons]; done.
    + rewrite !elem_of_cons, IH by done. naive_solver.
Qed.

Lemma eraseFirst_NoDup k q : NoDup q → NoDup (eraseFirst k q).
Proof.
  induction q as [|y q IH]; intros Hnd; simpl; [done|].
  pose proof Hnd as Hnd'.
  apply NoDup_cons in Hnd as [Hy Hnd].
  destruct (decide (y = k)); [done|].
  apply NoDup_cons; split; [|auto].
  rewrite eraseFirst_elem_of by done. tauto.
Qed.

Lemma insertBeforeOffline_perm u l : insertBeforeOffline u l ≡ₚ u :: l.
Proof.
  induction l as [|x l IH]; simpl; [done|].
  destruct (decide (x = OFFLINE_UID)); [done|].
  rewrite IH. apply Permutation_swap.
Qed.

Lemma insertBeforeOffline_last u l :
  last l = Some OFFLINE_UID → last (insertBeforeOffline u l) = Some OFFLINE_UID.
Proof.
  induction l as [|x l IH]; simpl; [done|].
  intros Hl. destruct (decide (x = OFFLINE_UID)).
  - rewrite last_cons. by rewrite Hl.
  - rewrite last_cons in Hl. rewrite last_cons.
    destruct (last l) eqn:E; [|congruence].
    by rewrite IH.
Qed.

Lemma last_filter_ne (u : Z) (l : list Z) o :
  last l = Some o → o ≠ u → last (filter (λ x, x ≠ u) l) = Some o.
Proof.
  intros Hl Hne. destruct (last_Some l o) as [[l' ->] _]; [done|].
  rewrite filter_app. rewrite filter_cons_True by done. rewrite filter_nil.
  apply last_snoc.
Qed.

Lemma moveUidsLoop_perm uids cur pres rest :
  ∀ front kept push n,
    NoDup rest → (push = true → cur ∉ rest) →
    let r := moveUidsLoop uids cur pres front kept push n rest in
    (if r.2 then cur :: r.1 else r.1)
      ≡ₚ (if push then [cur] else []) ++ front ++ kept ++ rest.
Proof.
  induction rest as [|u rest IH]; intros front kept push n Hnd Hpush; simpl.
  - rewrite app_nil_r. by destruct push.
  - apply NoDup_cons in Hnd as [Hu Hnd].
    destruct (decide (u ≠ OFFLINE_UID ∧ u ∈ uids)) as [Hmv|Hmv].
    + destruct (decide (u = cur ∧ pres = true)) as [[-> _]|Hc].
      * assert (push = false) as ->.
        { destruct push; [|done]. exfalso. apply Hpush; [done|]. by left. }
        destruct (decide (S n = size uids)).
        -- simpl. by rewrite <-!Permutation_middle.
        -- specialize (IH front kept true (S n) Hnd (λ _, Hu)). simpl in IH.
           rewrite IH. simpl.
           by rewrite <-!Permutation_middle.
      * destruct (decide (S n = size uids)).
        -- simpl. destruct push; simpl; by rewrite <-!Permutation_middle.
        -- assert (push = true → cur ∉ rest) as Hp'.
           { intros Hp Hin. apply (Hpush Hp). by right. }
           specialize (IH (u :: front) kept push (S n) Hnd Hp'). simpl in IH.
           rewrite IH. destruct push; simpl; by rewrite <-!Permutation_middle.
    + assert (push = true → cur ∉ rest) as Hp'.
      { intros Hp Hin. apply (Hpush Hp). by right. }
      specialize (IH front (kept ++ [u]) push n Hnd Hp'). simpl in IH.
      rewrite IH. by rewrite <-!app_assoc.
Qed.

Lemma moveUidsLoop_last uids cur pres rest :
  ∀ front kept push n,
    last (kept ++ rest) = Some OFFLINE_UID →
    last (moveUidsLoop uids cur pres front kept push n rest).1 = Some OFFLINE_UID.
Proof.
  induction rest as [|u rest IH]; intros front kept push n Hl; simpl.
  - rewrite app_nil_r in Hl. rewrite last_app, Hl. done.
  - destruct (decide (u ≠ OFFLINE_UID ∧ u ∈ uids)) as [[Hne _]|Hmv].
    + assert (last (kept ++ rest) = Some OFFLINE_UID) as Hl'.
      { rewrite last_app in Hl. rewrite last_cons in Hl. rewrite last_app.
        destruct (last rest); [done|]. congruence. }
      destruct (decide (u = cur ∧ pres = true));
        destruct (decide (S n = size uids)); simpl;
        first [ by apply IH | by rewrite last_app, Hl' | by rewrite last_cons, last_app, Hl' ].
    + apply IH. by rewrite <-app_assoc.
Qed.

Lemma wf_offline_listed st : wf st → OFFLINE_UID ∈ mUidSortedList st.
Proof. intros H. apply last_Some_elem_of, H. Qed.

Lemma wf_head_offline st l :
  wf st → mUidSortedList st = OFFLINE_UID :: l → l = [].
Proof.
  intros H E. pose proof (wf_nodup _ H) as Hnd. pose proof (wf_last _ H) as Hl.
  rewrite E in Hnd, Hl. apply NoDup_cons in Hnd as [Hn _].
  destruct l as [|x l]; [done|]. exfalso. apply Hn.
  rewrite last_cons_cons in Hl. by apply last_Some_elem_of.
Qed.

Lemma queueOf_nonempty_listed st u :
  wf st → queueOf u st ≠ [] → u ∈ mUidSortedList st.
Proof.
  intros H Hq. apply (wf_dom _ H). unfold queueOf in Hq.
  destruct (mSessionQueues st !! u); [eauto|done].
Qed.

Lemma wf_session_queued st k s :
  wf st → mSessionMap st !! k = Some s → k ∈ queueOf (uid s) st.
Proof. intros H Hk. apply (wf_queue _ H). eauto. Qed.

Lemma wf_session_listed st k s :
  wf st → mSessionMap st !! k = Some s → uid s ∈ mUidSortedList st.
Proof.
  intros H Hk. apply queueOf_nonempty_listed; [done|].
  intros E. pose proof (wf_session_queued _ _ _ H Hk) as Hin.
  rewrite E in Hin. by apply elem_of_nil in Hin.
Qed.

Lemma touchQueue_listed st u : wf st → u ∈ mUidSortedList st → touchQueue u st = st.
Proof.
  intros H Hu. apply (wf_dom _ H) in Hu as [q Hq]. unfold touchQueue. by rewrite Hq.
Qed.

Lemma touchSession_registered st k s :
  mSessionMap st !! k = Some s → touchSession k st = st.
Proof. intros Hk. unfold touchSession. by rewrite Hk. Qed.

Lemma sessionOf_Some st k s : mSessionMap st !! k = Some s → sessionOf k st = s.
Proof. intros Hk. unfold sessionOf. by rewrite Hk. Qed.

(** The first uid's queue is not empty while sessions are registered. *)
Lemma wf_top_queue st :
  wf st → mSessionMap st ≠ ∅ →
  ∃ u l k q, mUidSortedList st = u :: l ∧ mSessionQueues st !! u = Some (k :: q)
             ∧ is_Some (mSessionMap st !! k).
Proof.
  intros H Hne.
  destruct (mUidSortedList st) as [|u l] eqn:El.
  { pose proof (wf_last _ H) as Hl. by rewrite El in Hl. }
  assert (queueOf u st ≠ []) as Hq.
  { destruct (decide (u = OFFLINE_UID)) as [->|Hu].
    - pose proof (wf_head_offline _ _ H El) as ->.
      apply map_choose in Hne as (k & s & Hk).
      pose proof (wf_session_listed _ _ _ H Hk) as Hin.
      rewrite El in Hin. apply list_elem_of_singleton in Hin.
      pose proof (wf_session_queued _ _ _ H Hk) as Hk'. rewrite Hin in Hk'.
      intros E. rewrite E in Hk'. by apply elem_of_nil in Hk'.
    - apply (wf_nonempty _ H); [|done]. rewrite El. by left. }
  unfold queueOf in Hq.
  destruct (mSessionQueues st !! u) as [[|k q]|] eqn:Eq; try done.
  exists u, l, k, q. split_and!; try done.
  destruct (wf_queue _ H k u) as [Hx _].
  destruct Hx as (s & Hs & _); [|eauto].
  unfold queueOf. rewrite Eq. by left.
Qed.

Lemma wf_top_empty st : wf st → mSessionMap st = ∅ → topSession st = None.
Proof.
  intros H He. unfold topSession.
  destruct (mUidSortedList st) as [|u l]; [done|].
  destruct (queueOf u st) as [|k q] eqn:Eq; [done|].
  destruct (wf_queue _ H k u) as [Hx _].
  destruct Hx as (s & Hs & _); [rewrite Eq; by left|].
  rewrite He in Hs. by rewrite lookup_empty in Hs.
Qed.

Lemma getTopSession_l_wf st :
  wf st → getTopSession_l st = Some (topSession st, st).
Proof.
  intros H. unfold getTopSession_l.
  destruct (decide (mSessionMap st = ∅)) as [He|Hne].
  - by rewrite wf_top_empty.
  - destruct (wf_top_queue _ H Hne) as (u & l & k & q & El & Eq & [s Hs]).
    unfold topSession. rewrite El.
    rewrite touchQueue_listed; [|done|rewrite El; by left].
    unfold queueOf. rewrite Eq. simpl.
    by erewrite touchSession_registered.
Qed.

Lemma wf_top_registered st k :
  wf st → topSession st = Some k → is_Some (mSessionMap st !! k).
Proof.
  intros H Ht. unfold topSession in Ht.
  destruct (mUidSortedList st) as [|u l]; [done|].
  apply head_Some_elem_of in Ht.
  apply (wf_queue _ H) in Ht as (s & Hs & _). eauto.
Qed.

(** Changes that keep the registry's shape. *)
Lemma wf_emit e st : wf st → wf (emit e st).
Proof. intros []. by constructor. Qed.

Lemma topSession_emit e st : topSession (emit e st) = topSession st.
Proof. done. Qed.

Lemma wf_setState_not_running k v st :
  wf st → v ≠ RUNNING → wf (updateSession k (setState v) st).
Proof.
  intros [] Hv. constructor; try done.
  - intros k' u. etrans; [apply wf_queue0|]. unfold updateSession; simpl.
    split.
    + intros (s & Hs & Hu). destruct (decide (k = k')) as [->|Hne].
      * exists (setState v s). by rewrite lookup_alter_eq, Hs.
      * exists s. by rewrite lookup_alter_ne.
    + intros (s & Hs & Hu). destruct (decide (k = k')) as [->|Hne].
      * rewrite lookup_alter_eq in Hs.
        destruct (mSessionMap st !! k') as [s0|]; [|done].
        injection Hs as <-. eauto.
      * rewrite lookup_alter_ne in Hs by done. eauto.
  - intros k' s Hs. unfold updateSession in Hs; simpl in Hs.
    destruct (decide (k = k')) as [->|Hne].
    + rewrite lookup_alter_eq in Hs.
      destruct (mSessionMap st !! k') as [s0|] eqn:E; [|done].
      injection Hs as <-. simpl. eauto.
    + rewrite lookup_alter_ne in Hs by done. eauto.
  - intros k' s Hs Hr. unfold updateSession in Hs; simpl in Hs.
    destruct (decide (k = k')) as [->|Hne].
    + rewrite lookup_alter_eq in Hs.
      destruct (mSessionMap st !! k') as [s0|] eqn:E; [|done].
      injection Hs as <-. simpl in Hr. done.
    + rewrite lookup_alter_ne in Hs by done. eauto.
  - intros k' Hc. unfold updateSession; simpl. rewrite lookup_alter_is_Some. eauto.
Qed.

Lemma setState_state s : setState (state s) s = s.
Proof. by destruct s. Qed.

Lemma sameButState_refl m : sameButState m m.
Proof. intros k. destruct (m !! k); [|done]. by rewrite setState_state. Qed.

Lemma sameButState_alter m m' k v :
  sameButState m m' → sameButState m (alter (setState v) k m').
Proof.
  intros H k'. specialize (H k').
  destruct (decide (k = k')) as [->|Hne].
  - rewrite lookup_alter_eq.
    destruct (m !! k') as [s|], (m' !! k') as [s'|]; simpl; try done.
    rewrite H. done.
  - by rewrite lookup_alter_ne.
Qed.

Lemma sameButState_Some m m' k s' :
  sameButState m m' → m' !! k = Some s' →
  ∃ s, m !! k = Some s ∧ s' = setState (state s') s.
Proof.
  intros H Hk. specialize (H k). rewrite Hk in H.
  destruct (m !! k) as [s|]; [eauto|done].
Qed.

Lemma sameButState_Some_l m m' k s :
  sameButState m m' → m !! k = Some s →
  ∃ s', m' !! k = Some s' ∧ s' = setState (state s') s.
Proof.
  intros H Hk. specialize (H k). rewrite Hk in H.
  destruct (m' !! k) as [s'|]; [eauto|done].
Qed.

Lemma sameButState_is_Some m m' k :
  sameButState m m' → is_Some (m' !! k) ↔ is_Some (m !! k).
Proof.
  intros H. specialize (H k).
  destruct (m !! k), (m' !! k); try done; split; intros [? ?]; eauto; done.
Qed.

Lemma wf_restate st m' cur' lost' eff' :
  wf st → sameButState (mSessionMap st) m' →
  (∀ k s', m' !! k = Some s' → state s' = RUNNING → cur' = Some k ∧ lost' = false) →
  (∀ k, cur' = Some k → is_Some (mSessionMap st !! k)) →
  wf (mkController m' (mUidSortedList st) (mSessionQueues st) cur' lost' eff').
Proof.
  intros [] Hsame Hrun Hcur. constructor; try done.
  - intros k u. etrans; [apply wf_queue0|]. simpl. split.
    + intros (s & Hs & Hu).
      destruct (sameButState_Some_l _ _ _ _ Hsame Hs) as (s' & Hs' & E).
      exists s'. split; [done|]. by rewrite E.
    + intros (s' & Hs' & Hu).
      destruct (sameButState_Some _ _ _ _ Hsame Hs') as (s & Hs & E).
      exists s. split; [done|]. by rewrite E in Hu.
  - simpl. intros k s' Hs'.
    destruct (sameButState_Some _ _ _ _ Hsame Hs') as (s & Hs & E).
    rewrite E. simpl. eauto.
  - simpl. intros k Hc. apply (sameButState_is_Some _ _ _ Hsame). eauto.
Qed.

Lemma wf_no_running_when_lost st k s :
  wf st → mResourceLost st = true → mSessionMap st !! k = Some s → state s ≠ RUNNING.
Proof.
  intros H Hl Hk Hr. destruct (wf_running _ H _ _ Hk Hr) as [_ Hf]. congruence.
Qed.

Lemma topSession_ext st st' :
  mUidSortedList st' = mUidSortedList st →
  mSessionQueues st' = mSessionQueues st →
  topSession st' = topSession st.
Proof. intros E1 E2. unfold topSession, queueOf. by rewrite E1, E2. Qed.

Lemma startOrResume_fields env t st :
  mSessionMap (startOrResume env t st) = mSessionMap st
  ∧ mUidSortedList (startOrResume env t st) = mUidSortedList st
  ∧ mSessionQueues (startOrResume env t st) = mSessionQueues st
  ∧ mCurrentSession (startOrResume env t st) = mCurrentSession st
  ∧ mResourceLost (startOrResume env t st) = mResourceLost st.
Proof. unfold startOrResume. by destruct (state t). Qed.

(** [updateCurrentSession_l] on a well-formed state. *)
Lemma updateCurrentSession_l_wf env st :
  wf st →
  ∃ st', updateCurrentSession_l env st = Some st' ∧ Inv st'
    ∧ mUidSortedList st' = mUidSortedList st
    ∧ mSessionQueues st' = mSessionQueues st
    ∧ mResourceLost st' = mResourceLost st
    ∧ sameButState (mSessionMap st) (mSessionMap st')
    ∧ ∃ es, mEffects st' = mEffects st ++ es.
Proof.
  intros H. unfold updateCurrentSession_l.
  rewrite (getTopSession_l_wf _ H). simpl.
  destruct (topSession st) as [top|] eqn:Etop.
  2:{ eexists. split; [done|]. split_and!; try done.
      - split; [|by rewrite <-Etop].
        destruct st; apply (wf_restate _ _ _ _ _ H); try done.
        + apply sameButState_refl.
        + intros k s' Hs' Hr. destruct (wf_running _ H _ _ Hs' Hr) as [Hc Hl].
          unfold getTopSession_l in *. simpl in *.
          assert (mSessionMap0 = ∅) as ->.
          { destruct (decide (mSessionMap0 = ∅)) as [|Hne]; [done|].
            destruct (wf_top_queue _ H Hne) as (u & l & k' & q & El & Eq & _).
            unfold topSession, queueOf in Etop. simpl in *.
            rewrite El, Eq in Etop. done. }
          by rewrite lookup_empty in Hs'.
      - apply sameButState_refl.
      - exists []. by rewrite app_nil_r. }
  destruct (wf_top_registered _ _ H Etop) as [ts Hts].
  rewrite (sessionOf_Some _ _ _ Hts).
  destruct (decide (Some top ≠ mCurrentSession st ∨ state ts ≠ RUNNING)) as [Hgo|Hno].
  2:{ assert (mCurrentSession st = Some top) as Hc.
      { destruct (decide (Some top = mCurrentSession st)); [done|]. exfalso. apply Hno. by left. }
      eexists. split; [done|].
      assert (withCurrentSession (Some top) st = st) as ->.
      { destruct st. unfold withCurrentSession. simpl in *. by rewrite Hc. }
      split_and!; try done.
      - split; [done|]. congruence.
      - apply sameButState_refl.
      - exists []. by rewrite app_nil_r. }
  (* the current session, if it runs, is paused first *)
  assert (∃ st1, match mCurrentSession st with
           | None => Some st
           | Some cur =>
               c ← mSessionMap st !! cur;
               if decide (state c = RUNNING)
               then Some (updateSession cur (setState PAUSED)
                            (emit (TranscoderPause (key c).1 (key c).2) st))
               else Some st
           end = Some st1
           ∧ wf st1
           ∧ mUidSortedList st1 = mUidSortedList st
           ∧ mSessionQueues st1 = mSessionQueues st
           ∧ mResourceLost st1 = mResourceLost st
           ∧ sameButState (mSessionMap st) (mSessionMap st1)
           ∧ (∃ es, mEffects st1 = mEffects st ++ es)
           ∧ (∀ k s, mSessionMap st1 !! k = Some s → state s ≠ RUNNING)) as Hst1.
  { destruct (mCurrentSession st) as [cur|] eqn:Ecur.
    - destruct (wf_cur _ H _ Ecur) as [c Hc]. rewrite Hc. simpl.
      destruct (decide (state c = RUNNING)) as [Hr|Hr].
      + eexists. split; [done|]. split_and!; try done.
        * apply wf_setState_not_running; [|done]. by apply wf_emit.
        * apply sameButState_alter, sameButState_refl.
        * by eexists.
        * intros k s Hs Hrun. unfold updateSession in Hs; simpl in Hs.
          destruct (decide (cur = k)) as [->|Hne].
          -- rewrite lookup_alter_eq, Hc in Hs. by injection Hs as <-.
          -- rewrite lookup_alter_ne in Hs by done.
             destruct (wf_running _ H _ _ Hs Hrun) as [E _]. congruence.
      + eexists. split; [done|]. split_and!; try done.
        * apply sameButState_refl.
        * exists []. by rewrite app_nil_r.
        * intros k s Hs Hrun.
          destruct (wf_running _ H _ _ Hs Hrun) as [E _]. congruence.
    - eexists. split; [done|]. split_and!; try done.
      + apply sameButState_refl.
      + exists []. by rewrite app_nil_r.
      + intros k s Hs Hrun.
        destruct (wf_running _ H _ _ Hs Hrun) as [E _]. congruence. }
  destruct Hst1 as (st1 & -> & Hwf1 & El1 & Eq1 & Elost1 & Hsame1 & [es1 Hes1] & Hnr1).
  simpl. eexists. split; [done|].
  assert (topSession st1 = Some top) as Etop1.
  { unfold topSession, queueOf. rewrite El1, Eq1. done. }
  destruct (mResourceLost st1) eqn:Elost.
  - split_and!; try done; try (simpl; congruence).
    + split; [|by rewrite <-Etop1].
      apply (wf_restate _ _ _ _ _ Hwf1); try done.
      * apply sameButState_refl.
      * intros k s Hs Hr. by destruct (Hnr1 _ _ Hs).
      * intros k [= <-]. apply (wf_top_registered _ _ Hwf1 Etop1).
    + by eexists.
  - destruct (startOrResume_fields env (sessionOf top st1) st1)
      as (Fm & Fl & Fq & Fc & Fr).
    split_and!; simpl; rewrite ?Fm, ?Fl, ?Fq, ?Fr; try done.
    + split.
      * unfold updateSession, withCurrentSession, withSessionMap. simpl.
        rewrite Fm, Fl, Fq, Fr.
        apply (wf_restate _ _ _ _ _ Hwf1).
        -- apply sameButState_alter, sameButState_refl.
        -- intros k s Hs Hr.
           destruct (decide (top = k)) as [->|Hne]; [by rewrite Elost|].
           rewrite lookup_alter_ne in Hs by done. by destruct (Hnr1 _ _ Hs).
        -- intros k [= <-]. apply (wf_top_registered _ _ Hwf1 Etop1).
      * simpl. rewrite <-Etop1. symmetry. by apply topSession_ext.
    + congruence.
    + intros k. specialize (Hsame1 k).
      destruct (decide (top = k)) as [->|Hne].
      * rewrite lookup_alter_eq.
        destruct (mSessionMap st !! k) as [s|], (mSessionMap st1 !! k) as [s'|]; simpl; try done.
        by rewrite Hsame1.
      * by rewrite lookup_alter_ne.
    + unfold startOrResume.
      destruct (state (sessionOf top st1)); simpl; rewrite ?Hes1, <-?app_assoc;
        by eexists.
Qed.

Lemma withUidSortedList_id st : withUidSortedList (mUidSortedList st) st = st.
Proof. by destruct st. Qed.

Lemma moveUidsToTop_l_list uids b st :
  NoDup (mUidSortedList st) → last (mUidSortedList st) = Some OFFLINE_UID →
  ∃ l', moveUidsToTop_l uids b st = Some (withUidSortedList l' st)
        ∧ l' ≡ₚ mUidSortedList st ∧ last l' = Some OFFLINE_UID.
Proof.
  intros Hnd Hl. unfold moveUidsToTop_l.
  destruct (decide (size uids = 0%nat)).
  { exists (mUidSortedList st). by rewrite withUidSortedList_id. }
  destruct (mUidSortedList st) as [|cur l] eqn:El; [done|].
  pose proof (moveUidsLoop_perm uids cur b (cur :: l) [] [] false 0 Hnd) as Hp.
  pose proof (moveUidsLoop_last uids cur b (cur :: l) [] [] false 0 Hl) as Hlast.
  destruct (moveUidsLoop uids cur b [] [] false 0 (cur :: l)) as [l' push].
  simpl in Hp, Hlast. eexists. split; [done|]. split.
  - apply Hp. done.
  - destruct push; [|done]. rewrite last_cons, Hlast. done.
Qed.

Lemma wf_relist st l' :
  wf st → l' ≡ₚ mUidSortedList st → last l' = Some OFFLINE_UID →
  wf (withUidSortedList l' st).
Proof.
  intros [] Hp Hl. constructor; try done.
  - simpl. by rewrite Hp.
  - intros u. simpl. rewrite Hp. apply wf_dom0.
  - intros u Hu. simpl in Hu. rewrite Hp in Hu. by apply wf_nonempty0.
Qed.

Lemma wf_remove st k0 s0 l2 q2 eff :
  wf st → mSessionMap st !! k0 = Some s0 →
  NoDup l2 → last l2 = Some OFFLINE_UID →
  (∀ u, u ∈ l2 ↔ is_Some (q2 !! u)) →
  (∀ u, default [] (q2 !! u)
        = if decide (u = uid s0) then eraseFirst k0 (queueOf (uid s0) st)
          else queueOf u st) →
  (∀ u, u ∈ l2 → u ≠ OFFLINE_UID → default [] (q2 !! u) ≠ []) →
  wf (mkController (delete k0 (mSessionMap st)) l2 q2
        (if decide (mCurrentSession st = Some k0) then None else mCurrentSession st)
        (mResourceLost st) eff).
Proof.
  intros H Hk0 Hnd Hl Hdom Hq Hne. constructor; try done.
  - intros u. unfold queueOf; simpl. rewrite Hq.
    destruct (decide (u = uid s0)); [|apply H].
    apply eraseFirst_NoDup, H.
  - intros k u. unfold queueOf; simpl. rewrite Hq.
    destruct (decide (u = uid s0)) as [->|Hu].
    + rewrite eraseFirst_elem_of by apply H. rewrite (wf_queue _ H).
      split.
      * intros (Hkne & s & Hs & Hus). exists s. by rewrite lookup_delete_ne.
      * intros (s & Hs & Hus).
        destruct (decide (k0 = k)) as [->|Hkne]; [by rewrite lookup_delete_eq in Hs|].
        rewrite lookup_delete_ne in Hs by done. split; [congruence|eauto].
    + rewrite (wf_queue _ H). split.
      * intros (s & Hs & Hus). exists s. split; [|done].
        rewrite lookup_delete_ne; [done|]. intros ->. congruence.
      * intros (s & Hs & Hus).
        destruct (decide (k0 = k)) as [->|Hkne]; [by rewrite lookup_delete_eq in Hs|].
        rewrite lookup_delete_ne in Hs by done. eauto.
  - simpl. intros k s Hs.
    destruct (decide (k0 = k)) as [->|Hkne]; [by rewrite lookup_delete_eq in Hs|].
    rewrite lookup_delete_ne in Hs by done. by apply H.
  - simpl. intros k s Hs Hr.
    destruct (decide (k0 = k)) as [->|Hkne]; [by rewrite lookup_delete_eq in Hs|].
    rewrite lookup_delete_ne in Hs by done.
    destruct (wf_running _ H _ _ Hs Hr) as [Hc Hlost]. split; [|done].
    rewrite Hc. destruct (decide (Some k = Some k0)); congruence.
  - simpl. intros k Hc.
    destruct (decide (mCurrentSession st = Some k0)) as [|Hn]; [done|].
    rewrite lookup_delete_ne; [by apply H|]. congruence.
Qed.

(** [removeSession_l] of a registered session. *)
Lemma removeSession_l_wf env k0 s0 st :
  wf st → mSessionMap st !! k0 = Some s0 →
  ∃ st', removeSession_l env k0 st = Some st' ∧ wf st'
    ∧ mSessionMap st' = delete k0 (mSessionMap st)
    ∧ mResourceLost st' = mResourceLost st
    ∧ mCurrentSession st'
      = (if decide (mCurrentSession st = Some k0) then None else mCurrentSession st)
    ∧ (mEffects st' = mEffects st
       ∨ mEffects st' = mEffects st ++ [UnregisterMonitorUid (uid s0)]).
Proof.
  intros H Hk0. unfold removeSession_l. rewrite Hk0.
  pose proof (wf_session_queued _ _ _ H Hk0) as Hin.
  rewrite (touchQueue_listed _ _ H (wf_session_listed _ _ _ H Hk0)).
  rewrite decide_True by done.
  set (u0 := uid s0) in *. set (q' := eraseFirst k0 (queueOf u0 st)).
  assert (∀ u, u ∈ mUidSortedList st → u ≠ u0 → u ≠ OFFLINE_UID → queueOf u st ≠ [])
    as Hother by (intros; by apply H).
  destruct (decide (u0 ≠ OFFLINE_UID ∧ q' = [])) as [[Hu0 Hq']|Hkeep].
  - (* the last session of a real-time queue *)
    cbv zeta.
    match goal with |- context [moveUidsToTop_l ?a ?b ?s] =>
      destruct (moveUidsToTop_l_list a b s) as (l' & Hmv & Hp & Hl') end.
    { simpl. apply NoDup_filter, H. }
    { simpl. apply last_filter_ne; [apply H|done]. }
    rewrite Hmv. simpl.
    eexists. split; [done|]. simpl in Hp.
    split_and!.
    + match goal with |- wf ?X => assert (X = mkController (delete k0 (mSessionMap st)) l'
        (delete u0 (<[u0:=q']> (mSessionQueues st)))
        (if decide (mCurrentSession st = Some k0) then None else mCurrentSession st)
        (mResourceLost st) (mEffects st ++ [UnregisterMonitorUid u0])) as -> end.
      { by destruct (decide (mCurrentSession st = Some k0)). }
      apply (wf_remove _ _ _ _ _ _ H Hk0); try done.
      * rewrite Hp. apply NoDup_filter, H.
      * intros u. rewrite Hp, list_elem_of_filter, (wf_dom _ H).
        destruct (decide (u = u0)) as [->|Hne].
        -- rewrite lookup_delete_eq. split; [tauto|]. by intros [? ?].
        -- rewrite lookup_delete_ne, lookup_insert_ne by done. tauto.
      * intros u. fold u0. destruct (decide (u = u0)) as [->|Hne].
        -- rewrite lookup_delete_eq. simpl. by fold q'.
        -- by rewrite lookup_delete_ne, lookup_insert_ne.
      * intros u Hu Hoff. rewrite Hp in Hu. apply list_elem_of_filter in Hu as [Hne Hu].
        rewrite lookup_delete_ne, lookup_insert_ne by done. by apply Hother.
    + by destruct (decide (mCurrentSession st = Some k0)).
    + by destruct (decide (mCurrentSession st = Some k0)).
    + by destruct (decide (mCurrentSession st = Some k0)).
    + right. by destruct (decide (mCurrentSession st = Some k0)).
  - cbv zeta. simpl. eexists. split; [done|]. split_and!.
    + match goal with |- wf ?X => assert (X = mkController (delete k0 (mSessionMap st))
        (mUidSortedList st) (<[u0:=q']> (mSessionQueues st))
        (if decide (mCurrentSession st = Some k0) then None else mCurrentSession st)
        (mResourceLost st) (mEffects st)) as -> end.
      { by destruct (decide (mCurrentSession st = Some k0)). }
      apply (wf_remove _ _ _ _ _ _ H Hk0); try apply H.
      * intros u. rewrite (wf_dom _ H).
        destruct (decide (u = u0)) as [->|Hne].
        -- rewrite lookup_insert_eq. split; [eauto|].
           intros _. apply (wf_dom _ H). by eapply wf_session_listed.
        -- by rewrite lookup_insert_ne.
      * intros u. fold u0. destruct (decide (u = u0)) as [->|Hne].
        -- by rewrite lookup_insert_eq.
        -- by rewrite lookup_insert_ne.
      * intros u Hu Hoff. destruct (decide (u = u0)) as [->|Hne].
        -- rewrite lookup_insert_eq. simpl. intros E. apply Hkeep. done.
        -- rewrite lookup_insert_ne by done. by apply Hother.
    + by destruct (decide (mCurrentSession st = Some k0)).
    + by destruct (decide (mCurrentSession st = Some k0)).
    + by destruct (decide (mCurrentSession st = Some k0)).
    + left. by destruct (decide (mCurrentSession st = Some k0)).
Qed.

Lemma sum_lengths {A B} (f : A → list B) (l : list A) :
  sum_list (map (λ u, length (f u)) l) = length (l ≫= f).
Proof.
  induction l as [|x l IH]; [done|]. csimpl. rewrite length_app. simpl in *. lia.
Qed.

Lemma wf_uids_count st : wf st → length (mUidSortedList st) = size (mSessionQueues st).
Proof.
  intros H. rewrite <-length_map_to_list, <-(length_fmap fst).
  apply Permutation_length, NoDup_Permutation.
  - apply H.
  - apply NoDup_fst_map_to_list.
  - intros u. rewrite (wf_dom _ H). rewrite list_elem_of_fmap. split.
    + intros [q Hq]. exists (u, q). split; [done|]. by apply elem_of_map_to_list.
    + intros ([u' q] & -> & Hq). apply elem_of_map_to_list in Hq. eauto.
Qed.

Lemma wf_sessions_count st :
  wf st →
  size (mSessionMap st)
  = sum_list (map (λ u, length (queueOf u st)) (mUidSortedList st)).
Proof.
  intros H. rewrite sum_lengths.
  rewrite <-length_map_to_list, <-(length_fmap fst).
  apply Permutation_length, NoDup_Permutation.
  - apply NoDup_fst_map_to_list.
  - apply NoDup_bind; [|intros; apply H|apply H].
    intros u1 u2 k _ _ H1 H2.
    apply (wf_queue _ H) in H1 as (s1 & Hs1 & <-).
    apply (wf_queue _ H) in H2 as (s2 & Hs2 & <-). congruence.
  - intros k. rewrite list_elem_of_fmap, list_elem_of_bind. split.
    + intros ([k' s] & -> & Hs). apply elem_of_map_to_list in Hs. simpl.
      exists (uid s). split; [by apply wf_session_queued|by eapply wf_session_listed].
    + intros (u & Hk & _). apply (wf_queue _ H) in Hk as (s & Hs & _).
      exists (k, s). split; [done|]. by apply elem_of_map_to_list.
Qed.

(** No [LOG_ALWAYS_FATAL_IF] of [validateState_l] fires on a well-formed
    state. *)
Lemma validateState_l_wf st : wf st → validateState_l st = true.
Proof.
  intros H. unfold validateState_l.
  rewrite !andb_true_iff. split_and!.
  - apply bool_decide_eq_true. apply (wf_dom _ H), wf_offline_listed, H.
  - apply bool_decide_eq_true. by apply wf_offline_listed.
  - apply bool_decide_eq_true. by apply wf_uids_count.
  - apply forallb_forall. intros u Hu%list_elem_of_In.
    rewrite andb_true_iff. split.
    + apply bool_decide_eq_true. by apply (wf_dom _ H).
    + apply forallb_forall. intros k Hk%list_elem_of_In.
      apply bool_decide_eq_true.
      apply (wf_queue _ H) in Hk as (s & Hs & _). eauto.
  - apply bool_decide_eq_true. by apply wf_sessions_count.
Qed.

Lemma validated_wf st : wf st → validated st = Some st.
Proof. intros H. unfold validated. by rewrite validateState_l_wf. Qed.

Lemma wf_initial : wf initial.
Proof.
  constructor; simpl; try done.
  - apply NoDup_singleton.
  - intros u. rewrite list_elem_of_singleton. split.
    + intros ->. by rewrite lookup_singleton_eq.
    + intros [q Hq]. by apply lookup_singleton_Some in Hq as [<- _].
  - intros u Hu%list_elem_of_singleton. done.
  - intros u. unfold queueOf. simpl.
    destruct (decide (u = OFFLINE_UID)) as [->|Hne].
    + rewrite lookup_singleton_eq. constructor.
    + rewrite lookup_singleton_ne by done. constructor.
  - intros k u. unfold queueOf. simpl. split.
    + destruct (decide (u = OFFLINE_UID)) as [->|Hne].
      * rewrite lookup_singleton_eq. by intros ?%elem_of_nil.
      * rewrite lookup_singleton_ne by done. by intros ?%elem_of_nil.
    + intros (s & Hs & _). by rewrite lookup_empty in Hs.
Qed.

Lemma Inv_initial : Inv initial.
Proof. split; [apply wf_initial|done]. Qed.

Ltac fields :=
  unfold withUidSortedList, withSessionMap, withSessionQueues,
    withCurrentSession, withResourceLost, emit;
  cbn [mSessionMap mUidSortedList mSessionQueues mCurrentSession
       mResourceLost mEffects].

Lemma submit_unfold env c s u req cb st :
  submit env c s u req cb st
  = if decide (is_Some (mSessionMap st !! (c, s))) then Some (false, st)
    else st ← submitQueued env (c, s) u req cb st;
         st ← updateCurrentSession_l env st;
         st ← validated st;
         Some (true, st).
Proof.
  unfold submit, submitQueued. destruct (decide (is_Some _)); [done|].
  cbv zeta.
  repeat match goal with
  | |- context [decide ?P] => destruct (decide P); simpl
  | |- context [match ?x with _ => _ end] => destruct x; simpl
  end; done.
Qed.

Lemma last_cons_keep {A} (x o : A) (l : list A) :
  last l = Some o → last (x :: l) = Some o.
Proof. intros E. by rewrite last_cons, E. Qed.

Lemma wf_add st k0 new l2 q2 eff :
  wf st → mSessionMap st !! k0 = None →
  key new = k0 → state new = NOT_STARTED →
  NoDup l2 → last l2 = Some OFFLINE_UID →
  (∀ u, u ∈ l2 ↔ is_Some (q2 !! u)) →
  (∀ u, default [] (q2 !! u)
        = if decide (u = uid new) then queueOf u st ++ [k0] else queueOf u st) →
  (∀ u, u ∈ l2 → u ∈ mUidSortedList st ∨ u = uid new) →
  wf (mkController (<[k0 := new]> (mSessionMap st)) l2 q2
        (mCurrentSession st) (mResourceLost st) eff).
Proof.
  intros H Hk0 Hkey Hst Hnd Hl Hdom Hq Hsub.
  assert (∀ u, k0 ∉ queueOf u st) as Hfresh.
  { intros u (s & Hs & _)%(wf_queue _ H). congruence. }
  constructor; try done.
  - intros u Hu Hoff. unfold queueOf; simpl. rewrite Hq.
    destruct (decide (u = uid new)); [by destruct (queueOf u st)|].
    destruct (Hsub u Hu); [by apply H|done].
  - intros u. unfold queueOf; simpl. rewrite Hq.
    destruct (decide (u = uid new)); [|apply H].
    apply NoDup_app. split_and!; [apply H| |apply NoDup_singleton].
    intros k Hk ->%list_elem_of_singleton. by apply (Hfresh u).
  - intros k u. unfold queueOf; simpl. rewrite Hq.
    destruct (decide (k = k0)) as [->|Hk].
    + rewrite lookup_insert_eq. split.
      * destruct (decide (u = uid new)) as [->|Hu]; [eauto|].
        intros Hin. by destruct (Hfresh u).
      * intros (s & [= <-] & <-). rewrite decide_True by done.
        apply elem_of_app. right. by left.
    + rewrite lookup_insert_ne by done. rewrite <-(wf_queue _ H).
      destruct (decide (u = uid new)); [|done].
      rewrite elem_of_app, list_elem_of_singleton. tauto.
  - simpl. intros k s. destruct (decide (k = k0)) as [->|Hk].
    + rewrite lookup_insert_eq. by intros [= <-].
    + rewrite lookup_insert_ne by done. apply H.
  - simpl. intros k s. destruct (decide (k = k0)) as [->|Hk].
    + rewrite lookup_insert_eq. intros [= <-]. congruence.
    + rewrite lookup_insert_ne by done. apply H.
  - simpl. intros k Hc. rewrite lookup_insert_is_Some.
    destruct (decide (k0 = k)); [by left|right]. split; [done|]. by apply H.
Qed.

(** Registering and queueing a fresh session. *)
Lemma submitQueued_wf env k u req cb st :
  wf st → mSessionMap st !! k = None →
  ∃ st2, submitQueued env k u req cb st = Some st2 ∧ wf st2
    ∧ mSessionMap st2
      = <[k := mkSession k (queueUid u req) NOT_STARTED 0 req cb]> (mSessionMap st)
    ∧ mCurrentSession st2 = mCurrentSession st
    ∧ mResourceLost st2 = mResourceLost st
    ∧ (mEffects st2 = mEffects st
       ∨ mEffects st2 = mEffects st ++ [RegisterMonitorUid (queueUid u req)]).
Proof.
  intros H Hk. unfold submitQueued. fold (queueUid u req).
  set (u' := queueUid u req). cbv zeta.
  set (new := mkSession k u' NOT_STARTED 0 req cb).
  assert (∀ l2 eff,
    NoDup l2 → last l2 = Some OFFLINE_UID →
    (∀ x, x ∈ l2 ↔ x ∈ mUidSortedList st ∨ x = u') →
    wf (mkController (<[k := new]> (mSessionMap st)) l2
          (<[u' := queueOf u' st ++ [k]]> (mSessionQueues st))
          (mCurrentSession st) (mResourceLost st) eff)) as Hwf.
  { intros l2 eff Hnd Hl Hl2. apply wf_add; try done.
    - intros x. rewrite Hl2, lookup_insert_is_Some, (wf_dom _ H).
      destruct (decide (u' = x)) as [->|]; [split; eauto|]. naive_solver.
    - intros x. simpl. destruct (decide (x = u')) as [->|Hne].
      + by rewrite lookup_insert_eq.
      + by rewrite lookup_insert_ne.
    - intros x. by rewrite Hl2. }
  destruct (decide (u' ≠ OFFLINE_UID)) as [Hrt|Hoff].
  - simpl. destruct (mSessionQueues st !! u') as [q|] eqn:Eq.
    + destruct (mUidSortedList st) as [|top l] eqn:El.
      { pose proof (wf_last _ H) as Hl. by rewrite El in Hl. }
      assert (u' ∈ top :: l) as Hin.
      { rewrite <-El. apply (wf_dom _ H). eauto. }
      pose proof (wf_nodup _ H) as Hnd. pose proof (wf_last _ H) as Hl.
      rewrite El in Hnd, Hl.
      destruct (decide (u' ≠ top)) as [Hne|Heq]; [destruct (isUidOnTop env u')|].
      * eexists. split; [done|]. split_and!; try done; [|by left].
        apply Hwf; fields.
        -- apply NoDup_cons. split; [|by apply NoDup_filter].
           rewrite list_elem_of_filter. tauto.
        -- apply last_cons_keep. by apply last_filter_ne.
        -- intros x.
           rewrite elem_of_cons, list_elem_of_filter.
           destruct (decide (x = u')) as [->|]; [tauto|]. tauto.
      * simpl. eexists. split; [done|]. split_and!; try done; [|by left].
        unfold withSessionMap; simpl. rewrite El. apply Hwf; try done.
        intros x. destruct (decide (x = u')) as [->|]; tauto.
      * simpl. eexists. split; [done|]. split_and!; try done; [|by left].
        unfold withSessionMap; simpl. rewrite El. apply Hwf; try done.
        intros x. destruct (decide (x = u')) as [->|]; tauto.
    + assert (u' ∉ mUidSortedList st) as Hnin.
      { intros [q Hq]%(wf_dom _ H). congruence. }
      destruct (isUidOnTop env u').
      * simpl. eexists. split; [done|]. split_and!; try done; [|by right].
        apply Hwf; fields.
        -- apply NoDup_cons. split; [done|apply H].
        -- apply last_cons_keep, H.
        -- intros x.
           rewrite elem_of_cons. tauto.
      * simpl. eexists. split; [done|]. split_and!; try done; [|by right].
        apply Hwf; fields.
        -- rewrite insertBeforeOffline_perm. apply NoDup_cons. split; [done|apply H].
        -- apply insertBeforeOffline_last, H.
        -- intros x.
           rewrite insertBeforeOffline_perm, elem_of_cons. tauto.
  - simpl. eexists. split; [done|]. split_and!; try done; [|by left].
    apply Hwf; try apply H.
    intros x. split; [tauto|]. intros [? | Hx]; [done|]. rewrite Hx.
    destruct (decide (u' = OFFLINE_UID)) as [E|]; [|tauto].
    rewrite E. apply (wf_offline_listed _ H).
Qed.

(** [updateCurrentSession_l] while resources are lost only moves the
    pointer. *)
Lemma updateCurrentSession_l_lost env st :
  wf st → mResourceLost st = true →
  updateCurrentSession_l env st = Some (withCurrentSession (topSession st) st).
Proof.
  intros H Hlost. unfold updateCurrentSession_l.
  rewrite (getTopSession_l_wf _ H). simpl.
  destruct (topSession st) as [top|] eqn:Etop; [|done].
  destruct (decide _); [|done].
  destruct (mCurrentSession st) as [cur|] eqn:Ecur; simpl.
  - destruct (wf_cur _ H _ Ecur) as [c Hc]. rewrite Hc. simpl.
    rewrite decide_False by (by eapply wf_no_running_when_lost).
    simpl. by rewrite Hlost.
  - by rewrite Hlost.
Qed.

Lemma submit_Inv env c s u req cb st :
  wf st → mSessionMap st !! (c, s) = None →
  ∃ st', submit env c s u req cb st = Some (true, st') ∧ Inv st'.
Proof.
  intros H Hk. rewrite submit_unfold.
  rewrite decide_False by (rewrite Hk; by intros [? ?]).
  destruct (submitQueued_wf env (c, s) u req cb st H Hk) as (st2 & -> & H2 & _).
  simpl.
  destruct (updateCurrentSession_l_wf env st2 H2) as (st3 & -> & H3 & _).
  simpl. rewrite (validated_wf _ (proj1 H3)). simpl. eauto.
Qed.

Lemma submit_duplicate env c s u req cb st :
  is_Some (mSessionMap st !! (c, s)) →
  submit env c s u req cb st = Some (false, st).
Proof. intros Hk. rewrite submit_unfold. by rewrite decide_True. Qed.

Lemma sortedKeys_elem_of (m : gmap (Z * Z) Session) k :
  k ∈ sortedKeys m ↔ is_Some (m !! k).
Proof.
  unfold sortedKeys. rewrite merge_sort_Permutation.
  change (map fst (map_to_list m)) with ((map_to_list m).*1).
  rewrite list_elem_of_fmap. split.
  - intros ([k' x] & -> & Hx). apply elem_of_map_to_list in Hx. eauto.
  - intros [x Hx]. exists (k, x). split; [done|]. by apply elem_of_map_to_list.
Qed.

Lemma sortedKeys_NoDup (m : gmap (Z * Z) Session) : NoDup (sortedKeys m).
Proof.
  unfold sortedKeys. rewrite merge_sort_Permutation. apply NoDup_fst_map_to_list.
Qed.

Lemma realtimeSessionsOf_elem_of c st k :
  k ∈ realtimeSessionsOf c st
  ↔ ∃ s, mSessionMap st !! k = Some s ∧ k.1 = c ∧ uid s ≠ OFFLINE_UID.
Proof.
  unfold realtimeSessionsOf. rewrite list_elem_of_filter, sortedKeys_elem_of.
  split.
  - intros ([Hc Hu] & [s Hs]). exists s. by rewrite (sessionOf_Some _ _ _ Hs) in Hu.
  - intros (s & Hs & Hc & Hu). rewrite (sessionOf_Some _ _ _ Hs). eauto.
Qed.

Lemma realtimeSessionsOf_NoDup c st : NoDup (realtimeSessionsOf c st).
Proof. apply NoDup_filter, sortedKeys_NoDup. Qed.

(** One round of the loop of [cancel]. *)
Lemma cancelOne_wf env k s st :
  wf st → mSessionMap st !! k = Some s →
  ∃ st', cancelOne env k st = Some st' ∧ wf st'
    ∧ mSessionMap st' = delete k (mSessionMap st)
    ∧ mResourceLost st' = mResourceLost st
    ∧ ∃ es, mEffects st' = mEffects st ++ es
        ∧ (state s ≠ NOT_STARTED → TranscoderStop k.1 k.2 ∈ es).
Proof.
  intros H Hk. unfold cancelOne.
  rewrite (touchSession_registered _ _ _ Hk), (sessionOf_Some _ _ _ Hk).
  destruct (decide (state s ≠ NOT_STARTED)) as [Hs|Hs].
  - destruct (removeSession_l_wf env k s (emit (TranscoderStop k.1 k.2) st))
      as (st' & -> & H' & Hm & Hl & _ & He); [by apply wf_emit|done|].
    eexists. split; [done|]. split_and!; try done.
    destruct He as [-> | ->]; simpl; rewrite <-?app_assoc;
      eexists; (split; [done|]); intros _; set_solver.
  - destruct (removeSession_l_wf env k s st H Hk)
      as (st' & -> & H' & Hm & Hl & _ & He).
    eexists. split; [done|]. split_and!; try done.
    destruct He as [-> | ->]; [exists []; by rewrite app_nil_r|by eexists].
Qed.

Lemma cancelLoop_wf env ks :
  ∀ st, wf st → NoDup ks → (∀ k, k ∈ ks → is_Some (mSessionMap st !! k)) →
  ∃ st', cancelLoop env ks st = Some st' ∧ wf st'
    ∧ (∀ k, mSessionMap st' !! k
            = if decide (k ∈ ks) then None else mSessionMap st !! k)
    ∧ mResourceLost st' = mResourceLost st
    ∧ ∃ es, mEffects st' = mEffects st ++ es
        ∧ ∀ k s, k ∈ ks → mSessionMap st !! k = Some s →
                 state s ≠ NOT_STARTED → TranscoderStop k.1 k.2 ∈ es.
Proof.
  induction ks as [|k ks IH]; intros st H Hnd Hreg; simpl.
  - eexists. split; [done|]. split_and!; try done.
    exists []. split; [by rewrite app_nil_r|]. by intros ?? ?%elem_of_nil.
  - apply NoDup_cons in Hnd as [Hk Hnd].
    destruct (Hreg k) as [s Hs]; [by left|].
    destruct (cancelOne_wf env k s st H Hs) as (st1 & -> & H1 & Hm1 & Hl1 & es1 & He1 & Hstop1).
    simpl. destruct (IH st1 H1 Hnd) as (st' & -> & H' & Hm' & Hl' & es & He & Hstop).
    { intros k' Hk'. rewrite Hm1, lookup_delete_ne by (intros ->; done).
      apply Hreg. by right. }
    eexists. split; [done|]. split_and!; try done; [|congruence|].
    + intros k'. rewrite Hm', Hm1.
      destruct (decide (k' ∈ ks)) as [Hin|Hnin],
        (decide (k' ∈ k :: ks)) as [Hin2|Hnin2]; try done.
      * exfalso. apply Hnin2. by right.
      * apply elem_of_cons in Hin2 as [->|?]; [|done]. by rewrite lookup_delete_eq.
      * rewrite lookup_delete_ne; [done|]. intros ->. apply Hnin2. by left.
    + exists (es1 ++ es). split; [by rewrite He, He1, app_assoc|].
      intros k' s' [->|Hin]%elem_of_cons Hs' Hst'.
      * apply elem_of_app. left. apply Hstop1. congruence.
      * apply elem_of_app. right. apply (Hstop k' s'); [done| |done].
        rewrite Hm1, lookup_delete_ne; [done|]. intros ->. done.
Qed.

Lemma cancel_Inv env c s st :
  Inv st → ∃ r st', cancel env c s st = Some (r, st') ∧ Inv st'.
Proof.
  intros [H Hc]. unfold cancel.
  assert (∀ ks, NoDup ks → (∀ k, k ∈ ks → is_Some (mSessionMap st !! k)) →
    ∃ st', (st ← cancelLoop env ks st; st ← updateCurrentSession_l env st;
            st ← validated st; Some (true, st)) = Some (true, st') ∧ Inv st') as Hloop.
  { intros ks Hnd Hreg.
    destruct (cancelLoop_wf env ks st H Hnd Hreg) as (st1 & -> & H1 & _).
    simpl. destruct (updateCurrentSession_l_wf env st1 H1) as (st2 & -> & H2 & _).
    simpl. rewrite (validated_wf _ (proj1 H2)). simpl. eauto. }
  destruct (decide (s < 0)).
  - destruct (Hloop (realtimeSessionsOf c st)) as (st' & -> & H').
    + apply realtimeSessionsOf_NoDup.
    + intros k (x & Hx & _)%realtimeSessionsOf_elem_of. eauto.
    + by exists true, st'.
  - destruct (mSessionMap st !! (c, s)) as [x|] eqn:Ex.
    + destruct (Hloop [(c, s)]) as (st' & -> & H').
      * apply NoDup_singleton.
      * intros k ->%list_elem_of_singleton. eauto.
      * by exists true, st'.
    + by exists false, st.
Qed.

Lemma wf_setLastProgress k p st :
  wf st → wf (updateSession k (setLastProgress p) st).
Proof.
  intros []. constructor; try done.
  - intros k' u. etrans; [apply wf_queue0|]. unfold updateSession; simpl.
    split.
    + intros (s & Hs & Hu). destruct (decide (k = k')) as [->|Hne].
      * exists (setLastProgress p s). by rewrite lookup_alter_eq, Hs.
      * exists s. by rewrite lookup_alter_ne.
    + intros (s & Hs & Hu). destruct (decide (k = k')) as [->|Hne].
      * rewrite lookup_alter_eq in Hs.
        destruct (mSessionMap st !! k') as [s0|]; [|done].
        injection Hs as <-. eauto.
      * rewrite lookup_alter_ne in Hs by done. eauto.
  - intros k' s Hs. unfold updateSession in Hs; simpl in Hs.
    destruct (decide (k = k')) as [->|Hne].
    + rewrite lookup_alter_eq in Hs.
      destruct (mSessionMap st !! k') as [s0|] eqn:E; [|done].
      injection Hs as <-. simpl. eauto.
    + rewrite lookup_alter_ne in Hs by done. eauto.
  - intros k' s Hs Hr. unfold updateSession in Hs; simpl in Hs.
    destruct (decide (k = k')) as [->|Hne].
    + rewrite lookup_alter_eq in Hs.
      destruct (mSessionMap st !! k') as [s0|] eqn:E; [|done].
      injection Hs as <-. simpl in Hr. eauto.
    + rewrite lookup_alter_ne in Hs by done. eauto.
  - intros k' Hc. unfold updateSession; simpl. rewrite lookup_alter_is_Some. eauto.
Qed.

Lemma wf_callClient env k e st : wf st → wf (callClient env k e st).
Proof.
  intros H. unfold callClient. destruct (lockCallback env _); [by apply wf_emit|done].
Qed.

Lemma callClient_fields env k e st :
  mSessionMap (callClient env k e st) = mSessionMap st
  ∧ mUidSortedList (callClient env k e st) = mUidSortedList st
  ∧ mSessionQueues (callClient env k e st) = mSessionQueues st
  ∧ mCurrentSession (callClient env k e st) = mCurrentSession st
  ∧ mResourceLost (callClient env k e st) = mResourceLost st.
Proof. unfold callClient. by destruct (lockCallback env _). Qed.

Lemma Inv_callClient env k e st : Inv st → Inv (callClient env k e st).
Proof.
  intros [H Hc]. split; [by apply wf_callClient|].
  destruct (callClient_fields env k e st) as (_ & El & Eq & Ec & _).
  rewrite Ec, Hc. symmetry. by apply topSession_ext.
Qed.

(** Removing a session and picking the next one, as [onFinish] and
    [onError] do. *)
Lemma removeAndUpdate_Inv env k s st :
  wf st → mSessionMap st !! k = Some s →
  ∃ st', (st ← removeSession_l env k st;
          st ← updateCurrentSession_l env st; validated st) = Some st'
    ∧ Inv st'
    ∧ sameButState (delete k (mSessionMap st)) (mSessionMap st')
    ∧ ∃ es, mEffects st' = mEffects st ++ es.
Proof.
  intros H Hk.
  destruct (removeSession_l_wf env k s st H Hk) as (st1 & -> & H1 & Hm1 & _ & _ & He1).
  simpl.
  destruct (updateCurrentSession_l_wf env st1 H1)
    as (st2 & -> & H2 & _ & _ & _ & Hsame & es & He).
  simpl. rewrite (validated_wf _ (proj1 H2)).
  eexists. split; [done|]. split_and!; try done; [by rewrite <-Hm1|].
  destruct He1 as [E|E]; rewrite He, E, <-?app_assoc; by eexists.
Qed.

Lemma notifyClient_Inv c s func st :
  Inv st →
  (∀ x, mSessionMap st !! (c, s) = Some x → state x ≠ NOT_STARTED →
        ∃ st', func (c, s) st = Some st' ∧ Inv st') →
  ∃ st', notifyClient c s func st = Some st' ∧ Inv st'.
Proof.
  intros HI Hf. unfold notifyClient.
  destruct (mSessionMap st !! (c, s)) as [x|] eqn:Ex; [|eauto].
  destruct (decide (state x = NOT_STARTED)); eauto.
Qed.

Lemma onResourceLost_Inv env st :
  Inv st → ∃ st', onResourceLost env st = Some st' ∧ Inv st'.
Proof.
  intros [H Hc]. unfold onResourceLost.
  destruct (mResourceLost st) eqn:Elost; [by eexists|].
  assert (∀ st1, wf st1 → mCurrentSession st1 = topSession st1 →
    (∀ k x, mSessionMap st1 !! k = Some x → state x ≠ RUNNING) →
    ∃ st', validated (withResourceLost true st1) = Some st' ∧ Inv st') as Hfin.
  { intros st1 H1 Hc1 Hnr. eexists. split; [apply validated_wf|split]; try done.
    all: apply (wf_restate _ _ _ _ _ H1); [apply sameButState_refl| |apply H1].
    all: intros k x Hx Hr; by destruct (Hnr _ _ Hx). }
  destruct (mCurrentSession st) as [cur|] eqn:Ecur; simpl.
  - destruct (wf_cur _ H _ Ecur) as [x Hx]. rewrite Hx. simpl.
    destruct (decide (state x = RUNNING)) as [Hr|Hr]; simpl.
    + assert (wf (updateSession cur (setState PAUSED) st)) as H1
        by (by apply wf_setState_not_running).
      assert (∀ k y, mSessionMap (updateSession cur (setState PAUSED) st) !! k = Some y
                     → state y ≠ RUNNING) as Hnr.
      { intros k y Hy Hrun. unfold updateSession in Hy; simpl in Hy.
        destruct (decide (cur = k)) as [->|Hne].
        - rewrite lookup_alter_eq, Hx in Hy. by injection Hy as <-.
        - rewrite lookup_alter_ne in Hy by done.
          destruct (wf_running _ H _ _ Hy Hrun) as [E _]. congruence. }
      destruct (lockCallback env (callback x)).
      * apply Hfin; [by apply wf_emit| |done].
        change (mCurrentSession st = topSession st). congruence.
      * apply Hfin; [done| |done].
        change (mCurrentSession st = topSession st). congruence.
    + apply Hfin; [done|congruence|].
      intros k y Hy Hrun. destruct (wf_running _ H _ _ Hy Hrun) as [E _]. congruence.
  - apply Hfin; [done|congruence|].
    intros k y Hy Hrun. destruct (wf_running _ H _ _ Hy Hrun) as [E _]. congruence.
Qed.

Lemma onTopUidsChanged_Inv env uids st :
  Inv st → ∃ st', onTopUidsChanged env uids st = Some st' ∧ Inv st'.
Proof.
  intros [H Hc]. unfold onTopUidsChanged.
  destruct (decide (size uids = 0%nat)); [by eexists|].
  destruct (moveUidsToTop_l_list uids true st) as (l' & -> & Hp & Hl);
    [apply H..|].
  simpl.
  destruct (updateCurrentSession_l_wf env (withUidSortedList l' st))
    as (st2 & -> & H2 & _); [by apply wf_relist|].
  simpl. rewrite (validated_wf _ (proj1 H2)). eauto.
Qed.

Lemma onResourceAvailable_Inv env st :
  Inv st → ∃ st', onResourceAvailable env st = Some st' ∧ Inv st'.
Proof.
  intros [H Hc]. unfold onResourceAvailable.
  destruct (mResourceLost st) eqn:Elost; [|by eexists].
  destruct (updateCurrentSession_l_wf env (withResourceLost false st))
    as (st2 & -> & H2 & _).
  { apply (wf_restate _ _ _ _ _ H); [apply sameButState_refl| |apply H].
    intros k x Hx Hr. by destruct (wf_no_running_when_lost _ _ _ H Elost Hx). }
  simpl. rewrite (validated_wf _ (proj1 H2)). eauto.
Qed.

Lemma dumpAllSessions_wf namesOk st :
  wf st → dumpAllSessions namesOk st = Some st.
Proof.
  intros H. unfold dumpAllSessions.
  destruct (mUidSortedList st) as [|u l] eqn:El.
  { pose proof (wf_last _ H) as Hl. by rewrite El in Hl. }
  rewrite <-El.
  assert (∀ uids, (∀ x, x ∈ uids → x ∈ mUidSortedList st) →
                  foldl (λ st u, touchQueue u st) st uids = st) as Hfold.
  { induction uids as [|x uids IH]; intros Hsub; [done|]. simpl.
    rewrite touchQueue_listed; [|done|apply Hsub; by left].
    apply IH. intros y Hy. apply Hsub. by right. }
  rewrite Hfold; [done|].
  intros x [Hx|Hx]%elem_of_app.
  - by apply (subseteq_take (pred (length (mUidSortedList st)))).
  - destruct namesOk; [|by apply elem_of_nil in Hx].
    apply list_elem_of_singleton in Hx as ->. by apply wf_offline_listed.
Qed.

(** Every public operation returns, and keeps the invariant. *)
Lemma step_Inv op st : Inv st → ∃ st', step op st = Some st' ∧ Inv st'.
Proof.
  intros HI. destruct op; simpl.
  - destruct (mSessionMap st !! (clientId, sessionId)) as [x|] eqn:Ex.
    + rewrite submit_duplicate by eauto. simpl. eauto.
    + destruct (submit_Inv env clientId sessionId u req cb st (proj1 HI) Ex)
        as (st' & -> & H'). simpl. eauto.
  - destruct (cancel_Inv env clientId sessionId st HI) as (r & st' & -> & H').
    simpl. eauto.
  - eauto.
  - rewrite (dumpAllSessions_wf _ _ (proj1 HI)). eauto.
  - apply notifyClient_Inv; [done|]. intros x Hx Hs. eexists. split; [done|].
    by apply Inv_callClient.
  - apply notifyClient_Inv; [done|]. intros x Hx Hs. eexists. split; [done|].
    by apply Inv_callClient.
  - apply notifyClient_Inv; [done|]. intros x Hx Hs. eexists. split; [done|].
    by apply Inv_callClient.
  - apply notifyClient_Inv; [done|]. intros x Hx Hs.
    destruct (removeAndUpdate_Inv env (clientId, sessionId) x
                (callClient env (clientId, sessionId)
                   (λ cb, ClientFinished cb sessionId sessionId (-1)) st))
      as (st' & E & H' & _).
    { apply wf_callClient, HI. }
    { by rewrite (proj1 (callClient_fields _ _ _ _)). }
    exists st'. split; [exact E|done].
  - apply notifyClient_Inv; [done|]. intros x Hx Hs.
    destruct (removeAndUpdate_Inv env (clientId, sessionId) x
                (callClient env (clientId, sessionId)
                   (λ cb, ClientFailed cb sessionId err) st))
      as (st' & E & H' & _).
    { apply wf_callClient, HI. }
    { by rewrite (proj1 (callClient_fields _ _ _ _)). }
    exists st'. split; [exact E|done].
  - apply notifyClient_Inv; [done|]. intros x Hx Hs. eexists. split; [done|].
    split.
    + apply wf_setLastProgress, wf_callClient, HI.
    + destruct (Inv_callClient env (clientId, sessionId)
                  (λ cb, ClientProgress cb sessionId progress) st HI) as [_ E].
      exact E.
  - by apply onResourceLost_Inv.
  - by apply onTopUidsChanged_Inv.
  - by apply onResourceAvailable_Inv.
Qed.

Lemma run_Inv ops : ∀ st, Inv st → ∃ st', run ops st = Some st' ∧ Inv st'.
Proof.
  induction ops as [|op ops IH]; intros st HI; simpl; [eauto|].
  destruct (step_Inv op st HI) as (st1 & -> & H1). simpl. by apply IH.
Qed.

Lemma reachable_Inv st : reachable st → Inv st.
Proof.
  intros [ops Hrun].
  destruct (run_Inv ops initial Inv_initial) as (st' & E & H').
  congruence.
Qed.

Theorem at_most_one_running st :
  reachable st →
  (∀ k1 k2 s1 s2,
     mSessionMap st !! k1 = Some s1 → mSessionMap st !! k2 = Some s2 →
     state s1 = RUNNING → state s2 = RUNNING → k1 = k2)
  ∧ (length (runningSessions st) ≤ 1)%nat.
Proof.
  intros [H _]%reachable_Inv.
  assert (∀ k1 k2 s1 s2,
     mSessionMap st !! k1 = Some s1 → mSessionMap st !! k2 = Some s2 →
     state s1 = RUNNING → state s2 = RUNNING → k1 = k2) as Hone.
  { intros k1 k2 s1 s2 H1 H2 R1 R2.
    destruct (wf_running _ H _ _ H1 R1) as [E1 _].
    destruct (wf_running _ H _ _ H2 R2) as [E2 _]. congruence. }
  split; [done|].
  assert (NoDup (runningSessions st)) as Hnd
    by apply NoDup_filter, sortedKeys_NoDup.
  assert (∀ k, k ∈ runningSessions st →
               ∃ x, mSessionMap st !! k = Some x ∧ state x = RUNNING) as Hin.
  { intros k [Hr [x Hx]%sortedKeys_elem_of]%list_elem_of_filter.
    exists x. by rewrite (sessionOf_Some _ _ _ Hx) in Hr. }
  destruct (runningSessions st) as [|a [|b l]]; simpl; [lia..|].
  destruct (Hin a) as (x & Hx & Rx); [by left|].
  destruct (Hin b) as (y & Hy & Ry); [right; by left|].
  assert (a = b) as -> by eauto.
  apply NoDup_cons in Hnd as [Hn _]. destruct Hn. by left.
Qed.

Lemma at_most_one_running_witness :
  reachable demoState
  ∧ (∀ k1 k2 s1 s2,
       mSessionMap demoState !! k1 = Some s1 → mSessionMap demoState !! k2 = Some s2 →
       state s1 = RUNNING → state s2 = RUNNING → k1 = k2)
  ∧ (length (runningSessions demoState) ≤ 1)%nat.
Proof.
  assert (reachable demoState) as Hr by (exists demoOps; vm_compute; reflexivity).
  split; [exact Hr|]. exact (at_most_one_running demoState Hr).
Defined.

(** C2: in every reachable state the current-session pointer is null or
    designates the top session, the first key in the queue of the first uid
    of [mUidSortedList]. *)
Theorem current_session_is_top st :
  reachable st →
  mCurrentSession st = None ∨ mCurrentSession st = topSession st.
Proof. intros [_ Hc]%reachable_Inv. by right. Qed.

Lemma current_session_is_top_witness :
  reachable demoState
  ∧ (mCurrentSession demoState = None
     ∨ mCurrentSession demoState = topSession demoState).
Proof.
  assert (reachable demoState) as Hr by (exists demoOps; vm_compute; reflexivity).
  split; [exact Hr|]. exact (current_session_is_top demoState Hr).
Defined.

(** C10: in every reachable state with a session registered, the offline
    uid is last in [mUidSortedList], no listed real-time queue is empty,
    and the queue of the first uid starts with a registered key, so that
    [getTopSession_l] dereferences nothing empty and returns that key. *)
Theorem top_queue_nonempty st :
  reachable st → mSessionMap st ≠ ∅ →
  last (mUidSortedList st) = Some OFFLINE_UID
  ∧ (∀ u, u ∈ mUidSortedList st → u ≠ OFFLINE_UID → queueOf u st ≠ [])
  ∧ ∃ u l k q,
      mUidSortedList st = u :: l
      ∧ mSessionQueues st !! u = Some (k :: q)
      ∧ is_Some (mSessionMap st !! k)
      ∧ getTopSession_l st = Some (Some k, st).
Proof.
  intros [H _]%reachable_Inv Hne. split_and!; [apply H..|].
  destruct (wf_top_queue _ H Hne) as (u & l & k & q & El & Eq & Hk).
  exists u, l, k, q. split_and!; try done.
  rewrite (getTopSession_l_wf _ H). unfold topSession, queueOf. by rewrite El, Eq.
Qed.

Lemma top_queue_nonempty_witness :
  reachable demoState ∧ mSessionMap demoState ≠ ∅
  ∧ last (mUidSortedList demoState) = Some OFFLINE_UID
  ∧ (∀ u, u ∈ mUidSortedList demoState → u ≠ OFFLINE_UID → queueOf u demoState ≠ [])
  ∧ ∃ u l k q,
      mUidSortedList demoState = u :: l
      ∧ mSessionQueues demoState !! u = Some (k :: q)
      ∧ is_Some (mSessionMap demoState !! k)
      ∧ getTopSession_l demoState = Some (Some k, demoState).
Proof.
  assert (reachable demoState) as Hr by (exists demoOps; vm_compute; reflexivity).
  assert (mSessionMap demoState ≠ ∅) as Hne.
  { intros E. apply (f_equal (λ m, m !! (1, 1))) in E. vm_compute in E. discriminate. }
  split; [exact Hr|]. split; [exact Hne|].
  exact (top_queue_nonempty demoState Hr Hne).
Defined.

(** [updateCurrentSession_l] with resources at hand and no session
    running: the top session is started or resumed. *)
Lemma updateCurrentSession_l_start env st t x :
  wf st → mResourceLost st = false →
  topSession st = Some t → mSessionMap st !! t = Some x →
  (∀ k y, mSessionMap st !! k = Some y → state y ≠ RUNNING) →
  updateCurrentSession_l env st
  = Some (withCurrentSession (Some t)
            (updateSession t (setState RUNNING) (startOrResume env x st))).
Proof.
  intros H Hlost Ht Hx Hnr. unfold updateCurrentSession_l.
  rewrite (getTopSession_l_wf _ H), Ht. simpl.
  rewrite (sessionOf_Some _ _ _ Hx).
  rewrite decide_True by (right; by eapply Hnr).
  destruct (mCurrentSession st) as [cur|] eqn:Ecur; simpl.
  - destruct (wf_cur _ H _ Ecur) as [c Hc]. rewrite Hc. simpl.
    rewrite decide_False by (by eapply Hnr). simpl.
    by rewrite Hlost, (sessionOf_Some _ _ _ Hx).
  - by rewrite Hlost, (sessionOf_Some _ _ _ Hx).
Qed.

(** C6: a session submitted while resources are lost is registered in
    state NOT_STARTED and the transcoder is not called (at most the uid
    policy is asked to monitor a new uid); the current-session pointer is
    nevertheless set to the top session, which a following
    [onResourceAvailable] starts, or resumes, and marks RUNNING. *)
Theorem submit_while_resource_lost env c s u req cb st :
  reachable st → mResourceLost st = true → mSessionMap st !! (c, s) = None →
  ∃ st',
    submit env c s u req cb st = Some (true, st')
    ∧ mSessionMap st' !! (c, s)
      = Some (mkSession (c, s) (queueUid u req) NOT_STARTED 0 req cb)
    ∧ (∃ es, mEffects st' = mEffects st ++ es
             ∧ ∀ e, e ∈ es → e = RegisterMonitorUid (queueUid u req))
    ∧ (∃ t x,
         mCurrentSession st' = Some t ∧ topSession st' = Some t
         ∧ mSessionMap st' !! t = Some x ∧ state x ≠ RUNNING
         ∧ ∀ env', ∃ st'',
             onResourceAvailable env' st' = Some st''
             ∧ mCurrentSession st'' = Some t
             ∧ mSessionMap st'' !! t = Some (setState RUNNING x)
             ∧ mEffects st''
               = mEffects st'
                 ++ [if decide (state x = NOT_STARTED)
                     then TranscoderStart t.1 t.2 (request x)
                            (if lockCallback env' (callback x)
                             then Some (callback x) else None)
                     else TranscoderResume t.1 t.2 (request x)
                            (if lockCallback env' (callback x)
                             then Some (callback x) else None)]).
Proof.
  intros [H Hc]%reachable_Inv Hlost Hk. rewrite submit_unfold.
  rewrite decide_False by (rewrite Hk; by intros [? ?]).
  destruct (submitQueued_wf env (c, s) u req cb st H Hk)
    as (st2 & -> & H2 & Hm2 & Hc2 & Hl2 & He2).
  simpl. rewrite Hlost in Hl2.
  rewrite (updateCurrentSession_l_lost env st2 H2 Hl2). simpl.
  set (st3 := withCurrentSession (topSession st2) st2).
  assert (Inv st3) as [H3 Hc3].
  { destruct (updateCurrentSession_l_wf env st2 H2) as (st3' & E & HI & _).
    rewrite (updateCurrentSession_l_lost env st2 H2 Hl2) in E.
    by injection E as <-. }
  rewrite (validated_wf _ H3). simpl.
  eexists. split; [done|]. split_and!.
  - simpl. by rewrite Hm2, lookup_insert_eq.
  - destruct He2 as [E|E]; simpl; rewrite E.
    + exists []. split; [by rewrite app_nil_r|]. by intros ? ?%elem_of_nil.
    + eexists. split; [done|]. by intros ? ->%list_elem_of_singleton.
  - assert (mSessionMap st3 ≠ ∅) as Hne.
    { intros E. apply (f_equal (λ m, m !! (c, s))) in E. simpl in E.
      by rewrite Hm2, lookup_insert_eq, lookup_empty in E. }
    destruct (wf_top_queue _ H3 Hne) as (u0 & l & t & q & El & Eq & [x Hx]).
    assert (topSession st3 = Some t) as Ht.
    { unfold topSession, queueOf. by rewrite El, Eq. }
    exists t, x. split; [by rewrite Hc3|]. split; [done|]. split; [done|].
    split; [by eapply wf_no_running_when_lost|].
    intros env'. unfold onResourceAvailable.
    replace (mResourceLost st3) with true by done.
    assert (wf (withResourceLost false st3)) as H4.
    { apply (wf_restate _ _ _ _ _ H3); [apply sameButState_refl| |apply H3].
      intros k y Hy Hr. by destruct (wf_no_running_when_lost _ _ _ H3 Hl2 Hy). }
    destruct (updateCurrentSession_l_wf env' _ H4) as (st5 & E5 & [H5 _] & _).
    rewrite (updateCurrentSession_l_start env' _ t x H4) in E5 |- *; try done.
    2,3: intros k y Hy; by eapply (wf_no_running_when_lost _ _ _ H3 Hl2).
    injection E5 as E5. simpl. rewrite E5, (validated_wf _ H5). subst st5.
    eexists. split; [done|]. split_and!; try done.
    + simpl. rewrite (proj1 (startOrResume_fields _ _ _)). simpl.
      change (mSessionMap st3) with (mSessionMap st2) in Hx.
      by rewrite lookup_alter_eq, Hx.
    + simpl. unfold startOrResume.
      pose proof (wf_key _ H3 _ _ Hx) as Ekey.
      pose proof (wf_no_running_when_lost _ _ _ H3 Hl2 Hx) as Hnr.
      destruct (state x); simpl; rewrite ?Ekey; done.
Qed.

(** C7: [cancel] with a negative session id removes exactly the client's
    sessions queued under a uid other than the offline one; the client's
    offline sessions stay registered; and for every removed session that
    is not NOT_STARTED the transcoder's stop is called, in the round of the
    loop that then removes the session, which is still registered at that
    point. *)
Theorem cancel_all_realtime env c s st :
  reachable st → s < 0 →
  ∃ st',
    cancel env c s st = Some (true, st')
    ∧ (∀ k, is_Some (mSessionMap st' !! k)
            ↔ ∃ x, mSessionMap st !! k = Some x
                   ∧ ¬ (k.1 = c ∧ uid x ≠ OFFLINE_UID))
    ∧ (∀ k x, mSessionMap st !! k = Some x → k.1 = c → uid x = OFFLINE_UID →
              is_Some (mSessionMap st' !! k))
    ∧ (∀ k x, mSessionMap st !! k = Some x → k.1 = c → uid x ≠ OFFLINE_UID →
              state x ≠ NOT_STARTED →
              (∃ es, mEffects st' = mEffects st ++ es ∧ TranscoderStop k.1 k.2 ∈ es)
              ∧ ∃ pre post st1,
                  realtimeSessionsOf c st = pre ++ k :: post
                  ∧ cancelLoop env pre st = Some st1
                  ∧ mSessionMap st1 !! k = Some x
                  ∧ cancelOne env k st1
                    = removeSession_l env k (emit (TranscoderStop k.1 k.2) st1)).
Proof.
  intros [H Hc]%reachable_Inv Hs. unfold cancel. rewrite decide_True by done.
  pose proof (realtimeSessionsOf_NoDup c st) as Hnd.
  assert (∀ k, k ∈ realtimeSessionsOf c st → is_Some (mSessionMap st !! k)) as Hreg.
  { intros k (x & Hx & _)%realtimeSessionsOf_elem_of. eauto. }
  destruct (cancelLoop_wf env _ st H Hnd Hreg)
    as (st1 & E1 & H1 & Hm1 & _ & es1 & He1 & Hstop).
  rewrite E1. simpl.
  destruct (updateCurrentSession_l_wf env st1 H1)
    as (st2 & -> & H2 & _ & _ & _ & Hsame & es2 & He2).
  simpl. rewrite (validated_wf _ (proj1 H2)). simpl.
  eexists. split; [done|].
  assert (∀ k, is_Some (mSessionMap st2 !! k)
            ↔ ∃ x, mSessionMap st !! k = Some x
                   ∧ ¬ (k.1 = c ∧ uid x ≠ OFFLINE_UID)) as Hdom.
  { intros k. rewrite (sameButState_is_Some _ _ _ Hsame), Hm1.
    destruct (decide (k ∈ realtimeSessionsOf c st)) as [Hin|Hnin].
    - split; [by intros [? ?]|]. intros (x & Hx & Hn).
      apply realtimeSessionsOf_elem_of in Hin as (y & Hy & ? & ?).
      destruct Hn. split; congruence.
    - split.
      + intros [x Hx]. exists x. split; [done|]. intros [? ?]. apply Hnin.
        apply realtimeSessionsOf_elem_of. eauto.
      + intros (x & Hx & _). eauto. }
  split_and!.
  - exact Hdom.
  - intros k x Hx Hk Hu. apply Hdom. exists x. split; [done|]. tauto.
  - intros k x Hx Hk Hu Hst.
    assert (k ∈ realtimeSessionsOf c st) as Hin
      by (apply realtimeSessionsOf_elem_of; eauto).
    split.
    + exists (es1 ++ es2). split; [by rewrite He2, He1, app_assoc|].
      apply elem_of_app. left. by apply (Hstop k x).
    + apply list_elem_of_split in Hin as (pre & post & Esplit).
      rewrite Esplit in Hnd, Hreg.
      apply NoDup_app in Hnd as (Hndpre & Hdisj & _).
      destruct (cancelLoop_wf env pre st H Hndpre)
        as (stp & Ep & Hp & Hmp & _).
      { intros k' Hk'. apply Hreg, elem_of_app. by left. }
      exists pre, post, stp. split_and!; try done.
      * rewrite Hmp. rewrite decide_False; [done|].
        intros Hk'. apply (Hdisj _ Hk'). by left.
      * unfold cancelOne.
        assert (mSessionMap stp !! k = Some x) as Hxp.
        { rewrite Hmp. rewrite decide_False; [done|].
          intros Hk'. apply (Hdisj _ Hk'). by left. }
        rewrite (touchSession_registered _ _ _ Hxp), (sessionOf_Some _ _ _ Hxp).
        by rewrite decide_True.
Qed.

(** C4, amended: for a registered session that is not NOT_STARTED,
    [onFinish] calls the client's callback if it can still be locked, then
    removes the session from the registry and from every queue, keeps all
    other sessions, and leaves the current-session pointer on the top
    session. *)
Theorem onFinish_started env c s x st :
  reachable st → mSessionMap st !! (c, s) = Some x → state x ≠ NOT_STARTED →
  ∃ st',
    onFinish env c s st = Some st'
    ∧ (∃ es, mEffects st'
             = mEffects st
               ++ (if lockCallback env (callback x)
                   then [ClientFinished (callback x) s s (-1)] else [])
               ++ es)
    ∧ mSessionMap st' !! (c, s) = None
    ∧ (∀ u, (c, s) ∉ queueOf u st')
    ∧ (∀ k, k ≠ (c, s) → is_Some (mSessionMap st' !! k) ↔ is_Some (mSessionMap st !! k))
    ∧ mCurrentSession st' = topSession st'.
Proof.
  intros [H Hc]%reachable_Inv Hx Hst. unfold onFinish, notifyClient.
  rewrite Hx. rewrite decide_False by done. cbv zeta.
  set (st0 := callClient env (c, s) (λ cb, ClientFinished cb s s (-1)) st).
  destruct (callClient_fields env (c, s) (λ cb, ClientFinished cb s s (-1)) st)
    as (Fm & _).
  fold st0 in Fm.
  destruct (removeAndUpdate_Inv env (c, s) x st0)
    as (st' & E & [H' Hc'] & Hsame & es & He).
  { by apply wf_callClient. }
  { by rewrite Fm. }
  exists st'. split; [exact E|]. split_and!.
  - exists es. rewrite He. unfold st0, callClient.
    rewrite (sessionOf_Some _ _ _ Hx).
    destruct (lockCallback env (callback x)); simpl; by rewrite <-?app_assoc.
  - specialize (Hsame (c, s)). rewrite lookup_delete_eq in Hsame.
    by destruct (mSessionMap st' !! (c, s)).
  - intros u (y & Hy & _)%(wf_queue _ H').
    specialize (Hsame (c, s)). rewrite lookup_delete_eq, Hy in Hsame. done.
  - intros k Hk. rewrite (sameButState_is_Some _ _ _ Hsame).
    by rewrite lookup_delete_ne, Fm.
  - done.
Qed.

(** [onFinish] for a session that was never started changes nothing. *)
Lemma onFinish_never_started env c s x st :
  mSessionMap st !! (c, s) = Some x → state x = NOT_STARTED →
  onFinish env c s st = Some st.
Proof.
  intros Hx Hs. unfold onFinish, notifyClient. rewrite Hx. by rewrite decide_True.
Qed.

Lemma submit_while_resource_lost_witness :
  reachable lostState ∧ mResourceLost lostState = true
  ∧ mSessionMap lostState !! (3, 1) = None
  ∧ ∃ st',
    submit envTop 3 1 300 realtime 9 lostState = Some (true, st')
    ∧ mSessionMap st' !! (3, 1)
      = Some (mkSession (3, 1) (queueUid 300 realtime) NOT_STARTED 0 realtime 9)
    ∧ (∃ es, mEffects st' = mEffects lostState ++ es
             ∧ ∀ e, e ∈ es → e = RegisterMonitorUid (queueUid 300 realtime))
    ∧ (∃ t x,
         mCurrentSession st' = Some t ∧ topSession st' = Some t
         ∧ mSessionMap st' !! t = Some x ∧ state x ≠ RUNNING
         ∧ ∀ env', ∃ st'',
             onResourceAvailable env' st' = Some st''
             ∧ mCurrentSession st'' = Some t
             ∧ mSessionMap st'' !! t = Some (setState RUNNING x)
             ∧ mEffects st''
               = mEffects st'
                 ++ [if decide (state x = NOT_STARTED)
                     then TranscoderStart t.1 t.2 (request x)
                            (if lockCallback env' (callback x)
                             then Some (callback x) else None)
                     else TranscoderResume t.1 t.2 (request x)
                            (if lockCallback env' (callback x)
                             then Some (callback x) else None)]).
Proof.
  assert (reachable lostState) as Hr by (exists lostOps; vm_compute; reflexivity).
  assert (mResourceLost lostState = true) as Hl by (vm_compute; reflexivity).
  assert (mSessionMap lostState !! (3, 1) = None) as Hk by (vm_compute; reflexivity).
  split; [exact Hr|]. split; [exact Hl|]. split; [exact Hk|].
  exact (submit_while_resource_lost envTop 3 1 300 realtime 9 lostState Hr Hl Hk).
Defined.

Lemma cancel_all_realtime_witness :
  reachable demoState ∧ -1 < 0
  ∧ ∃ st',
    cancel envTop 1 (-1) demoState = Some (true, st')
    ∧ (∀ k, is_Some (mSessionMap st' !! k)
            ↔ ∃ x, mSessionMap demoState !! k = Some x
                   ∧ ¬ (k.1 = 1 ∧ uid x ≠ OFFLINE_UID))
    ∧ (∀ k x, mSessionMap demoState !! k = Some x → k.1 = 1 →
              uid x = OFFLINE_UID → is_Some (mSessionMap st' !! k))
    ∧ (∀ k x, mSessionMap demoState !! k = Some x → k.1 = 1 →
              uid x ≠ OFFLINE_UID → state x ≠ NOT_STARTED →
              (∃ es, mEffects st' = mEffects demoState ++ es
                     ∧ TranscoderStop k.1 k.2 ∈ es)
              ∧ ∃ pre post st1,
                  realtimeSessionsOf 1 demoState = pre ++ k :: post
                  ∧ cancelLoop envTop pre demoState = Some st1
                  ∧ mSessionMap st1 !! k = Some x
                  ∧ cancelOne envTop k st1
                    = removeSession_l envTop k (emit (TranscoderStop k.1 k.2) st1)).
Proof.
  assert (reachable demoState) as Hr by (exists demoOps; vm_compute; reflexivity).
  assert (-1 < 0) as Hneg by lia.
  split; [exact Hr|]. split; [exact Hneg|].
  exact (cancel_all_realtime envTop 1 (-1) demoState Hr Hneg).
Defined.

Lemma onFinish_started_witness :
  reachable demoState
  ∧ mSessionMap demoState !! (1, 1) = Some (mkSession (1, 1) 100 RUNNING 0 realtime 7)
  ∧ state (mkSession (1, 1) 100 RUNNING 0 realtime 7) ≠ NOT_STARTED
  ∧ ∃ st',
    onFinish envTop 1 1 demoState = Some st'
    ∧ (∃ es, mEffects st'
             = mEffects demoState
               ++ (if lockCallback envTop
                        (callback (mkSession (1, 1) 100 RUNNING 0 realtime 7))
                   then [ClientFinished
                           (callback (mkSession (1, 1) 100 RUNNING 0 realtime 7))
                           1 1 (-1)]
                   else [])
               ++ es)
    ∧ mSessionMap st' !! (1, 1) = None
    ∧ (∀ u, (1, 1) ∉ queueOf u st')
    ∧ (∀ k, k ≠ (1, 1) →
            is_Some (mSessionMap st' !! k) ↔ is_Some (mSessionMap demoState !! k))
    ∧ mCurrentSession st' = topSession st'.
Proof.
  assert (reachable demoState) as Hr by (exists demoOps; vm_compute; reflexivity).
  assert (mSessionMap demoState !! (1, 1)
          = Some (mkSession (1, 1) 100 RUNNING 0 realtime 7)) as Hx
    by (vm_compute; reflexivity).
  assert (state (mkSession (1, 1) 100 RUNNING 0 realtime 7) ≠ NOT_STARTED) as Hs
    by (simpl; discriminate).
  split; [exact Hr|]. split; [exact Hx|]. split; [exact Hs|].
  exact (onFinish_started envTop 1 1 _ demoState Hr Hx Hs).
Defined.

(** C4 as the claim words it fails on a session that waits in its queue:
    session (2, 2) is registered and was never started; [onFinish] for it
    returns with the controller unchanged, the session still registered and
    no callback called. *)
Lemma onFinish_not_started_counterexample :
  reachable demoState
  ∧ mSessionMap demoState !! (2, 2)
    = Some (mkSession (2, 2) 200 NOT_STARTED 0 realtime 8)
  ∧ onFinish envTop 2 2 demoState = Some demoState
  ∧ ¬ (∃ st', onFinish envTop 2 2 demoState = Some st'
              ∧ mSessionMap st' !! (2, 2) = None).
Proof.
  assert (mSessionMap demoState !! (2, 2)
          = Some (mkSession (2, 2) 200 NOT_STARTED 0 realtime 8)) as Hx
    by (vm_compute; reflexivity).
  assert (onFinish envTop 2 2 demoState = Some demoState) as Hf
    by exact (onFinish_never_started envTop 2 2 _ demoState Hx eq_refl).
  split; [exists demoOps; vm_compute; reflexivity|].
  split; [exact Hx|]. split; [exact Hf|].
  intros (st' & E & Hn).
  assert (st' = demoState) as -> by congruence.
  congruence.
Qed.

(** The scenarios of preemption and of resource loss, run on the model. *)
Example preemption_by_top_uid_change :
  mEffects <$> run [Submit envTop 1 1 100 realtime 7;
                    Submit envBack 2 2 200 realtime 8;
                    OnTopUidsChanged envTop {[200]};
                    OnTopUidsChanged envTop {[100]}] initial
  = Some [RegisterMonitorUid 100; TranscoderStart 1 1 realtime (Some 7);
          RegisterMonitorUid 200;
          TranscoderPause 1 1; TranscoderStart 2 2 realtime (Some 8);
          TranscoderPause 2 2; TranscoderResume 1 1 realtime (Some 7)].
Proof. vm_compute. reflexivity. Qed.

Example resource_loss_and_recovery :
  mEffects <$> run [Submit envTop 1 1 100 realtime 7;
                    OnResourceLost envTop;
                    Submit envTop 3 1 300 realtime 9;
                    OnResourceAvailable envTop] initial
  = Some [RegisterMonitorUid 100; TranscoderStart 1 1 realtime (Some 7);
          ClientPaused 7 1; RegisterMonitorUid 300;
          TranscoderStart 3 1 realtime (Some 9)].
Proof. vm_compute. reflexivity. Qed.

Example offline_routing :
  (λ st, (mEffects st, mUidSortedList st, queueOf OFFLINE_UID st))
    <$> run [Submit envTop 5 1 500 offline 7] initial
  = Some ([TranscoderStart 5 1 offline (Some 7)], [OFFLINE_UID], [(5, 1)]).
Proof. vm_compute. reflexivity. Qed.

Example cancel_follows_key_order :
  mEffects <$> run [Submit envTop 1 5 100 realtime 7;
                    Submit envTop 1 2 200 realtime 7;
                    Cancel envTop 1 (-1)] initial
  = Some [RegisterMonitorUid 100; TranscoderStart 1 5 realtime (Some 7);
          RegisterMonitorUid 200; TranscoderPause 1 5;
          TranscoderStart 1 2 realtime (Some 7);
          TranscoderStop 1 2; UnregisterMonitorUid 200;
          TranscoderStop 1 5; UnregisterMonitorUid 100].
Proof. vm_compute. reflexivity. Qed.

(** *** Further properties of the session controller *)

Lemma run_app ops1 ops2 st :
  run (ops1 ++ ops2) st = st1 ← run ops1 st; run ops2 st1.
Proof.
  revert st. induction ops1 as [|op ops1 IH]; intros st; simpl; [done|].
  destruct (step op st) as [st1|]; simpl; [apply IH|done].
Qed.

Lemma reachable_step op st st' :
  reachable st → step op st = Some st' → reachable st'.
Proof.
  intros [ops Hrun] Hstep. exists (ops ++ [op]).
  rewrite run_app, Hrun. simpl. by rewrite Hstep.
Qed.

(** X1: from a reachable state every public operation returns: no
    [LOG_ALWAYS_FATAL_IF] of [validateState_l] fires and nothing empty or
    dangling is dereferenced; the state it leaves is reachable and passes
    [validateState_l]. *)
Theorem public_operations_return op st :
  reachable st →
  ∃ st', step op st = Some st' ∧ reachable st' ∧ validateState_l st' = true.
Proof.
  intros Hr. destruct (step_Inv op st (reachable_Inv _ Hr)) as (st' & Hstep & HI).
  exists st'. split; [done|]. split; [by eapply reachable_step|].
  apply validateState_l_wf, HI.
Qed.

(** X2: in every reachable state the uid list, the queues and the registry
    agree: the list repeats no uid, ends with the offline uid and has as
    many entries as there are queues; a queue belongs to a listed uid,
    repeats no key and, unless it is the offline one, is not empty; a key
    is in the queue of a uid exactly when it is registered with that uid;
    a session is stored under its own key; the registry has as many
    sessions as the queues have keys. *)
Theorem registry_matches_queues st :
  reachable st →
  NoDup (mUidSortedList st)
  ∧ last (mUidSortedList st) = Some OFFLINE_UID
  ∧ length (mUidSortedList st) = size (mSessionQueues st)
  ∧ (∀ u q, mSessionQueues st !! u = Some q →
            u ∈ mUidSortedList st ∧ NoDup q ∧ (u ≠ OFFLINE_UID → q ≠ []))
  ∧ (∀ k u q, mSessionQueues st !! u = Some q →
              k ∈ q ↔ ∃ s, mSessionMap st !! k = Some s ∧ uid s = u)
  ∧ (∀ k s, mSessionMap st !! k = Some s →
            key s = k ∧ ∃ q, mSessionQueues st !! uid s = Some q ∧ k ∈ q)
  ∧ size (mSessionMap st)
    = sum_list (map (λ u, length (queueOf u st)) (mUidSortedList st)).
Proof.
  intros [H _]%reachable_Inv. split_and!; try apply H.
  - by apply wf_uids_count.
  - intros u q Hq.
    assert (queueOf u st = q) as Eq by (unfold queueOf; by rewrite Hq).
    assert (u ∈ mUidSortedList st) as Hu by (apply (wf_dom _ H); eauto).
    split_and!; [done|rewrite <-Eq; apply H|].
    intros Hne. rewrite <-Eq. by apply H.
  - intros k u q Hq. rewrite <-(wf_queue _ H). unfold queueOf. by rewrite Hq.
  - intros k s Hs. split; [by apply H|].
    pose proof (wf_session_queued _ _ _ H Hs) as Hin. unfold queueOf in Hin.
    destruct (mSessionQueues st !! uid s) as [q|]; [eauto|].
    by apply elem_of_nil in Hin.
  - by apply wf_sessions_count.
Qed.

Lemma wf_empty_shape st :
  wf st → mSessionMap st = ∅ →
  mUidSortedList st = [OFFLINE_UID]
  ∧ mSessionQueues st = {[ OFFLINE_UID := [] ]}
  ∧ mCurrentSession st = None.
Proof.
  intros H He.
  assert (∀ u, queueOf u st = []) as Hq.
  { intros u. destruct (queueOf u st) as [|k q] eqn:E; [done|].
    destruct (wf_queue _ H k u) as [Hx _].
    destruct Hx as (s & Hs & _); [rewrite E; by left|].
    by rewrite He, lookup_empty in Hs. }
  assert (∀ u, u ∈ mUidSortedList st → u = OFFLINE_UID) as Hall.
  { intros u Hu. destruct (decide (u = OFFLINE_UID)); [done|].
    by destruct (wf_nonempty _ H u Hu). }
  assert (mUidSortedList st = [OFFLINE_UID]) as El.
  { pose proof (wf_nodup _ H) as Hnd. pose proof (wf_last _ H) as Hl.
    destruct (mUidSortedList st) as [|u l] eqn:E; [done|].
    assert (u = OFFLINE_UID) as -> by (apply Hall; by left).
    destruct l as [|v l]; [done|].
    assert (v = OFFLINE_UID) as -> by (apply Hall; right; by left).
    apply NoDup_cons in Hnd as [Hn _]. destruct Hn. by left. }
  split_and!; [done| |].
  - apply map_eq. intros u. destruct (decide (u = OFFLINE_UID)) as [->|Hne].
    + rewrite lookup_singleton_eq.
      destruct (proj1 (wf_dom _ H OFFLINE_UID)) as [q Eq]; [rewrite El; by left|].
      specialize (Hq OFFLINE_UID). unfold queueOf in Hq. rewrite Eq in Hq.
      simpl in Hq. by rewrite Eq, Hq.
    + rewrite lookup_singleton_ne by done.
      destruct (mSessionQueues st !! u) as [q|] eqn:Eq; [|done].
      assert (u ∈ mUidSortedList st) as Hu by (apply (wf_dom _ H); eauto).
      rewrite El in Hu. by apply list_elem_of_singleton in Hu.
  - destruct (mCurrentSession st) as [k|] eqn:Ec; [|done].
    destruct (wf_cur _ H k Ec) as [s Hs]. by rewrite He, lookup_empty in Hs.
Qed.

(** X3: a reachable state with no session registered has the shape the
    constructor leaves: only the offline uid listed, only its queue, empty,
    and no current session. *)
Theorem empty_registry_is_initial_shape st :
  reachable st → mSessionMap st = ∅ →
  mUidSortedList st = [OFFLINE_UID]
  ∧ mSessionQueues st = {[ OFFLINE_UID := [] ]}
  ∧ mCurrentSession st = None.
Proof. intros [H _]%reachable_Inv. by apply wf_empty_shape. Qed.

(** X4: while the resource-lost flag is set, no registered session is in
    state RUNNING. *)
Theorem no_session_runs_while_resource_lost st k s :
  reachable st → mResourceLost st = true →
  mSessionMap st !! k = Some s → state s ≠ RUNNING.
Proof. intros [H _]%reachable_Inv. by apply wf_no_running_when_lost. Qed.

Lemma sameIdentity_refl s : sameIdentity s s.
Proof. by repeat split. Qed.

Lemma sameIdentity_setState v s : sameIdentity s (setState v s).
Proof. by repeat split. Qed.

Lemma identitiesKept_refl m : identitiesKept m m.
Proof. intros k s s' H1 H2. rewrite H1 in H2. injection H2 as <-. apply sameIdentity_refl. Qed.

Lemma identitiesKept_sameButState m m' : sameButState m m' → identitiesKept m m'.
Proof.
  intros Hsame k s s' H1 H2.
  destruct (sameButState_Some _ _ _ _ Hsame H2) as (s0 & H0 & ->).
  rewrite H1 in H0. injection H0 as <-. apply sameIdentity_setState.
Qed.

(** After [updateCurrentSession_l] the top session runs, unless the
    resources are lost. *)
Lemma updateCurrentSession_l_runs env st :
  wf st →
  ∃ st', updateCurrentSession_l env st = Some st' ∧ Inv st' ∧ topRuns st'
    ∧ mResourceLost st' = mResourceLost st
    ∧ sameButState (mSessionMap st) (mSessionMap st').
Proof.
  intros H.
  destruct (updateCurrentSession_l_wf env st H)
    as (st' & E & HI & El & Eq & Elost & Hsame & _).
  exists st'. split_and!; try done.
  intros Hl t Ht.
  assert (topSession st = Some t) as Ht0.
  { rewrite <-Ht. symmetry. by apply topSession_ext. }
  destruct (wf_top_registered _ _ H Ht0) as [ts Hts].
  rewrite Hl in Elost.
  unfold updateCurrentSession_l in E.
  rewrite (getTopSession_l_wf _ H), Ht0 in E. simpl in E.
  rewrite (sessionOf_Some _ _ _ Hts) in E.
  destruct (decide (Some t ≠ mCurrentSession st ∨ state ts ≠ RUNNING)) as [Hgo|Hno].
  2:{ injection E as <-. unfold sessionOf. simpl. rewrite Hts. simpl.
      destruct (decide (state ts = RUNNING)); [done|]. destruct Hno. by right. }
  assert (∀ st1, mResourceLost st1 = false → is_Some (mSessionMap st1 !! t) →
    Some (withCurrentSession (Some t)
            (if mResourceLost st1 then st1
             else updateSession t (setState RUNNING)
                    (startOrResume env (sessionOf t st1) st1))) = Some st' →
    state (sessionOf t st') = RUNNING) as Hfin.
  { intros st1 Hl1 [x Hx] E1. rewrite Hl1 in E1. injection E1 as <-.
    unfold sessionOf, updateSession. simpl.
    rewrite (proj1 (startOrResume_fields _ _ _)), lookup_alter_eq, Hx. done. }
  destruct (mCurrentSession st) as [cur|] eqn:Ecur; simpl in E.
  - destruct (wf_cur _ H _ Ecur) as [c Hc]. rewrite Hc in E. simpl in E.
    destruct (decide (state c = RUNNING)); simpl in E.
    + refine (Hfin (updateSession cur (setState PAUSED)
                      (emit (TranscoderPause (key c).1 (key c).2) st))
                (eq_sym Elost) _ E).
      unfold updateSession. simpl. rewrite lookup_alter_is_Some. eauto.
    + exact (Hfin st (eq_sym Elost) (ex_intro _ ts Hts) E).
  - exact (Hfin st (eq_sym Elost) (ex_intro _ ts Hts) E).
Qed.

Lemma topRuns_ext st st' :
  mUidSortedList st' = mUidSortedList st →
  mSessionQueues st' = mSessionQueues st →
  mResourceLost st' = mResourceLost st →
  (∀ k, state <$> mSessionMap st' !! k = state <$> mSessionMap st !! k) →
  wf st → topRuns st → topRuns st'.
Proof.
  intros El Eq Elost Hst H Hruns Hl t Ht.
  rewrite (topSession_ext _ _ El Eq) in Ht. rewrite Elost in Hl.
  pose proof (Hruns Hl t Ht) as Hr.
  destruct (wf_top_registered _ _ H Ht) as [ts Hts].
  rewrite (sessionOf_Some _ _ _ Hts) in Hr.
  specialize (Hst t). rewrite Hts in Hst. simpl in Hst.
  unfold sessionOf. destruct (mSessionMap st' !! t) as [s'|]; [|done].
  simpl in *. congruence.
Qed.

(** [onResourceLost] in full. *)
Lemma onResourceLost_spec env st :
  Inv st → mResourceLost st = false →
  ∃ st', onResourceLost env st = Some st' ∧ Inv st'
    ∧ mResourceLost st' = true
    ∧ mUidSortedList st' = mUidSortedList st
    ∧ mSessionQueues st' = mSessionQueues st
    ∧ mCurrentSession st' = mCurrentSession st
    ∧ mSessionMap st' = pauseIfRunning <$> mSessionMap st
    ∧ mEffects st'
      = mEffects st
        ++ match mCurrentSession st with
           | Some cur =>
               let c := sessionOf cur st in
               if decide (state c = RUNNING) then
                 if lockCallback env (callback c)
                 then [ClientPaused (callback c) cur.2] else []
               else []
           | None => []
           end.
Proof.
  intros HI Hl. destruct (onResourceLost_Inv env st HI) as (st' & E & HI').
  exists st'. split; [done|]. split; [done|].
  destruct HI as [H Hc].
  unfold onResourceLost in E. rewrite Hl in E.
  assert (∀ k x, mSessionMap st !! k = Some x → state x = RUNNING →
                 mCurrentSession st = Some k) as Hrun.
  { intros k x Hx Hr. by destruct (wf_running _ H _ _ Hx Hr). }
  destruct (mCurrentSession st) as [cur|] eqn:Ecur; simpl in E.
  - destruct (wf_cur _ H _ Ecur) as [c Hcs]. rewrite Hcs in E. simpl in E.
    rewrite (sessionOf_Some _ _ _ Hcs). cbv zeta.
    pose proof (wf_key _ H _ _ Hcs) as Hkey.
    destruct (decide (state c = RUNNING)) as [Hr|Hr]; simpl in E.
    + assert (alter (setState PAUSED) cur (mSessionMap st)
              = pauseIfRunning <$> mSessionMap st) as Hmap.
      { apply map_eq. intros k. rewrite lookup_fmap.
        destruct (decide (cur = k)) as [<-|Hne].
        - rewrite lookup_alter_eq, Hcs. simpl. unfold pauseIfRunning.
          by rewrite decide_True.
        - rewrite lookup_alter_ne by done.
          destruct (mSessionMap st !! k) as [x|] eqn:Ex; [|done]. simpl.
          unfold pauseIfRunning. rewrite decide_False; [done|].
          intros Hx. specialize (Hrun _ _ Ex Hx). congruence. }
      destruct (lockCallback env (callback c));
        unfold validated in E;
        destruct (validateState_l _); [|done| |done];
        injection E as <-; simpl; rewrite ?Hkey, ?app_nil_r; by split_and!.
    + assert (mSessionMap st = pauseIfRunning <$> mSessionMap st) as Hmap.
      { apply map_eq. intros k. rewrite lookup_fmap.
        destruct (mSessionMap st !! k) as [x|] eqn:Ex; [|done]. simpl.
        unfold pauseIfRunning. rewrite decide_False; [done|].
        intros Hx. specialize (Hrun _ _ Ex Hx). congruence. }
      unfold validated in E. destruct (validateState_l _); [|done].
      injection E as <-. simpl. rewrite app_nil_r. by split_and!.
  - assert (mSessionMap st = pauseIfRunning <$> mSessionMap st) as Hmap.
    { apply map_eq. intros k. rewrite lookup_fmap.
      destruct (mSessionMap st !! k) as [x|] eqn:Ex; [|done]. simpl.
      unfold pauseIfRunning. rewrite decide_False; [done|].
      intros Hx. specialize (Hrun _ _ Ex Hx). congruence. }
    unfold validated in E. destruct (validateState_l _); [|done].
    injection E as <-. simpl. rewrite app_nil_r. by split_and!.
Qed.

(** The common end of the operations: pick the session to run, validate. *)
Lemma update_and_validate env st :
  wf st →
  ∃ st', (st1 ← updateCurrentSession_l env st; validated st1) = Some st'
    ∧ Inv st' ∧ topRuns st'
    ∧ mUidSortedList st' = mUidSortedList st
    ∧ mSessionQueues st' = mSessionQueues st
    ∧ mResourceLost st' = mResourceLost st
    ∧ sameButState (mSessionMap st) (mSessionMap st')
    ∧ ∃ es, mEffects st' = mEffects st ++ es.
Proof.
  intros H.
  destruct (updateCurrentSession_l_runs env st H) as (st' & E & HI & Hr & _).
  destruct (updateCurrentSession_l_wf env st H)
    as (st'' & E' & _ & El & Eq & Elost & Hsame & Hes).
  rewrite E in E'. injection E' as <-.
  exists st'. rewrite E. simpl. rewrite (validated_wf _ (proj1 HI)).
  by split_and!.
Qed.

Lemma submit_spec env c s u req cb st :
  wf st → mSessionMap st !! (c, s) = None →
  ∃ st', submit env c s u req cb st = Some (true, st')
    ∧ Inv st' ∧ topRuns st'
    ∧ mResourceLost st' = mResourceLost st
    ∧ sameButState
        (<[(c, s) := mkSession (c, s) (queueUid u req) NOT_STARTED 0 req cb]>
           (mSessionMap st))
        (mSessionMap st').
Proof.
  intros H Hk. rewrite submit_unfold.
  rewrite decide_False by (rewrite Hk; by intros [? ?]).
  destruct (submitQueued_wf env (c, s) u req cb st H Hk)
    as (st2 & -> & H2 & Hm2 & _ & Hl2 & _).
  simpl.
  destruct (update_and_validate env st2 H2)
    as (st' & E & HI & Hr & _ & _ & Hl & Hsame & _).
  destruct (updateCurrentSession_l env st2) as [st3|]; [|done]. simpl in *.
  rewrite E. simpl. exists st'. split_and!; try done; [congruence|].
  by rewrite <-Hm2.
Qed.

Lemma cancelLoop_spec env ks st :
  wf st → NoDup ks → (∀ k, k ∈ ks → is_Some (mSessionMap st !! k)) →
  ∃ st', (st1 ← cancelLoop env ks st; st2 ← updateCurrentSession_l env st1;
          st3 ← validated st2; Some (true, st3)) = Some (true, st')
    ∧ Inv st' ∧ topRuns st'
    ∧ mResourceLost st' = mResourceLost st
    ∧ sameButState (filter (λ kx, kx.1 ∉ ks) (mSessionMap st)) (mSessionMap st')
    ∧ ∃ es, mEffects st' = mEffects st ++ es.
Proof.
  intros H Hnd Hreg.
  destruct (cancelLoop_wf env ks st H Hnd Hreg)
    as (st1 & -> & H1 & Hm1 & Hl1 & es1 & He1 & _).
  simpl.
  destruct (update_and_validate env st1 H1)
    as (st' & E & HI & Hr & _ & _ & Hl & Hsame & es & He).
  destruct (updateCurrentSession_l env st1) as [st2|]; [|done]. simpl in *.
  rewrite E. simpl. exists st'. split_and!; try done; [congruence| |].
  - intros k. specialize (Hsame k). rewrite Hm1 in Hsame.
    destruct (decide (k ∈ ks)) as [Hin|Hnin].
    + rewrite map_lookup_filter_None_2; [done|]. right. intros x _ Hx. by destruct Hx.
    + destruct (mSessionMap st !! k) as [x|] eqn:Ex.
      * by rewrite (map_lookup_filter_Some_2 _ _ k x).
      * rewrite map_lookup_filter_None_2; [done|]. by left.
  - exists (es1 ++ es). by rewrite He, He1, app_assoc.
Qed.

Lemma identitiesKept_filter (P : (Z * Z) * Session → Prop) `{!∀ x, Decision (P x)}
    (m m' : gmap (Z * Z) Session) :
  sameButState (filter P m) m' → identitiesKept m m'.
Proof.
  intros Hsame k s s' H1 H2.
  destruct (sameButState_Some _ _ _ _ Hsame H2) as (s0 & H0 & ->).
  apply map_lookup_filter_Some in H0 as [H0 _].
  rewrite H1 in H0. injection H0 as <-. apply sameIdentity_setState.
Qed.

Lemma removeAndUpdate_spec env k x st :
  wf st → mSessionMap st !! k = Some x →
  ∃ st', (st1 ← removeSession_l env k st;
          st2 ← updateCurrentSession_l env st1; validated st2) = Some st'
    ∧ Inv st' ∧ topRuns st'
    ∧ mResourceLost st' = mResourceLost st
    ∧ sameButState (delete k (mSessionMap st)) (mSessionMap st')
    ∧ ∃ es, mEffects st' = mEffects st ++ es.
Proof.
  intros H Hk.
  destruct (removeSession_l_wf env k x st H Hk)
    as (st1 & -> & H1 & Hm1 & Hl1 & _ & He1).
  simpl.
  destruct (update_and_validate env st1 H1)
    as (st' & E & HI & Hr & _ & _ & Hl & Hsame & es & He).
  exists st'. split_and!; try done; [congruence|by rewrite <-Hm1|].
  destruct He1 as [E1|E1]; rewrite He, E1, <-?app_assoc; by eexists.
Qed.

Lemma identitiesKept_delete (k : Z * Z) (m m' : gmap (Z * Z) Session) :
  sameButState (delete k m) m' → identitiesKept m m'.
Proof.
  intros Hsame k' s s' H1 H2.
  destruct (sameButState_Some _ _ _ _ Hsame H2) as (s0 & H0 & ->).
  apply lookup_delete_Some in H0 as [_ H0].
  rewrite H1 in H0. injection H0 as <-. apply sameIdentity_setState.
Qed.

Lemma topRuns_callClient env k e st :
  wf st → topRuns st → topRuns (callClient env k e st).
Proof.
  intros H Hr.
  destruct (callClient_fields env k e st) as (Fm & Fl & Fq & _ & Flost).
  apply (topRuns_ext st); try done. intros k'. by rewrite Fm.
Qed.

(** What every public operation keeps, beyond [Inv]. *)
Lemma step_facts op st :
  Inv st → topRuns st →
  ∃ st', step op st = Some st' ∧ Inv st' ∧ topRuns st'
         ∧ identitiesKept (mSessionMap st) (mSessionMap st').
Proof.
  intros HI Hr. pose proof (proj1 HI) as H.
  assert (∃ st', Some st = Some st' ∧ Inv st' ∧ topRuns st'
                 ∧ identitiesKept (mSessionMap st) (mSessionMap st')) as Hsame.
  { exists st. split_and!; try done. apply identitiesKept_refl. }
  assert (∀ c s (func : Z * Z → Controller → option Controller),
    (∀ x, mSessionMap st !! (c, s) = Some x →
          ∃ st', func (c, s) st = Some st' ∧ Inv st' ∧ topRuns st'
                 ∧ identitiesKept (mSessionMap st) (mSessionMap st')) →
    ∃ st', notifyClient c s func st = Some st' ∧ Inv st' ∧ topRuns st'
           ∧ identitiesKept (mSessionMap st) (mSessionMap st')) as Hnotify.
  { intros c s func Hf. unfold notifyClient.
    destruct (mSessionMap st !! (c, s)) as [x|] eqn:Ex; [|done].
    destruct (decide (state x = NOT_STARTED)); [done|]. by apply (Hf x). }
  assert (∀ env k e,
    ∃ st', Some (callClient env k e st) = Some st' ∧ Inv st' ∧ topRuns st'
           ∧ identitiesKept (mSessionMap st) (mSessionMap st')) as Hcall.
  { intros env k e. eexists. split; [done|]. split_and!.
    - by apply Inv_callClient.
    - by apply topRuns_callClient.
    - rewrite (proj1 (callClient_fields _ _ _ _)). apply identitiesKept_refl. }
  destruct op; simpl.
  - (* submit *)
    destruct (mSessionMap st !! (clientId, sessionId)) as [x|] eqn:Ex.
    + rewrite submit_duplicate by eauto. exact Hsame.
    + destruct (submit_spec env clientId sessionId u req cb st H Ex)
        as (st' & -> & HI' & Hr' & _ & Hs).
      simpl. exists st'. split_and!; try done.
      intros k y y' Hy Hy'.
      destruct (sameButState_Some _ _ _ _ Hs Hy') as (y0 & Hy0 & ->).
      rewrite lookup_insert_ne in Hy0 by congruence.
      rewrite Hy in Hy0. injection Hy0 as <-. apply sameIdentity_setState.
  - (* cancel *)
    unfold cancel. destruct (decide (sessionId < 0)).
    + destruct (cancelLoop_spec env (realtimeSessionsOf clientId st) st H)
        as (st' & -> & HI' & Hr' & _ & Hs & _).
      * apply realtimeSessionsOf_NoDup.
      * intros k (x & Hx & _)%realtimeSessionsOf_elem_of. eauto.
      * simpl. exists st'. split_and!; try done. by eapply identitiesKept_filter.
    + destruct (mSessionMap st !! (clientId, sessionId)) as [x|] eqn:Ex; [|exact Hsame].
      destruct (cancelLoop_spec env [(clientId, sessionId)] st H)
        as (st' & -> & HI' & Hr' & _ & Hs & _).
      * apply NoDup_singleton.
      * intros k ->%list_elem_of_singleton. eauto.
      * simpl. exists st'. split_and!; try done. by eapply identitiesKept_filter.
  - exact Hsame.
  - rewrite (dumpAllSessions_wf _ _ H). exact Hsame.
  - apply Hnotify. intros x Hx. apply Hcall.
  - apply Hnotify. intros x Hx. apply Hcall.
  - apply Hnotify. intros x Hx. apply Hcall.
  - (* onFinish *)
    apply Hnotify. intros x Hx.
    destruct (removeAndUpdate_spec env (clientId, sessionId) x
                (callClient env (clientId, sessionId)
                   (λ cb, ClientFinished cb sessionId sessionId (-1)) st))
      as (st' & E & HI' & Hr' & _ & Hs & _).
    { by apply wf_callClient. }
    { by rewrite (proj1 (callClient_fields _ _ _ _)). }
    exists st'. split; [exact E|]. split_and!; try done.
    rewrite (proj1 (callClient_fields _ _ _ _)) in Hs.
    by eapply identitiesKept_delete.
  - (* onError *)
    apply Hnotify. intros x Hx.
    destruct (removeAndUpdate_spec env (clientId, sessionId) x
                (callClient env (clientId, sessionId)
                   (λ cb, ClientFailed cb sessionId err) st))
      as (st' & E & HI' & Hr' & _ & Hs & _).
    { by apply wf_callClient. }
    { by rewrite (proj1 (callClient_fields _ _ _ _)). }
    exists st'. split; [exact E|]. split_and!; try done.
    rewrite (proj1 (callClient_fields _ _ _ _)) in Hs.
    by eapply identitiesKept_delete.
  - (* onProgressUpdate *)
    apply Hnotify. intros x Hx.
    destruct (callClient_fields env (clientId, sessionId)
                (λ cb, ClientProgress cb sessionId progress) st)
      as (Fm & Fl & Fq & Fc & Flost).
    eexists. split; [done|]. split_and!.
    + split; [apply wf_setLastProgress, wf_callClient, H|].
      destruct (Inv_callClient env (clientId, sessionId)
                  (λ cb, ClientProgress cb sessionId progress) st HI) as [_ E].
      exact E.
    + apply (topRuns_ext st); try done. intros k. simpl. rewrite Fm.
      destruct (decide ((clientId, sessionId) = k)) as [<-|Hne].
      * rewrite lookup_alter_eq. by destruct (mSessionMap st !! _).
      * by rewrite lookup_alter_ne.
    + intros k y y' Hy Hy'. simpl in Hy'. rewrite Fm in Hy'.
      destruct (decide ((clientId, sessionId) = k)) as [<-|Hne].
      * rewrite lookup_alter_eq, Hy in Hy'. injection Hy' as <-. by repeat split.
      * rewrite lookup_alter_ne, Hy in Hy' by done. injection Hy' as <-.
        apply sameIdentity_refl.
  - (* onResourceLost *)
    destruct (mResourceLost st) eqn:El.
    + unfold onResourceLost. rewrite El. exact Hsame.
    + destruct (onResourceLost_spec env st HI El)
        as (st' & -> & HI' & El' & _ & _ & _ & Hm & _).
      exists st'. split_and!; try done.
      * intros Hl. congruence.
      * intros k y y' Hy Hy'. rewrite Hm, lookup_fmap, Hy in Hy'.
        injection Hy' as <-. unfold pauseIfRunning.
        destruct (decide _); [apply sameIdentity_setState|apply sameIdentity_refl].
  - (* onTopUidsChanged *)
    unfold onTopUidsChanged. destruct (decide (size uids = 0%nat)); [exact Hsame|].
    destruct (moveUidsToTop_l_list uids true st) as (l' & -> & Hp & Hl);
      [apply H..|].
    simpl.
    destruct (update_and_validate env (withUidSortedList l' st))
      as (st' & E & HI' & Hr' & _ & _ & _ & Hs & _); [by apply wf_relist|].
    exists st'. split; [exact E|]. split_and!; try done.
    by apply identitiesKept_sameButState.
  - (* onResourceAvailable *)
    unfold onResourceAvailable. destruct (mResourceLost st) eqn:El; [|exact Hsame].
    destruct (update_and_validate env (withResourceLost false st))
      as (st' & E & HI' & Hr' & _ & _ & _ & Hs & _).
    { apply (wf_restate _ _ _ _ _ H); [apply sameButState_refl| |apply H].
      intros k x Hx Hrun. by destruct (wf_no_running_when_lost _ _ _ H El Hx). }
    exists st'. split; [exact E|]. split_and!; try done.
    by apply identitiesKept_sameButState.
Qed.

Lemma topRuns_initial : topRuns initial.
Proof. by intros _ t Ht. Qed.

Lemma run_topRuns ops : ∀ st,
  Inv st → topRuns st → ∃ st', run ops st = Some st' ∧ Inv st' ∧ topRuns st'.
Proof.
  induction ops as [|op ops IH]; intros st HI Hr; simpl; [eauto|].
  destruct (step_facts op st HI Hr) as (st1 & -> & H1 & Hr1 & _). simpl.
  by apply IH.
Qed.

Lemma reachable_topRuns st : reachable st → topRuns st.
Proof.
  intros [ops Hrun].
  destruct (run_topRuns ops initial Inv_initial topRuns_initial) as (st' & E & _ & Hr).
  rewrite Hrun in E. by injection E as <-.
Qed.

(** X5: in every reachable state whose resource-lost flag is clear, the
    top session, if there is one, is the current session and is in state
    RUNNING. *)
Theorem top_session_runs st t :
  reachable st → mResourceLost st = false → topSession st = Some t →
  mCurrentSession st = Some t
  ∧ ∃ s, mSessionMap st !! t = Some s ∧ state s = RUNNING.
Proof.
  intros Hr Hl Ht. pose proof (reachable_Inv _ Hr) as [H Hc].
  split; [congruence|].
  destruct (wf_top_registered _ _ H Ht) as [s Hs]. exists s. split; [done|].
  pose proof (reachable_topRuns _ Hr Hl t Ht) as Hrun.
  by rewrite (sessionOf_Some _ _ _ Hs) in Hrun.
Qed.

(** X6: no public operation changes the key, the uid, the request or the
    callback of a session that stays registered. *)
Theorem session_identity_is_kept op st st' k s s' :
  reachable st → step op st = Some st' →
  mSessionMap st !! k = Some s → mSessionMap st' !! k = Some s' →
  key s' = key s ∧ uid s' = uid s ∧ request s' = request s
  ∧ callback s' = callback s.
Proof.
  intros Hr Hstep Hs Hs'.
  destruct (step_facts op st (reachable_Inv _ Hr) (reachable_topRuns _ Hr))
    as (st'' & E & _ & _ & Hkept).
  rewrite Hstep in E. injection E as <-. exact (Hkept k s s' Hs Hs').
Qed.

Lemma updateCurrentSession_l_effects env st st' :
  updateCurrentSession_l env st = Some st' →
  ∃ es, mEffects st' = mEffects st ++ es ∧ Forall isSchedulingCall es.
Proof.
  unfold updateCurrentSession_l, getTopSession_l.
  assert (∀ u k, mEffects (touchSession k (touchQueue u st)) = mEffects st) as Ht.
  { intros u k. unfold touchSession, touchQueue.
    destruct (mSessionQueues st !! u); simpl;
      by destruct (mSessionMap _ !! k). }
  assert (∀ st0 t, ∃ es, mEffects (startOrResume env t st0) = mEffects st0 ++ es
                         ∧ Forall isSchedulingCall es) as Hsr.
  { intros st0 t. unfold startOrResume. destruct (state t); simpl.
    - eexists. split; [done|]. by repeat constructor.
    - exists []. by rewrite app_nil_r.
    - eexists. split; [done|]. by repeat constructor. }
  destruct (decide (mSessionMap st = ∅)).
  { simpl. intros [= <-]. exists []. by rewrite app_nil_r. }
  destruct (mUidSortedList st) as [|u l]; [done|].
  destruct (queueOf u (touchQueue u st)) as [|k q]; [done|]. simpl.
  set (st0 := touchSession k (touchQueue u st)).
  assert (mEffects st0 = mEffects st) as E0 by apply Ht.
  destruct (decide _) as [Hgo|Hno].
  2:{ intros [= <-]. exists []. simpl. by rewrite E0, app_nil_r. }
  assert (∀ st1 es1, mEffects st1 = mEffects st ++ es1 → Forall isSchedulingCall es1 →
    ∀ st', Some (withCurrentSession (Some k)
              (if mResourceLost st1 then st1
               else updateSession k (setState RUNNING)
                      (startOrResume env (sessionOf k st1) st1))) = Some st' →
    ∃ es, mEffects st' = mEffects st ++ es ∧ Forall isSchedulingCall es) as Hfin.
  { intros st1 es1 E1 F1 st2 [= <-]. destruct (mResourceLost st1); simpl; [eauto|].
    destruct (Hsr st1 (sessionOf k st1)) as (es2 & -> & F2).
    exists (es1 ++ es2). rewrite E1, app_assoc. split; [done|]. by apply Forall_app. }
  destruct (mCurrentSession st0) as [cur|]; simpl.
  - destruct (mSessionMap st0 !! cur) as [c|]; [|done]. simpl.
    destruct (decide (state c = RUNNING)); simpl.
    + intros E.
      refine (Hfin (updateSession cur (setState PAUSED)
                      (emit (TranscoderPause (key c).1 (key c).2) st0))
                [TranscoderPause (key c).1 (key c).2] _ _ st' E).
      * simpl. by rewrite E0.
      * by repeat constructor.
    + intros E. refine (Hfin st0 [] _ _ st' E);
        [by rewrite E0, app_nil_r|constructor].
  - intros E. refine (Hfin st0 [] _ _ st' E);
      [by rewrite E0, app_nil_r|constructor].
Qed.

Lemma withCurrentSession_same st : withCurrentSession (mCurrentSession st) st = st.
Proof. by destruct st. Qed.

(** A state that satisfies the invariant and whose top session runs is a
    fixed point of [updateCurrentSession_l]. *)
Lemma updateCurrentSession_l_fix env st :
  Inv st → topRuns st → updateCurrentSession_l env st = Some st.
Proof.
  intros [H Hc] Hruns.
  destruct (mResourceLost st) eqn:El.
  { rewrite updateCurrentSession_l_lost by done.
    by rewrite <-Hc, withCurrentSession_same. }
  unfold updateCurrentSession_l. rewrite (getTopSession_l_wf _ H). simpl.
  destruct (topSession st) as [t|] eqn:Et.
  - rewrite decide_False.
    + by rewrite <-Hc, withCurrentSession_same.
    + intros [Hne|Hne]; [congruence|]. by apply Hne, Hruns.
  - by rewrite <-Hc, withCurrentSession_same.
Qed.

(** X7: re-evaluating the current session in a reachable state changes
    nothing and calls nobody: every public operation leaves the scheduler
    settled. *)
Theorem updateCurrentSession_l_settled env st :
  reachable st → updateCurrentSession_l env st = Some st.
Proof.
  intros Hr. apply updateCurrentSession_l_fix.
  - exact (reachable_Inv _ Hr).
  - exact (reachable_topRuns _ Hr).
Qed.

(** X8: in a reachable state [submit] returns [false] exactly for a key
    that is registered already, and then changes nothing; for a fresh key
    it returns [true] and the registered keys are the old ones and the new
    one. *)
Theorem submit_accepts_fresh_keys env c s u req cb st :
  reachable st →
  ∃ r st',
    submit env c s u req cb st = Some (r, st')
    ∧ (r = false ↔ registered (c, s) st)
    ∧ (r = false → st' = st)
    ∧ (r = true → ∀ k, registered k st' ↔ k = (c, s) ∨ registered k st).
Proof.
  intros [H _]%reachable_Inv. unfold registered.
  destruct (mSessionMap st !! (c, s)) as [x|] eqn:Ex.
  - exists false, st. rewrite submit_duplicate by eauto. by split_and!.
  - destruct (submit_spec env c s u req cb st H Ex) as (st' & -> & _ & _ & _ & Hs).
    exists true, st'. split; [done|]. split; [|split].
    + split; [done|]. by intros [? ?].
    + done.
    + intros _ k. rewrite (sameButState_is_Some _ _ _ Hs), lookup_insert_is_Some.
      destruct (decide ((c, s) = k)) as [<-|Hne]; [split; eauto|].
      split; [intros [?|[_ ?]]; [done|by right]|].
      intros [->|?]; [done|by right].
Qed.

(** X9: after a successful [submit], [getSession] for the new key returns
    the submitted request, and for every other key what it returned
    before. *)
Theorem getSession_after_submit env c s u req cb st st' :
  reachable st → submit env c s u req cb st = Some (true, st') →
  getSession c s st' = Some req
  ∧ ∀ c' s', (c', s') ≠ (c, s) → getSession c' s' st' = getSession c' s' st.
Proof.
  intros [H _]%reachable_Inv Hsub.
  destruct (mSessionMap st !! (c, s)) as [x|] eqn:Ex.
  { rewrite submit_duplicate in Hsub by eauto. done. }
  destruct (submit_spec env c s u req cb st H Ex) as (st'' & E & _ & _ & _ & Hs).
  rewrite Hsub in E. injection E as <-.
  unfold getSession. split.
  - pose proof (Hs (c, s)) as Hk. rewrite lookup_insert_eq in Hk.
    destruct (mSessionMap st' !! (c, s)) as [y|]; [|done]. simpl. by rewrite Hk.
  - intros c' s' Hne. pose proof (Hs (c', s')) as Hk.
    rewrite lookup_insert_ne in Hk by done.
    destruct (mSessionMap st !! (c', s')) as [y|], (mSessionMap st' !! (c', s')) as [y'|];
      simpl; try done. by rewrite Hk.
Qed.

(** One session cancelled: the effects start with the stop, if any. *)
Lemma cancel_one_spec env c s x st :
  wf st → ¬ s < 0 → mSessionMap st !! (c, s) = Some x →
  ∃ st', cancel env c s st = Some (true, st') ∧ Inv st'
    ∧ sameButState (delete (c, s) (mSessionMap st)) (mSessionMap st')
    ∧ ∃ es, mEffects st'
            = mEffects st
              ++ (if decide (state x = NOT_STARTED) then [] else [TranscoderStop c s])
              ++ es
            ∧ Forall (λ e, e = UnregisterMonitorUid (uid x) ∨ isSchedulingCall e) es.
Proof.
  intros H Hs Hx. unfold cancel. rewrite decide_False by done. rewrite Hx.
  simpl. unfold cancelOne.
  rewrite (touchSession_registered _ _ _ Hx), (sessionOf_Some _ _ _ Hx). simpl.
  set (st0 := if decide (state x ≠ NOT_STARTED)
              then emit (TranscoderStop c s) st else st).
  assert (wf st0) as H0 by (unfold st0; destruct (decide _); [by apply wf_emit|done]).
  assert (mSessionMap st0 = mSessionMap st) as Em0 by (unfold st0; by destruct (decide _)).
  assert (mEffects st0
          = mEffects st
            ++ (if decide (state x = NOT_STARTED) then [] else [TranscoderStop c s]))
    as Ee0.
  { unfold st0. destruct (decide (state x ≠ NOT_STARTED)), (decide (state x = NOT_STARTED));
      simpl; try done. by rewrite app_nil_r. }
  destruct (removeSession_l_wf env (c, s) x st0 H0) as (st1 & -> & H1 & Hm1 & _ & _ & He1);
    [by rewrite Em0|].
  simpl.
  destruct (updateCurrentSession_l_wf env st1 H1) as (st2 & E2 & HI2 & _ & _ & _ & Hsame & _).
  destruct (updateCurrentSession_l_effects env st1 st2 E2) as (es2 & He2 & F2).
  rewrite E2. simpl. rewrite (validated_wf _ (proj1 HI2)). simpl.
  exists st2. split_and!; try done; [by rewrite <-Em0, <-Hm1|].
  destruct He1 as [E1|E1].
  - exists es2. split; [by rewrite He2, E1, Ee0, <-app_assoc|].
    eapply Forall_impl; [done|]. by right.
  - exists (UnregisterMonitorUid (uid x) :: es2).
    split; [rewrite He2, E1, Ee0; by rewrite <-!app_assoc|].
    constructor; [by left|]. eapply Forall_impl; [done|]. by right.
Qed.

(** X10: [cancel] with a session id that is not negative returns [false]
    and changes nothing when the key is not registered; otherwise it
    removes that session and no other, after calling the transcoder's stop
    exactly when the session was ever started; the only further calls are
    the uid policy's unregister and those that bring the next session to
    run. *)
Theorem cancel_one_session env c s st :
  reachable st → 0 ≤ s →
  (mSessionMap st !! (c, s) = None → cancel env c s st = Some (false, st))
  ∧ (∀ x, mSessionMap st !! (c, s) = Some x →
       ∃ st' es,
         cancel env c s st = Some (true, st')
         ∧ ¬ registered (c, s) st'
         ∧ (∀ k, k ≠ (c, s) → registered k st' ↔ registered k st)
         ∧ mEffects st'
           = mEffects st
             ++ (if decide (state x = NOT_STARTED) then [] else [TranscoderStop c s])
             ++ es
         ∧ Forall (λ e, e = UnregisterMonitorUid (uid x) ∨ isSchedulingCall e) es).
Proof.
  intros [H _]%reachable_Inv Hs. split.
  - intros Hx. unfold cancel. rewrite decide_False by lia. by rewrite Hx.
  - intros x Hx.
    destruct (cancel_one_spec env c s x st H ltac:(lia) Hx)
      as (st' & E & _ & Hsame & es & He & F).
    exists st', es. unfold registered. split_and!; try done.
    + rewrite (sameButState_is_Some _ _ _ Hsame), lookup_delete_eq. by intros [? ?].
    + intros k Hk. by rewrite (sameButState_is_Some _ _ _ Hsame), lookup_delete_ne.
Qed.

(** X11: [onError] for a registered session that is not NOT_STARTED calls
    the client's [onTranscodingFailed] with the error, if the callback can
    still be locked, removes the session and no other, and leaves the
    current-session pointer on the top session; for an unknown session or
    one that was never started it changes nothing. *)
Theorem onError_removes_started_session env c s err st :
  reachable st →
  (∀ x, mSessionMap st !! (c, s) = Some x → state x ≠ NOT_STARTED →
     ∃ st' es,
       onError env c s err st = Some st'
       ∧ mEffects st'
         = mEffects st
           ++ (if lockCallback env (callback x)
               then [ClientFailed (callback x) s err] else [])
           ++ es
       ∧ ¬ registered (c, s) st'
       ∧ (∀ k, k ≠ (c, s) → registered k st' ↔ registered k st)
       ∧ mCurrentSession st' = topSession st')
  ∧ ((∀ x, mSessionMap st !! (c, s) = Some x → state x = NOT_STARTED) →
     onError env c s err st = Some st).
Proof.
  intros [H Hc]%reachable_Inv. unfold onError, notifyClient. split.
  - intros x Hx Hst. rewrite Hx. rewrite decide_False by done. cbv zeta.
    set (st0 := callClient env (c, s) (λ cb, ClientFailed cb s err) st).
    destruct (callClient_fields env (c, s) (λ cb, ClientFailed cb s err) st)
      as (Fm & _).
    fold st0 in Fm.
    destruct (removeAndUpdate_Inv env (c, s) x st0)
      as (st' & E & [H' Hc'] & Hsame & es & He).
    { by apply wf_callClient. }
    { by rewrite Fm. }
    exists st', es. split; [exact E|]. unfold registered. split_and!.
    + rewrite He. unfold st0, callClient. rewrite (sessionOf_Some _ _ _ Hx).
      destruct (lockCallback env (callback x)); simpl; by rewrite <-?app_assoc.
    + rewrite (sameButState_is_Some _ _ _ Hsame), lookup_delete_eq. by intros [? ?].
    + intros k Hk. rewrite (sameButState_is_Some _ _ _ Hsame).
      by rewrite lookup_delete_ne, Fm.
    + done.
  - intros Hns. destruct (mSessionMap st !! (c, s)) as [x|]; [|done].
    by rewrite decide_True by eauto.
Qed.

Lemma all_of_set_listed (uids : gset Z) (l : list Z) :
  NoDup l → (∀ x, x ∈ l → x ∈ uids) → length l = size uids →
  ∀ x, x ∈ uids → x ∈ l.
Proof.
  intros Hnd Hsub Hlen x Hx.
  assert (list_to_set l = uids) as E.
  { apply set_subseteq_size_eq.
    - intros y Hy%elem_of_list_to_set. by apply Hsub.
    - rewrite size_list_to_set by done. lia. }
  rewrite <-E in Hx. by apply elem_of_list_to_set in Hx.
Qed.

Lemma filter_all {A} (P : A → Prop) `{!∀ x, Decision (P x)} (l : list A) :
  (∀ x, x ∈ l → P x) → filter P l = l.
Proof.
  induction l as [|x l IH]; intros Hall; [done|].
  rewrite filter_cons_True by (apply Hall; by left).
  f_equal. apply IH. intros y Hy. apply Hall. by right.
Qed.

Lemma moveUidsLoop_partition (uids : gset Z) (cur : Z) (pres : bool) (rest : list Z) :
  ∀ (front kept : list Z) (push : bool) (n : nat),
    NoDup (((if push then [cur] else []) ++ front) ++ rest) →
    (∀ x, x ∈ (if push then [cur] else []) ++ front → isMoved uids x) →
    length ((if push then [cur] else []) ++ front) = n →
    ∃ front',
      (moveUidsLoop uids cur pres front kept push n rest).1
      = front' ++ kept ++ filter (λ x, ¬ isMoved uids x) rest
      ∧ ∀ x, x ∈ (if (moveUidsLoop uids cur pres front kept push n rest).2
                  then [cur] else []) ++ front'
             ↔ x ∈ (if push then [cur] else []) ++ front
               ∨ (x ∈ rest ∧ isMoved uids x).
Proof.
  induction rest as [|u rest IH]; intros front kept push n Hnd Hmv Hlen; simpl.
  - exists front. split; [by rewrite app_nil_r|]. intros x. rewrite elem_of_nil. tauto.
  - fold (isMoved uids u).
    destruct (decide (isMoved uids u)) as [Hu|Hu].
    + rewrite filter_cons_False by tauto.
      set (moved := (if push then [cur] else []) ++ front) in *.
      assert ((u ∉ moved) ∧ NoDup (moved ++ rest)) as [Hum Hnd'].
      { apply NoDup_app in Hnd as (Hn1 & Hdisj & Hn2).
        apply NoDup_cons in Hn2 as [Hur Hn2]. split.
        - intros Hin. apply (Hdisj _ Hin). by left.
        - apply NoDup_app. split_and!; try done.
          intros x Hx Hxr. apply (Hdisj _ Hx). by right. }
      (* the list of moved uids after this round *)
      assert (∃ front1 push1,
        (if decide (u = cur ∧ pres = true) then (front, true)
         else (u :: front, push)) = (front1, push1)
        ∧ NoDup (((if push1 then [cur] else []) ++ front1) ++ rest)
        ∧ (∀ x, x ∈ (if push1 then [cur] else []) ++ front1 ↔ x = u ∨ x ∈ moved)
        ∧ length ((if push1 then [cur] else []) ++ front1) = S n)
        as (front1 & push1 & -> & Hnd1 & Hin1 & Hlen1).
      { destruct (decide (u = cur ∧ pres = true)) as [[-> _]|Hc].
        - exists front, true. split; [done|].
          assert (push = false) as ->.
          { destruct push; [|done]. destruct Hum. unfold moved. by left. }
          simpl in *. split_and!.
          + apply NoDup_cons. split; [|done].
            intros Hin%elem_of_app. destruct Hin as [Hin|Hin]; [by destruct Hum|].
            apply NoDup_app in Hnd as (_ & _ & Hn2).
            by apply NoDup_cons in Hn2 as [? _].
          + intros x. by rewrite elem_of_cons.
          + unfold moved in Hlen. simpl in Hlen. by rewrite Hlen.
        - exists (u :: front), push. split; [done|].
          assert ((if push then [cur] else []) ++ u :: front ≡ₚ u :: moved) as Hp.
          { symmetry. apply Permutation_middle. }
          split_and!.
          + rewrite Hp. simpl. apply NoDup_cons. split; [|done].
            intros Hin%elem_of_app. destruct Hin as [Hin|Hin]; [done|].
            apply NoDup_app in Hnd as (_ & _ & Hn2).
            by apply NoDup_cons in Hn2 as [? _].
          + intros x. by rewrite Hp, elem_of_cons.
          + rewrite Hp. simpl. by rewrite Hlen. }
      assert (∀ x, x ∈ (if push1 then [cur] else []) ++ front1 → isMoved uids x)
        as Hmv1.
      { intros x [->|Hx]%Hin1; [done|by apply Hmv]. }
      destruct (decide (S n = size uids)) as [Hsz|Hsz].
      * assert (∀ x, x ∈ rest → ¬ isMoved uids x) as Hnone.
        { intros x Hx [_ Hxu].
          pose proof Hnd1 as Hnd2. apply NoDup_app in Hnd2 as (Hn1 & Hdisj & _).
          apply (Hdisj x); [|done].
          apply (all_of_set_listed uids); try done; [|congruence].
          intros y Hy. by destruct (Hmv1 y Hy). }
        exists front1. simpl. split.
        -- by rewrite (filter_all _ _ Hnone).
        -- intros x. rewrite Hin1, elem_of_cons. split; [intros [->|?]; eauto|].
           intros [?|[[->|Hx] Hm]]; [by right|by left|]. by destruct (Hnone x).
      * destruct (IH front1 kept push1 (S n) Hnd1 Hmv1 Hlen1) as (front' & E & Hin').
        exists front'. split; [done|]. intros x. rewrite Hin', Hin1, elem_of_cons.
        split; [intros [[->|?]|[? ?]]; eauto|].
        intros [?|[[->|?] ?]]; eauto.
    + rewrite filter_cons_True by done.
      assert (NoDup (((if push then [cur] else []) ++ front) ++ rest)) as Hnd'.
      { apply NoDup_app in Hnd as (Hn1 & Hdisj & Hn2).
        apply NoDup_cons in Hn2 as [Hur Hn2].
        apply NoDup_app. split_and!; try done.
        intros x Hx Hxr. apply (Hdisj _ Hx). by right. }
      destruct (IH front (kept ++ [u]) push n Hnd' Hmv Hlen) as (front' & E & Hin').
      exists front'. split; [by rewrite E, <-app_assoc|].
      intros x. rewrite Hin', elem_of_cons.
      split; [intros [?|[? ?]]; eauto|].
      intros [?|[[->|?] ?]]; eauto. done.
Qed.

(** [moveUidsToTop_l] in full. *)
Lemma moveUidsToTop_l_spec uids pres st :
  NoDup (mUidSortedList st) → last (mUidSortedList st) = Some OFFLINE_UID →
  ∃ moved,
    moveUidsToTop_l uids pres st
    = Some (withUidSortedList
              (moved ++ filter (λ x, ¬ isMoved uids x) (mUidSortedList st)) st)
    ∧ NoDup moved
    ∧ (∀ x, x ∈ moved ↔ x ∈ mUidSortedList st ∧ isMoved uids x)
    ∧ (pres = true → ∀ cur l, mUidSortedList st = cur :: l → isMoved uids cur →
       ∃ moved', moved = cur :: moved').
Proof.
  intros Hnd Hl. unfold moveUidsToTop_l.
  destruct (decide (size uids = 0%nat)) as [Hz|Hz].
  { exists []. simpl.
    assert (∀ x, ¬ isMoved uids x) as Hno.
    { intros x [_ Hx]. apply size_empty_inv in Hz. set_solver. }
    rewrite filter_all by (intros; apply Hno).
    rewrite withUidSortedList_id. split_and!; [done|constructor| |].
    - intros x. rewrite elem_of_nil. split; [done|]. intros [_ ?]. by destruct (Hno x).
    - intros _ cur l _ Hc. by destruct (Hno cur). }
  destruct (mUidSortedList st) as [|cur l] eqn:El; [done|].
  destruct (moveUidsLoop_partition uids cur pres (cur :: l) [] [] false 0)
    as (front' & E & Hin); [done|by intros x ?%elem_of_nil|done|].
  pose proof (moveUidsLoop_perm uids cur pres (cur :: l) [] [] false 0 Hnd) as Hp.
  destruct (moveUidsLoop uids cur pres [] [] false 0 (cur :: l)) as [l' push] eqn:Eloop.
  simpl in E, Hin, Hp. specialize (Hp ltac:(done)).
  exists ((if push then [cur] else []) ++ front').
  assert ((if push then cur :: l' else l')
          = ((if push then [cur] else []) ++ front')
            ++ filter (λ x, ¬ isMoved uids x) (cur :: l)) as Elist.
  { rewrite E. by destruct push. }
  rewrite Elist. split; [done|].
  assert (NoDup (((if push then [cur] else []) ++ front')
                 ++ filter (λ x, ¬ isMoved uids x) (cur :: l))) as Hnd'.
  { rewrite <-Elist, Hp. done. }
  split_and!.
  - by apply NoDup_app in Hnd' as (? & _ & _).
  - intros x. rewrite Hin, elem_of_nil. tauto.
  - intros -> cur' l0 [= <- <-] Hc.
    assert (push = true) as ->; [|by eexists].
    revert Eloop. simpl. fold (isMoved uids cur).
    rewrite decide_True by done. rewrite decide_True by done.
    destruct (decide (1%nat = size uids)); [by intros [= _ <-]|].
    intros Eloop.
    assert (∀ rest front kept m,
              (moveUidsLoop uids cur true front kept true m rest).2 = true) as Hkeep.
    { induction rest as [|u rest IH]; intros front kept m; simpl; [done|].
      destruct (decide _); [|apply IH].
      destruct (decide (u = cur ∧ true = true));
        destruct (decide (S m = size uids)); simpl; try done; apply IH. }
    specialize (Hkeep l [] [] 1%nat). by rewrite Eloop in Hkeep.
Qed.

Lemma bind_Some_l {A B} (x : A) (f : A → option B) : (Some x ≫= f) = f x.
Proof. done. Qed.

(** [onTopUidsChanged] in full: only the uid list is rearranged by
    [moveUidsToTop_l]; [updateCurrentSession_l] acts on the new order. *)
Lemma onTopUidsChanged_spec env uids st :
  Inv st →
  ∃ st' moved,
    onTopUidsChanged env uids st = Some st'
    ∧ mUidSortedList st'
      = moved ++ filter (λ x, ¬ isMoved uids x) (mUidSortedList st)
    ∧ NoDup moved
    ∧ (∀ x, x ∈ moved ↔ x ∈ mUidSortedList st ∧ isMoved uids x)
    ∧ mSessionQueues st' = mSessionQueues st
    ∧ mResourceLost st' = mResourceLost st
    ∧ Inv st'.
Proof.
  intros HI0. pose proof (proj1 HI0) as H. unfold onTopUidsChanged.
  destruct (moveUidsToTop_l_spec uids true st (wf_nodup _ H) (wf_last _ H))
    as (moved & E & Hnd & Hin & _).
  destruct (decide (size uids = 0%nat)) as [Hz|Hz].
  { unfold moveUidsToTop_l in E. rewrite decide_True in E by done.
    injection E as E. exists st, moved.
    split; [done|]. split; [by rewrite E at 1|]. by split_and!. }
  destruct (moveUidsToTop_l_list uids true st (wf_nodup _ H) (wf_last _ H))
    as (l' & E' & Hp & Hl).
  rewrite E in E'. injection E' as El'.
  rewrite E. simpl.
  assert (wf (withUidSortedList
                (moved ++ filter (λ x, ¬ isMoved uids x) (mUidSortedList st)) st))
    as H1.
  { rewrite El'. by apply wf_relist. }
  destruct (update_and_validate env _ H1)
    as (st' & Eu & HI & _ & Elist & Eq & Elost & _).
  exists st', moved. split; [exact Eu|]. by split_and!.
Qed.

(** X12: [onTopUidsChanged] puts the listed uids of the set, the offline uid
    apart, in front of the uid list; the other uids follow in the order they
    had; the queues are not touched. *)
Theorem onTopUidsChanged_moves_to_front env uids st :
  reachable st →
  ∃ st' moved,
    onTopUidsChanged env uids st = Some st'
    ∧ mUidSortedList st'
      = moved ++ filter (λ x, ¬ isMoved uids x) (mUidSortedList st)
    ∧ NoDup moved
    ∧ (∀ x, x ∈ moved ↔ x ∈ mUidSortedList st ∧ x ≠ OFFLINE_UID ∧ x ∈ uids)
    ∧ mSessionQueues st' = mSessionQueues st.
Proof.
  intros Hr.
  destruct (onTopUidsChanged_spec env uids st (reachable_Inv _ Hr))
    as (st' & moved & E & El & Hnd & Hin & Eq & _ & _).
  exists st', moved. by split_and!.
Qed.

(** X13: when the uid at the front of the list is in the new top set, it
    stays at the front ([preserveTopUid]) and nothing but the order of the
    uid list changes: no session changes state, no call is made. *)
Theorem top_uid_in_set_is_not_preempted env uids st cur l :
  reachable st → mUidSortedList st = cur :: l →
  cur ≠ OFFLINE_UID → cur ∈ uids →
  ∃ st', onTopUidsChanged env uids st = Some st'
    ∧ head (mUidSortedList st') = Some cur
    ∧ mSessionMap st' = mSessionMap st
    ∧ mSessionQueues st' = mSessionQueues st
    ∧ mCurrentSession st' = mCurrentSession st
    ∧ mResourceLost st' = mResourceLost st
    ∧ mEffects st' = mEffects st.
Proof.
  intros Hr El Hoff Hcur.
  pose proof (reachable_Inv _ Hr) as [H Hc].
  pose proof (reachable_topRuns _ Hr) as Hruns.
  unfold onTopUidsChanged.
  rewrite decide_False.
  2:{ intros Hz%size_empty_inv. set_solver. }
  destruct (moveUidsToTop_l_spec uids true st (wf_nodup _ H) (wf_last _ H))
    as (moved & E & Hnd & Hin & Hpres).
  destruct (Hpres eq_refl cur l El) as [moved' ->]; [done|].
  destruct (moveUidsToTop_l_list uids true st (wf_nodup _ H) (wf_last _ H))
    as (l' & E' & Hp & Hl).
  rewrite E in E'. injection E' as El'.
  rewrite E, bind_Some_l.
  set (st1 := withUidSortedList
                (((cur :: moved') ++ filter (λ x, ¬ isMoved uids x)
                                       (mUidSortedList st))) st).
  assert (wf st1) as H1.
  { unfold st1. rewrite <-El' in Hp, Hl. apply wf_relist; [done|exact Hp|exact Hl]. }
  assert (topSession st1 = topSession st) as Etop.
  { unfold topSession. rewrite El. reflexivity. }
  assert (Inv st1) as HI1.
  { split; [done|]. rewrite Etop. exact Hc. }
  assert (topRuns st1) as Hruns1.
  { intros Hlost t Ht. rewrite Etop in Ht. exact (Hruns Hlost t Ht). }
  rewrite (updateCurrentSession_l_fix env st1 HI1 Hruns1), bind_Some_l.
  rewrite (validated_wf _ H1).
  exists st1. by split_and!.
Qed.

(** X14: [onResourceLost] on a scheduler that holds the resource pauses the
    running session without any call on the transcoder: afterwards no
    session is RUNNING, the other sessions and the queues are as before, and
    the only effect is [onTranscodingPaused] on the client of the session
    that ran, when its callback can still be locked. *)
Theorem onResourceLost_pauses_running env st :
  reachable st → mResourceLost st = false →
  ∃ st', onResourceLost env st = Some st'
    ∧ mResourceLost st' = true
    ∧ mSessionMap st' = pauseIfRunning <$> mSessionMap st
    ∧ mUidSortedList st' = mUidSortedList st
    ∧ mSessionQueues st' = mSessionQueues st
    ∧ mCurrentSession st' = mCurrentSession st
    ∧ mEffects st'
      = mEffects st
        ++ match mCurrentSession st with
           | Some cur =>
               let c := sessionOf cur st in
               if decide (state c = RUNNING) then
                 if lockCallback env (callback c)
                 then [ClientPaused (callback c) cur.2] else []
               else []
           | None => []
           end.
Proof.
  intros Hr Hl.
  destruct (onResourceLost_spec env st (reachable_Inv _ Hr) Hl)
    as (st' & E & _ & ? & ? & ? & ? & ? & ?).
  exists st'. by split_and!.
Qed.

Lemma pauseIfRunning_id (m : gmap (Z * Z) Session) :
  (∀ k s, m !! k = Some s → state s ≠ RUNNING) → pauseIfRunning <$> m = m.
Proof.
  intros Hno. apply map_eq. intros k. rewrite lookup_fmap.
  destruct (m !! k) as [x|] eqn:Ex; [|done]. simpl.
  unfold pauseIfRunning. rewrite decide_False; [done|]. by apply (Hno k).
Qed.

Lemma setState_back s : state s = RUNNING → setState RUNNING (setState PAUSED s) = s.
Proof. destruct s. simpl. by intros ->. Qed.

(** [onResourceAvailable] after [onResourceLost], in full. *)
Lemma resource_round_trip_spec env env' st :
  Inv st → topRuns st → mResourceLost st = false →
  ∃ st1 st2,
    onResourceLost env st = Some st1
    ∧ onResourceAvailable env' st1 = Some st2
    ∧ mSessionMap st2 = mSessionMap st
    ∧ mUidSortedList st2 = mUidSortedList st
    ∧ mSessionQueues st2 = mSessionQueues st
    ∧ mCurrentSession st2 = mCurrentSession st
    ∧ mResourceLost st2 = false
    ∧ mEffects st2
      = mEffects st1
        ++ match mCurrentSession st with
           | Some cur =>
               let c := sessionOf cur st in
               [TranscoderResume cur.1 cur.2 (request c)
                  (if lockCallback env' (callback c) then Some (callback c) else None)]
           | None => []
           end.
Proof.
  intros HI Hruns Hl.
  destruct (onResourceLost_spec env st HI Hl)
    as (st1 & E1 & HI1 & Hl1 & El1 & Eq1 & Ec1 & Em1 & _).
  exists st1. destruct HI as [H Hc]. destruct HI1 as [H1 Hc1].
  assert (wf (withResourceLost false st1)) as H1'.
  { apply (wf_restate st1 (mSessionMap st1) (mCurrentSession st1) false (mEffects st1));
      [done|apply sameButState_refl| |apply (wf_cur _ H1)].
    intros k s' Hs' Hrun. by destruct (wf_no_running_when_lost _ _ _ H1 Hl1 Hs'). }
  destruct (updateCurrentSession_l_wf env' _ H1') as (st2 & E2 & [H2 _] & _).
  assert (topSession (withResourceLost false st1) = topSession st) as Etop.
  { apply topSession_ext; [exact El1|exact Eq1]. }
  unfold onResourceAvailable. rewrite Hl1.
  assert (∀ k x, mSessionMap st !! k = Some x → state x = RUNNING →
                 mCurrentSession st = Some k) as Hrun.
  { intros k x Hx Hr. by destruct (wf_running _ H _ _ Hx Hr). }
  revert E2. unfold updateCurrentSession_l.
  rewrite (getTopSession_l_wf _ H1'), Etop. simpl.
  destruct (topSession st) as [t|] eqn:Et.
  - destruct (wf_top_registered _ _ H Et) as [s Hs].
    pose proof (Hruns Hl t Et) as Hsrun. rewrite (sessionOf_Some _ _ _ Hs) in Hsrun.
    assert (mSessionMap st1 !! t = Some (setState PAUSED s)) as Hs1.
    { rewrite Em1, lookup_fmap, Hs. simpl. unfold pauseIfRunning.
      by rewrite decide_True. }
    assert (sessionOf t (withResourceLost false st1) = setState PAUSED s) as Eso.
    { by apply sessionOf_Some. }
    rewrite Eso, Ec1, Hc.
    rewrite decide_True by (right; by destruct s).
    simpl. rewrite Hs1. simpl.
    intros [= E2]. rewrite E2, validated_wf by done.
    exists st2. split; [done|]. split; [done|].
    rewrite <-E2. unfold startOrResume. rewrite Eso.
    assert (state (setState PAUSED s) = PAUSED) as -> by (by destruct s).
    simpl.
    pose proof (wf_key _ H _ _ Hs) as Hkey.
    split_and!; try done.
    + rewrite Em1. apply map_eq. intros k.
      destruct (decide (t = k)) as [<-|Hne].
      * rewrite lookup_alter_eq, lookup_fmap, Hs. simpl. unfold pauseIfRunning.
        rewrite decide_True by done. by rewrite setState_back.
      * rewrite lookup_alter_ne, lookup_fmap by done.
        destruct (mSessionMap st !! k) as [x|] eqn:Ex; [|done]. simpl.
        unfold pauseIfRunning. rewrite decide_False; [done|].
        intros Hx. specialize (Hrun _ _ Ex Hx). congruence.
    + rewrite (sessionOf_Some _ _ _ Hs). destruct s; simpl in *. by subst.
  - intros [= E2]. rewrite E2, bind_Some_l, validated_wf by done.
    exists st2. split; [done|]. split; [done|].
    rewrite <-E2. simpl.
    split_and!; try done.
    + rewrite Em1. apply pauseIfRunning_id. intros k x Hx Hr.
      specialize (Hrun _ _ Hx Hr). congruence.
    + by rewrite Hc, app_nil_r.
Qed.

(** X15: losing the resource and getting it back restores the scheduler:
    the session that ran is resumed on the transcoder, and every session
    has the state it had before the loss. *)
Theorem resource_loss_then_available_restores env env' st :
  reachable st → mResourceLost st = false →
  ∃ st1 st2,
    onResourceLost env st = Some st1
    ∧ onResourceAvailable env' st1 = Some st2
    ∧ mSessionMap st2 = mSessionMap st
    ∧ mUidSortedList st2 = mUidSortedList st
    ∧ mSessionQueues st2 = mSessionQueues st
    ∧ mCurrentSession st2 = mCurrentSession st
    ∧ mResourceLost st2 = false
    ∧ mEffects st2
      = mEffects st1
        ++ match mCurrentSession st with
           | Some cur =>
               let c := sessionOf cur st in
               [TranscoderResume cur.1 cur.2 (request c)
                  (if lockCallback env' (callback c) then Some (callback c) else None)]
           | None => []
           end.
Proof.
  intros Hr Hl.
  exact (resource_round_trip_spec env env' st
           (reachable_Inv _ Hr) (reachable_topRuns _ Hr) Hl).
Qed.

(** X16: [dumpAllSessions] reads the queue of every listed uid with
    [operator[]] and pops the offline uid off its copy of the list; in a
    reachable state neither creates a queue nor fails: the scheduler is
    left as it was. *)
Theorem dumpAllSessions_changes_nothing namesOk st :
  reachable st → dumpAllSessions namesOk st = Some st.
Proof.
  intros Hr. apply dumpAllSessions_wf. exact (proj1 (reachable_Inv _ Hr)).
Qed.

Lemma NoDup_only {A} (u : A) (l : list A) :
  NoDup l → (∀ x, x ∈ l ↔ x = u) → l = [u].
Proof.
  intros Hnd Hin. destruct l as [|a l].
  { exfalso. apply (elem_of_nil u), Hin. done. }
  assert (a = u) as -> by (apply Hin; by left).
  destruct l as [|b l]; [done|].
  assert (b = u) as -> by (apply Hin; right; by left).
  apply NoDup_cons in Hnd as [Hnu _]. destruct Hnu. by left.
Qed.

(** X17: when the top set is one listed uid, the first session of that
    uid's queue takes over: it is the current session and, unless the
    resource is lost, RUNNING after the call. *)
Theorem single_top_uid_takes_over env u st :
  reachable st → u ∈ mUidSortedList st → u ≠ OFFLINE_UID →
  ∃ st' k q,
    onTopUidsChanged env {[u]} st = Some st'
    ∧ head (mUidSortedList st') = Some u
    ∧ mSessionQueues st !! u = Some (k :: q)
    ∧ mCurrentSession st' = Some k
    ∧ (mResourceLost st = false → state (sessionOf k st') = RUNNING).
Proof.
  intros Hr Hu Hoff.
  pose proof (reachable_Inv _ Hr) as HI.
  destruct (onTopUidsChanged_spec env {[u]} st HI)
    as (st' & moved & E & El & Hnd & Hin & Eq & Elost & [H' Hc']).
  assert (moved = [u]) as ->.
  { apply NoDup_only; [done|]. intros x. rewrite Hin. unfold isMoved.
    rewrite elem_of_singleton. split; [tauto|]. by intros ->. }
  assert (reachable st') as Hr'.
  { apply (reachable_step (OnTopUidsChanged env {[u]}) st); done. }
  pose proof (wf_nonempty _ (proj1 HI) u Hu Hoff) as Hne.
  unfold queueOf in Hne.
  destruct (mSessionQueues st !! u) as [[|k q]|] eqn:Equ; try done.
  assert (topSession st' = Some k) as Etop.
  { unfold topSession. rewrite El. simpl. unfold queueOf. by rewrite Eq, Equ. }
  exists st', k, q. split; [done|]. split; [by rewrite El|].
  split; [done|]. split; [by rewrite Hc'|].
  intros Hl. apply (reachable_topRuns _ Hr'); [by rewrite Elost|done].
Qed.

Lemma public_operations_return_witness :
  (reachable demoState)
  ∧ (∃ st', step (Cancel envTop 1 1) demoState = Some st' ∧ reachable st' ∧ validateState_l st'
      = true).
Proof.
  assert (reachable demoState) as H0
    by (exists demoOps; vm_compute; reflexivity).
  split; [exact H0|].
  exact (public_operations_return
           (Cancel envTop 1 1)
           demoState
           H0).
Defined.

Lemma registry_matches_queues_witness :
  (reachable demoState)
  ∧ (NoDup (mUidSortedList demoState)
  ∧ last (mUidSortedList demoState) = Some OFFLINE_UID
  ∧ length (mUidSortedList demoState) = size (mSessionQueues demoState)
  ∧ (∀ u q, mSessionQueues demoState !! u = Some q →
            u ∈ mUidSortedList demoState ∧ NoDup q ∧ (u ≠ OFFLINE_UID → q ≠ []))
  ∧ (∀ k u q, mSessionQueues demoState !! u = Some q →
              k ∈ q ↔ ∃ s, mSessionMap demoState !! k = Some s ∧ uid s = u)
  ∧ (∀ k s, mSessionMap demoState !! k = Some s →
            key s = k ∧ ∃ q, mSessionQueues demoState !! uid s = Some q ∧ k ∈ q)
  ∧ size (mSessionMap demoState)
    = sum_list (map (λ u, length (queueOf u demoState)) (mUidSortedList demoState))).
Proof.
  assert (reachable demoState) as H0
    by (exists demoOps; vm_compute; reflexivity).
  split; [exact H0|].
  exact (registry_matches_queues
           demoState
           H0).
Defined.

Lemma empty_registry_is_initial_shape_witness :
  (reachable emptiedState)
  ∧ (mSessionMap emptiedState = ∅)
  ∧ (mUidSortedList emptiedState = [OFFLINE_UID]
  ∧ mSessionQueues emptiedState = {[ OFFLINE_UID := [] ]}
  ∧ mCurrentSession emptiedState = None).
Proof.
  assert (reachable emptiedState) as H0
    by (exists emptiedOps; vm_compute; reflexivity).
  assert (mSessionMap emptiedState = ∅) as H1
    by (vm_compute; reflexivity).
  split; [exact H0|].
  split; [exact H1|].
  exact (empty_registry_is_initial_shape
           emptiedState
           H0 H1).
Defined.

Lemma no_session_runs_while_resource_lost_witness :
  (reachable lostState)
  ∧ (mResourceLost lostState = true)
  ∧ (mSessionMap lostState !! (1, 1) = Some (mkSession (1, 1) 100 PAUSED 0 realtime 7))
  ∧ (state (mkSession (1, 1) 100 PAUSED 0 realtime 7) ≠ RUNNING).
Proof.
  assert (reachable lostState) as H0
    by (exists lostOps; vm_compute; reflexivity).
  assert (mResourceLost lostState = true) as H1
    by (vm_compute; reflexivity).
  assert (mSessionMap lostState !! (1, 1) = Some (mkSession (1, 1) 100 PAUSED 0 realtime 7)) as
      H2
    by (vm_compute; reflexivity).
  split; [exact H0|].
  split; [exact H1|].
  split; [exact H2|].
  exact (no_session_runs_while_resource_lost
           lostState
           (1, 1)
           (mkSession (1, 1) 100 PAUSED 0 realtime 7)
           H0 H1 H2).
Defined.

Lemma top_session_runs_witness :
  (reachable demoState)
  ∧ (mResourceLost demoState = false)
  ∧ (topSession demoState = Some (1, 1))
  ∧ (mCurrentSession demoState = Some (1, 1)
  ∧ ∃ s, mSessionMap demoState !! (1, 1) = Some s ∧ state s = RUNNING).
Proof.
  assert (reachable demoState) as H0
    by (exists demoOps; vm_compute; reflexivity).
  assert (mResourceLost demoState = false) as H1
    by (vm_compute; reflexivity).
  assert (topSession demoState = Some (1, 1)) as H2
    by (vm_compute; reflexivity).
  split; [exact H0|].
  split; [exact H1|].
  split; [exact H2|].
  exact (top_session_runs
           demoState
           (1, 1)
           H0 H1 H2).
Defined.

Lemma session_identity_is_kept_witness :
  (reachable demoState)
  ∧ (step (OnResourceLost envTop) demoState = Some lostState)
  ∧ (mSessionMap demoState !! (1, 1) = Some (mkSession (1, 1) 100 RUNNING 0 realtime 7))
  ∧ (mSessionMap lostState !! (1, 1) = Some (mkSession (1, 1) 100 PAUSED 0 realtime 7))
  ∧ (key (mkSession (1, 1) 100 PAUSED 0 realtime 7) = key (mkSession (1, 1) 100 RUNNING 0
      realtime 7) ∧ uid (mkSession (1, 1) 100 PAUSED 0 realtime 7) = uid (mkSession (1, 1) 100
      RUNNING 0 realtime 7) ∧ request (mkSession (1, 1) 100 PAUSED 0 realtime 7) = request
      (mkSession (1, 1) 100 RUNNING 0 realtime 7)
  ∧ callback (mkSession (1, 1) 100 PAUSED 0 realtime 7) = callback (mkSession (1, 1) 100
      RUNNING 0 realtime 7)).
Proof.
  assert (reachable demoState) as H0
    by (exists demoOps; vm_compute; reflexivity).
  assert (step (OnResourceLost envTop) demoState = Some lostState) as H1
    by (vm_compute; reflexivity).
  assert (mSessionMap demoState !! (1, 1) = Some (mkSession (1, 1) 100 RUNNING 0 realtime 7))
      as H2
    by (vm_compute; reflexivity).
  assert (mSessionMap lostState !! (1, 1) = Some (mkSession (1, 1) 100 PAUSED 0 realtime 7)) as
      H3
    by (vm_compute; reflexivity).
  split; [exact H0|].
  split; [exact H1|].
  split; [exact H2|].
  split; [exact H3|].
  exact (session_identity_is_kept
           (OnResourceLost envTop)
           demoState
           lostState
           (1, 1)
           (mkSession (1, 1) 100 RUNNING 0 realtime 7)
           (mkSession (1, 1) 100 PAUSED 0 realtime 7)
           H0 H1 H2 H3).
Defined.

Lemma updateCurrentSession_l_settled_witness :
  (reachable demoState)
  ∧ (updateCurrentSession_l envBack demoState = Some demoState).
Proof.
  assert (reachable demoState) as H0
    by (exists demoOps; vm_compute; reflexivity).
  split; [exact H0|].
  exact (updateCurrentSession_l_settled
           envBack
           demoState
           H0).
Defined.

Lemma submit_accepts_fresh_keys_witness :
  (reachable demoState)
  ∧ (∃ r st',
    submit envTop 3 1 300 realtime 9 demoState = Some (r, st')
    ∧ (r = false ↔ registered (3, 1) demoState)
    ∧ (r = false → st' = demoState)
    ∧ (r = true → ∀ k, registered k st' ↔ k = (3, 1) ∨ registered k demoState)).
Proof.
  assert (reachable demoState) as H0
    by (exists demoOps; vm_compute; reflexivity).
  split; [exact H0|].
  exact (submit_accepts_fresh_keys
           envTop
           3
           1
           300
           realtime
           9
           demoState
           H0).
Defined.

Lemma getSession_after_submit_witness :
  (reachable demoState)
  ∧ (submit envTop 3 1 300 realtime 9 demoState = Some (true, grownState))
  ∧ (getSession 3 1 grownState = Some realtime
  ∧ ∀ c' s', (c', s') ≠ (3, 1) → getSession c' s' grownState = getSession c' s' demoState).
Proof.
  assert (reachable demoState) as H0
    by (exists demoOps; vm_compute; reflexivity).
  assert (submit envTop 3 1 300 realtime 9 demoState = Some (true, grownState)) as H1
    by (vm_compute; reflexivity).
  split; [exact H0|].
  split; [exact H1|].
  exact (getSession_after_submit
           envTop
           3
           1
           300
           realtime
           9
           demoState
           grownState
           H0 H1).
Defined.

Lemma cancel_one_session_witness :
  (reachable demoState)
  ∧ (0 ≤ 1)
  ∧ ((mSessionMap demoState !! (1, 1) = None → cancel envTop 1 1 demoState = Some (false,
      demoState))
  ∧ (∀ x, mSessionMap demoState !! (1, 1) = Some x →
       ∃ st' es,
         cancel envTop 1 1 demoState = Some (true, st')
         ∧ ¬ registered (1, 1) st'
         ∧ (∀ k, k ≠ (1, 1) → registered k st' ↔ registered k demoState)
         ∧ mEffects st'
           = mEffects demoState
             ++ (if decide (state x = NOT_STARTED) then [] else [TranscoderStop 1 1])
             ++ es
         ∧ Forall (λ e, e = UnregisterMonitorUid (uid x) ∨ isSchedulingCall e) es)).
Proof.
  assert (reachable demoState) as H0
    by (exists demoOps; vm_compute; reflexivity).
  assert (0 ≤ 1) as H1
    by (lia).
  split; [exact H0|].
  split; [exact H1|].
  exact (cancel_one_session
           envTop
           1
           1
           demoState
           H0 H1).
Defined.

Lemma onError_removes_started_session_witness :
  (reachable demoState)
  ∧ ((∀ x, mSessionMap demoState !! (1, 1) = Some x → state x ≠ NOT_STARTED →
     ∃ st' es,
       onError envTop 1 1 (-1) demoState = Some st'
       ∧ mEffects st'
         = mEffects demoState
           ++ (if lockCallback envTop (callback x)
               then [ClientFailed (callback x) 1 (-1)] else [])
           ++ es
       ∧ ¬ registered (1, 1) st'
       ∧ (∀ k, k ≠ (1, 1) → registered k st' ↔ registered k demoState)
       ∧ mCurrentSession st' = topSession st')
  ∧ ((∀ x, mSessionMap demoState !! (1, 1) = Some x → state x = NOT_STARTED) →
     onError envTop 1 1 (-1) demoState = Some demoState)).
Proof.
  assert (reachable demoState) as H0
    by (exists demoOps; vm_compute; reflexivity).
  split; [exact H0|].
  exact (onError_removes_started_session
           envTop
           1
           1
           (-1)
           demoState
           H0).
Defined.

Lemma onTopUidsChanged_moves_to_front_witness :
  (reachable demoState)
  ∧ (∃ st' moved,
    onTopUidsChanged envTop ({[200]} : gset Z) demoState = Some st'
    ∧ mUidSortedList st'
      = moved ++ filter (λ x, ¬ isMoved ({[200]} : gset Z) x) (mUidSortedList demoState)
    ∧ NoDup moved
    ∧ (∀ x, x ∈ moved ↔ x ∈ mUidSortedList demoState ∧ x ≠ OFFLINE_UID ∧ x ∈ ({[200]} : gset Z))
    ∧ mSessionQueues st' = mSessionQueues demoState).
Proof.
  assert (reachable demoState) as H0
    by (exists demoOps; vm_compute; reflexivity).
  split; [exact H0|].
  exact (onTopUidsChanged_moves_to_front
           envTop
           ({[200]} : gset Z)
           demoState
           H0).
Defined.

Lemma top_uid_in_set_is_not_preempted_witness :
  (reachable demoState)
  ∧ (mUidSortedList demoState = 100 :: [200; OFFLINE_UID])
  ∧ (100 ≠ OFFLINE_UID)
  ∧ (100 ∈ ({[100]} : gset Z))
  ∧ (∃ st', onTopUidsChanged envTop ({[100]} : gset Z) demoState = Some st'
    ∧ head (mUidSortedList st') = Some 100
    ∧ mSessionMap st' = mSessionMap demoState
    ∧ mSessionQueues st' = mSessionQueues demoState
    ∧ mCurrentSession st' = mCurrentSession demoState
    ∧ mResourceLost st' = mResourceLost demoState
    ∧ mEffects st' = mEffects demoState).
Proof.
  assert (reachable demoState) as H0
    by (exists demoOps; vm_compute; reflexivity).
  assert (mUidSortedList demoState = 100 :: [200; OFFLINE_UID]) as H1
    by (vm_compute; reflexivity).
  assert (100 ≠ OFFLINE_UID) as H2
    by (vm_compute; discriminate).
  assert (100 ∈ ({[100]} : gset Z)) as H3
    by (apply elem_of_singleton; reflexivity).
  split; [exact H0|].
  split; [exact H1|].
  split; [exact H2|].
  split; [exact H3|].
  exact (top_uid_in_set_is_not_preempted
           envTop
           ({[100]} : gset Z)
           demoState
           100
           ([200; OFFLINE_UID])
           H0 H1 H2 H3).
Defined.

Lemma onResourceLost_pauses_running_witness :
  (reachable demoState)
  ∧ (mResourceLost demoState = false)
  ∧ (∃ st', onResourceLost envTop demoState = Some st'
    ∧ mResourceLost st' = true
    ∧ mSessionMap st' = pauseIfRunning <$> mSessionMap demoState
    ∧ mUidSortedList st' = mUidSortedList demoState
    ∧ mSessionQueues st' = mSessionQueues demoState
    ∧ mCurrentSession st' = mCurrentSession demoState
    ∧ mEffects st'
      = mEffects demoState
        ++ match mCurrentSession demoState with
           | Some cur =>
               let c := sessionOf cur demoState in
               if decide (state c = RUNNING) then
                 if lockCallback envTop (callback c)
                 then [ClientPaused (callback c) cur.2] else []
               else []
           | None => []
           end).
Proof.
  assert (reachable demoState) as H0
    by (exists demoOps; vm_compute; reflexivity).
  assert (mResourceLost demoState = false) as H1
    by (vm_compute; reflexivity).
  split; [exact H0|].
  split; [exact H1|].
  exact (onResourceLost_pauses_running
           envTop
           demoState
           H0 H1).
Defined.

Lemma resource_loss_then_available_restores_witness :
  (reachable demoState)
  ∧ (mResourceLost demoState = false)
  ∧ (∃ st1 st2,
    onResourceLost envTop demoState = Some st1
    ∧ onResourceAvailable envBack st1 = Some st2
    ∧ mSessionMap st2 = mSessionMap demoState
    ∧ mUidSortedList st2 = mUidSortedList demoState
    ∧ mSessionQueues st2 = mSessionQueues demoState
    ∧ mCurrentSession st2 = mCurrentSession demoState
    ∧ mResourceLost st2 = false
    ∧ mEffects st2
      = mEffects st1
        ++ match mCurrentSession demoState with
           | Some cur =>
               let c := sessionOf cur demoState in
               [TranscoderResume cur.1 cur.2 (request c)
                  (if lockCallback envBack (callback c) then Some (callback c) else None)]
           | None => []
           end).
Proof.
  assert (reachable demoState) as H0
    by (exists demoOps; vm_compute; reflexivity).
  assert (mResourceLost demoState = false) as H1
    by (vm_compute; reflexivity).
  split; [exact H0|].
  split; [exact H1|].
  exact (resource_loss_then_available_restores
           envTop
           envBack
           demoState
           H0 H1).
Defined.

Lemma dumpAllSessions_changes_nothing_witness :
  (reachable demoState)
  ∧ (dumpAllSessions true demoState = Some demoState).
Proof.
  assert (reachable demoState) as H0
    by (exists demoOps; vm_compute; reflexivity).
  split; [exact H0|].
  exact (dumpAllSessions_changes_nothing
           true
           demoState
           H0).
Defined.

Lemma single_top_uid_takes_over_witness :
  (reachable demoState)
  ∧ (200 ∈ mUidSortedList demoState)
  ∧ (200 ≠ OFFLINE_UID)
  ∧ (∃ st' k q,
    onTopUidsChanged envTop {[200]} demoState = Some st'
    ∧ head (mUidSortedList st') = Some 200
    ∧ mSessionQueues demoState !! 200 = Some (k :: q)
    ∧ mCurrentSession st' = Some k
    ∧ (mResourceLost demoState = false → state (sessionOf k st') = RUNNING)).
Proof.
  assert (reachable demoState) as H0
    by (exists demoOps; vm_compute; reflexivity).
  assert (200 ∈ mUidSortedList demoState) as H1
    by (vm_compute; right; left).
  assert (200 ≠ OFFLINE_UID) as H2
    by (vm_compute; discriminate).
  split; [exact H0|].
  split; [exact H1|].
  split; [exact H2|].
  exact (single_top_uid_takes_over
           envTop
           200
           demoState
           H0 H1 H2).
Defined.

End SchedulerFacts.

(** ** Properties of the video track transcoder *)

Module PipelineFacts.
Import Pipeline.

Lemma composeTrackFormat_blocks src out :
  composeTrackFormat src out
  = transferDuration src
      (transferRotation src
         (transferDimensions src
            AMEDIAFORMAT_KEY_DISPLAY_WIDTH AMEDIAFORMAT_KEY_DISPLAY_HEIGHT
            (transferDimensions src
               AMEDIAFORMAT_KEY_SAR_WIDTH AMEDIAFORMAT_KEY_SAR_HEIGHT out))).
Proof. reflexivity. Qed.

Lemma transferDimensions_other src kw kh (f : gmap string FormatValue) name :
  name ≠ kw → name ≠ kh → transferDimensions src kw kh f !! name = f !! name.
Proof.
  intros H1 H2. unfold transferDimensions, AMediaFormat_setInt32.
  repeat case_match; try done. by rewrite !lookup_insert_ne.
Qed.

Lemma transferDimensions_width src kw kh (f : gmap string FormatValue) :
  kw ≠ kh →
  transferDimensions src kw kh f !! kw
  = match validDimensions src kw kh with
    | Some (w, _) => Some (VInt32 w) | None => f !! kw end.
Proof.
  intros Hne. unfold transferDimensions, validDimensions, AMediaFormat_setInt32.
  destruct (AMediaFormat_getInt32 src kw) as [w|]; [|done].
  destruct (AMediaFormat_getInt32 src kh) as [h|];
    destruct (decide (0 < w)); try done.
  - destruct (decide (0 < h)).
    + rewrite bool_decide_eq_true_2 by done.
      by rewrite lookup_insert_ne, lookup_insert_eq.
    + by rewrite bool_decide_eq_false_2 by tauto.
  - by rewrite bool_decide_eq_false_2 by tauto.
Qed.

Lemma transferDimensions_height src kw kh (f : gmap string FormatValue) :
  transferDimensions src kw kh f !! kh
  = match validDimensions src kw kh with
    | Some (_, h) => Some (VInt32 h) | None => f !! kh end.
Proof.
  unfold transferDimensions, validDimensions, AMediaFormat_setInt32.
  destruct (AMediaFormat_getInt32 src kw) as [w|]; [|done].
  destruct (AMediaFormat_getInt32 src kh) as [h|];
    destruct (decide (0 < w)); try done.
  - destruct (decide (0 < h)).
    + rewrite bool_decide_eq_true_2 by done. by rewrite lookup_insert_eq.
    + by rewrite bool_decide_eq_false_2 by tauto.
  - by rewrite bool_decide_eq_false_2 by tauto.
Qed.

Lemma transferRotation_other src (f : gmap string FormatValue) name :
  name ≠ AMEDIAFORMAT_KEY_ROTATION → transferRotation src f !! name = f !! name.
Proof.
  intros H. unfold transferRotation, AMediaFormat_setInt32.
  repeat case_match; try done. by rewrite lookup_insert_ne.
Qed.

Lemma transferRotation_rotation src (f : gmap string FormatValue) :
  transferRotation src f !! AMEDIAFORMAT_KEY_ROTATION
  = match AMediaFormat_getInt32 src AMEDIAFORMAT_KEY_ROTATION with
    | Some r => if decide (r ≠ 0) then Some (VInt32 r)
                else f !! AMEDIAFORMAT_KEY_ROTATION
    | None => f !! AMEDIAFORMAT_KEY_ROTATION
    end.
Proof.
  unfold transferRotation, AMediaFormat_setInt32.
  repeat case_match; try done. by rewrite lookup_insert_eq.
Qed.

Lemma transferDuration_other src (f : gmap string FormatValue) name :
  name ≠ AMEDIAFORMAT_KEY_DURATION → transferDuration src f !! name = f !! name.
Proof.
  intros H. unfold transferDuration, AMediaFormat_setInt64.
  repeat case_match; try done. by rewrite lookup_insert_ne.
Qed.

Lemma transferDuration_duration src (f : gmap string FormatValue) :
  transferDuration src f !! AMEDIAFORMAT_KEY_DURATION
  = match AMediaFormat_getInt64 src AMEDIAFORMAT_KEY_DURATION with
    | Some d => if decide (0 < d) then Some (VInt64 d)
                else f !! AMEDIAFORMAT_KEY_DURATION
    | None => f !! AMEDIAFORMAT_KEY_DURATION
    end.
Proof.
  unfold transferDuration, AMediaFormat_setInt64.
  repeat case_match; try done. by rewrite lookup_insert_eq.
Qed.

Lemma composeTrackFormat_lookup src out name :
  composeTrackFormat src out !! name = overlaidEntry src out name.
Proof.
  rewrite composeTrackFormat_blocks. unfold overlaidEntry.
  destruct (decide (name = AMEDIAFORMAT_KEY_SAR_WIDTH)) as [->|N1].
  { rewrite transferDuration_other, transferRotation_other,
      transferDimensions_other, transferDimensions_width by done. done. }
  destruct (decide (name = AMEDIAFORMAT_KEY_SAR_HEIGHT)) as [->|N2].
  { rewrite transferDuration_other, transferRotation_other,
      transferDimensions_other, transferDimensions_height by done. done. }
  destruct (decide (name = AMEDIAFORMAT_KEY_DISPLAY_WIDTH)) as [->|N3].
  { rewrite transferDuration_other, transferRotation_other,
      transferDimensions_width by done.
    rewrite transferDimensions_other by done. done. }
  destruct (decide (name = AMEDIAFORMAT_KEY_DISPLAY_HEIGHT)) as [->|N4].
  { rewrite transferDuration_other, transferRotation_other,
      transferDimensions_height by done.
    rewrite transferDimensions_other by done. done. }
  destruct (decide (name = AMEDIAFORMAT_KEY_ROTATION)) as [->|N5].
  { rewrite transferDuration_other, transferRotation_rotation by done.
    rewrite !transferDimensions_other by done. done. }
  destruct (decide (name = AMEDIAFORMAT_KEY_DURATION)) as [->|N6].
  { rewrite transferDuration_duration, transferRotation_other by done.
    rewrite !transferDimensions_other by done. done. }
  rewrite transferDuration_other, transferRotation_other by done.
  by rewrite !transferDimensions_other.
Qed.

(** C9: the published actual output format is the encoder's output format
    overlaid with the sample-aspect-ratio and display dimensions of the
    source (each pair only when both are present and positive), its
    rotation (when present and not zero) and its duration (when present
    and positive); every other key is as the encoder gave it. *)
Theorem actual_output_format_overlay env outputFormat t :
  mActualOutputFormat t = None → formatCopyOk env = true →
  ∃ published,
    mActualOutputFormat (updateTrackFormat env outputFormat t) = Some published
    ∧ (∀ name, published !! name = overlaidEntry (mSourceFormat t) outputFormat name)
    ∧ mCalls (updateTrackFormat env outputFormat t) = mCalls t ++ [TrackFormatAvailable].
Proof.
  intros Hnone Hok. unfold updateTrackFormat. rewrite Hnone, Hok.
  eexists. split; [done|]. split; [|done].
  apply composeTrackFormat_lookup.
Qed.

Lemma transcodeLoop_stopped sched t :
  loopCondition t = false → transcodeLoop sched t = Exited t.
Proof. intros H. destruct sched; simpl; by rewrite H. Qed.

Lemma transcodeLoop_Exited sched :
  ∀ t tx, transcodeLoop sched t = Exited tx → loopCondition tx = false.
Proof.
  induction sched as [|tick sched IH]; intros t tx; simpl.
  - destruct (loopCondition t) eqn:E; [done|]. by intros [= <-].
  - destruct (loopCondition t) eqn:E; [|by intros [= <-]].
    destruct (pop _) as [[m q]|]; apply IH.
Qed.

(** The loop returns once an abort request has arrived. *)
Lemma runTranscodeLoop_after_abort env t :
  mAborted (mCodecMessageQueue t) = false →
  is_Some (runTranscodeLoop [mkTick [AbortTranscodeLoop] env] t).
Proof.
  intros Hq. unfold runTranscodeLoop. cbv zeta.
  unfold transcodeLoop.
  destruct (loopCondition _) eqn:Ec; [|by eexists].
  simpl. unfold pushMessage, push. simpl. rewrite Hq. simpl.
  unfold loopCondition. simpl. by eexists.
Qed.

Lemma filter_snoc {A} (f : A → bool) l x :
  List.filter f (l ++ [x]) = List.filter f l ++ (if f x then [x] else []).
Proof. by rewrite List.filter_app. Qed.

Lemma withQueue_same t : withQueue (mCodecMessageQueue t) t = t.
Proof. by destruct t. Qed.

(** Arrivals only touch the queue. *)
Lemma arrive_fields a t :
  ∃ q, arrive a t = withQueue q t
       ∧ mAborted q = mAborted (mCodecMessageQueue t)
       ∧ (mAborted (mCodecMessageQueue t) = true → q = mCodecMessageQueue t).
Proof.
  assert (∀ m front, ∃ q, pushMessage m front t = withQueue q t
       ∧ mAborted q = mAborted (mCodecMessageQueue t)
       ∧ (mAborted (mCodecMessageQueue t) = true → q = mCodecMessageQueue t)) as Hp.
  { intros m front. eexists. split; [done|]. unfold push.
    destruct (mAborted (mCodecMessageQueue t)) eqn:E; [by rewrite E|].
    by destruct front. }
  assert (∃ q, t = withQueue q t
       ∧ mAborted q = mAborted (mCodecMessageQueue t)
       ∧ (mAborted (mCodecMessageQueue t) = true → q = mCodecMessageQueue t)) as Hid.
  { exists (mCodecMessageQueue t). by rewrite withQueue_same. }
  destruct a; simpl; try apply Hp; destruct (decide _); (apply Hp || apply Hid).
Qed.

Lemma arriveAll_fields l : ∀ t,
  ∃ q, arriveAll l t = withQueue q t
       ∧ mAborted q = mAborted (mCodecMessageQueue t)
       ∧ (mAborted (mCodecMessageQueue t) = true → q = mCodecMessageQueue t).
Proof.
  induction l as [|a l IH]; intros t; simpl.
  - exists (mCodecMessageQueue t). by rewrite withQueue_same.
  - destruct (arrive_fields a t) as (q1 & -> & Ha1 & Hq1).
    destruct (IH (withQueue q1 t)) as (q2 & -> & Ha2 & Hq2).
    exists q2. split; [done|]. simpl in *. split; [congruence|].
    intros E. rewrite Hq2 by congruence. by apply Hq1.
Qed.

(** No message but the first format change touches the published format
    or tells the sink of one. *)
Lemma execute_format_stable env m t F :
  mActualOutputFormat t = Some F →
  mActualOutputFormat (execute env m t) = Some F
  ∧ formatNotifications (execute env m t) = formatNotifications t.
Proof.
  intros HF. unfold formatNotifications.
  destruct m as [| |index|[] index bufferInfo|format|error|]; simpl;
    unfold enqueueInputSample, transferBuffer, dequeueOutputSample,
      onOutputSampleAvailable, updateTrackFormat; cbv zeta;
    repeat case_match; simpl; rewrite ?filter_snoc; simpl;
    rewrite ?filter_snoc; simpl; rewrite ?app_nil_r;
    first [done | congruence | split; congruence].
Qed.

Lemma format_published_stable sched : ∀ t F,
  mActualOutputFormat t = Some F →
  mActualOutputFormat (resultState (transcodeLoop sched t)) = Some F
  ∧ formatNotifications (resultState (transcodeLoop sched t))
    = formatNotifications t.
Proof.
  induction sched as [|tick sched IH]; intros t F HF; simpl.
  - by destruct (loopCondition t).
  - destruct (loopCondition t); [|done].
    destruct (arriveAll_fields (arrivals tick) t) as (q & -> & _).
    simpl. destruct (pop q) as [[m q']|].
    + destruct (execute_format_stable (answers tick) m (withQueue q' t) F HF)
        as [E1 E2].
      destruct (IH _ F E1) as [E3 E4]. exact (conj E3 (eq_trans E4 E2)).
    + exact (IH (withQueue q t) F HF).
Qed.

Lemma formatTick_step fe sched t :
  loopCondition t = true → mQueue (mCodecMessageQueue t) = [] →
  transcodeLoop (formatTick fe :: sched) t
  = transcodeLoop sched
      (if mAborted (mCodecMessageQueue t) then t
       else updateTrackFormat fe.2 fe.1 t).
Proof.
  intros Hc Hq. cbn [transcodeLoop]. rewrite Hc.
  destruct t as [[q a] ? ? ? ? ? ? ? ? ?]. simpl in Hq. subst q.
  by destruct a.
Qed.

Lemma further_format_changes_ignored more : ∀ t,
  mQueue (mCodecMessageQueue t) = [] →
  mAborted (mCodecMessageQueue t) = true
  ∨ (loopCondition t = true → is_Some (mActualOutputFormat t)) →
  transcodeLoop (map formatTick more) t = transcodeLoop [] t.
Proof.
  induction more as [|fe more IH]; intros t Hq Hpre; [done|].
  destruct (loopCondition t) eqn:Ec.
  2:{ by rewrite !transcodeLoop_stopped. }
  cbn [map]. rewrite formatTick_step by done.
  destruct (mAborted (mCodecMessageQueue t)) eqn:Ea.
  - apply IH; auto.
  - destruct Hpre as [|Hpre]; [done|]. destruct (Hpre eq_refl) as [F HF].
    unfold updateTrackFormat. rewrite HF. apply IH; eauto.
Qed.

Lemma arriveAll_behind l : ∀ t m rest,
  Forall (λ a, queuesBehind a = true) l →
  mQueue (mCodecMessageQueue t) = m :: rest →
  ∃ more, arriveAll l t
          = withQueue (mkQueue (m :: rest ++ more)
                         (mAborted (mCodecMessageQueue t))) t.
Proof.
  induction l as [|a l IH]; intros t m rest Hl Hq; simpl.
  - exists []. rewrite app_nil_r, <-Hq.
    assert (mkQueue (mQueue (mCodecMessageQueue t)) (mAborted (mCodecMessageQueue t))
            = mCodecMessageQueue t) as -> by (by destruct (mCodecMessageQueue t)).
    by rewrite withQueue_same.
  - apply Forall_cons in Hl as [Ha Hl].
    assert (∃ more1, arrive a t
          = withQueue (mkQueue (m :: rest ++ more1)
                         (mAborted (mCodecMessageQueue t))) t) as (more1 & ->).
    { assert (∃ more1, t = withQueue (mkQueue (m :: rest ++ more1)
                         (mAborted (mCodecMessageQueue t))) t) as Hid.
      { exists []. rewrite app_nil_r, <-Hq.
        assert (mkQueue (mQueue (mCodecMessageQueue t)) (mAborted (mCodecMessageQueue t))
            = mCodecMessageQueue t) as -> by (by destruct (mCodecMessageQueue t)).
        by rewrite withQueue_same. }
      assert (∀ x, ∃ more1, pushMessage x false t
          = withQueue (mkQueue (m :: rest ++ more1)
                         (mAborted (mCodecMessageQueue t))) t) as Hp.
      { intros x. unfold pushMessage, push.
        destruct (mAborted (mCodecMessageQueue t)) eqn:E.
        - rewrite withQueue_same. destruct Hid as [more1 Hid].
          by exists more1.
        - exists [x]. by rewrite Hq. }
      destruct a; simpl in *; try done; try apply Hp;
        destruct (decide _); (apply Hp || apply Hid). }
    destruct (IH (withQueue (mkQueue (m :: rest ++ more1)
                               (mAborted (mCodecMessageQueue t))) t)
                m (rest ++ more1) Hl eq_refl) as (more & ->).
    exists (more1 ++ more). simpl. by rewrite <-app_assoc.
Qed.

Lemma actual_output_format_overlay_witness :
  mActualOutputFormat transcoder0 = None ∧ formatCopyOk envOk = true
  ∧ ∃ published,
    mActualOutputFormat (updateTrackFormat envOk encoderFormat0 transcoder0)
    = Some published
    ∧ (∀ name, published !! name
               = overlaidEntry (mSourceFormat transcoder0) encoderFormat0 name)
    ∧ mCalls (updateTrackFormat envOk encoderFormat0 transcoder0)
      = mCalls transcoder0 ++ [TrackFormatAvailable].
Proof.
  split; [reflexivity|]. split; [reflexivity|].
  exact (actual_output_format_overlay envOk encoderFormat0 transcoder0
           eq_refl eq_refl).
Defined.

(** The runs of the pipeline scenarios on the model. *)
Example clean_run_returns_ok :
  fst <$> runTranscodeLoop cleanRun transcoder0 = Some AMEDIA_OK
  ∧ samplesDelivered cleanEnd
    = [OutputSampleAvailable (mkMediaSample 0 0 (mkSampleInfo 5 0 0));
       OutputSampleAvailable (mkMediaSample 1 0 (mkSampleInfo 0 0 4))]
  ∧ formatNotifications cleanEnd = [TrackFormatAvailable].
Proof. vm_compute. done. Qed.

Example aborted_run_returns_generic_error :
  fst <$> runTranscodeLoop [mkTick [AbortTranscodeLoop] envOk] transcoder0
  = Some AMEDIA_ERROR_UNKNOWN.
Proof. vm_compute. reflexivity. Qed.

Example failed_start_returns_its_status :
  fst <$> runTranscodeLoop
            [mkTick [] (mkCodecEnv (-10002) AMEDIA_OK (mkSampleInfo 0 0 0) None
                          AMEDIA_OK AMEDIA_OK AMEDIA_OK true)]
            transcoder0
  = Some (-10002).
Proof. vm_compute. reflexivity. Qed.

(** *** Further properties of the video track transcoder *)

Lemma pushAll_aborted l : ∀ q, mAborted q = true → pushAll l q = q.
Proof.
  induction l as [|p l IH]; intros q Hq; [done|].
  unfold pushAll. simpl. fold (pushAll l (push p.1 p.2 q)).
  assert (push p.1 p.2 q = q) as -> by (unfold push; by rewrite Hq).
  by apply IH.
Qed.

Lemma pushAll_app l1 l2 q : pushAll (l1 ++ l2) q = pushAll l2 (pushAll l1 q).
Proof. unfold pushAll. by rewrite foldl_app. Qed.

Lemma pushedFront_cons p l :
  pushedFront (p :: l) = (if p.2 then [p.1] else []) ++ pushedFront l.
Proof.
  unfold pushedFront. destruct p as [m [|]].
  - by rewrite filter_cons_True.
  - by rewrite filter_cons_False.
Qed.

Lemma pushedBack_cons p l :
  pushedBack (p :: l) = (if p.2 then [] else [p.1]) ++ pushedBack l.
Proof.
  unfold pushedBack. destruct p as [m [|]].
  - by rewrite filter_cons_False.
  - by rewrite filter_cons_True.
Qed.

Lemma pushAll_queue l q :
  mAborted q = false →
  pushAll l q
  = mkQueue (reverse (pushedFront l) ++ mQueue q ++ pushedBack l) false.
Proof.
  revert q. induction l as [|p l IH]; intros q Hq.
  - unfold pushAll, pushedFront, pushedBack. simpl. rewrite app_nil_r.
    destruct q. simpl in *. by subst.
  - unfold pushAll. simpl. fold (pushAll l (push p.1 p.2 q)).
    rewrite pushedFront_cons, pushedBack_cons.
    unfold push. rewrite Hq. destruct p as [m [|]]; simpl.
    + rewrite IH by done. simpl. rewrite reverse_cons, <-app_assoc. done.
    + rewrite IH by done. simpl. by rewrite <-app_assoc.
Qed.

(** X18: the queue after a sequence of pushes: the values pushed to the
    front come first, the last pushed first; then what the queue held; then
    the values pushed to the back, in the order they were pushed. *)
Theorem push_sequence l q :
  mAborted q = false →
  pushAll l q
  = mkQueue (reverse (pushedFront l) ++ mQueue q ++ pushedBack l) false.
Proof. apply pushAll_queue. Qed.

(** X19: once [abort] was called the queue stays empty whatever is pushed,
    so that a later [pop] finds nothing to return. *)
Theorem pushes_after_abort_are_dropped l q :
  pushAll l (abort q) = mkQueue [] true ∧ pop (pushAll l (abort q)) = None.
Proof.
  assert (pushAll l (abort q) = mkQueue [] true) as ->; [|done].
  by apply pushAll_aborted.
Qed.

Lemma arrive_as_push a t :
  arrive a t = withQueue (pushAll (arrivalPush a) (mCodecMessageQueue t)) t.
Proof.
  destruct a; simpl; try done; destruct (decide _); try done;
    symmetry; apply withQueue_same.
Qed.

Lemma arriveAll_as_push l : ∀ t,
  arriveAll l t
  = withQueue (pushAll (l ≫= arrivalPush) (mCodecMessageQueue t)) t.
Proof.
  induction l as [|a l IH]; intros t.
  - symmetry. apply withQueue_same.
  - unfold arriveAll. simpl. fold (arriveAll l (arrive a t)).
    rewrite IH, arrive_as_push, pushAll_app. done.
Qed.

Lemma finishTranscodeLoop_queue t :
  mCodecMessageQueue (finishTranscodeLoop t).2 = mkQueue [] true.
Proof. unfold finishTranscodeLoop. cbv zeta. by destruct (_ && _). Qed.

(** X20: when [runTranscodeLoop] has returned, the message queue is
    aborted and empty, and the codec callbacks and abort requests that
    still arrive change nothing. *)
Theorem callbacks_after_the_run_are_dropped sched t r t' later :
  runTranscodeLoop sched t = Some (r, t') →
  mCodecMessageQueue t' = mkQueue [] true ∧ arriveAll later t' = t'.
Proof.
  unfold runTranscodeLoop. cbv zeta.
  destruct (transcodeLoop sched _) as [tx|tx]; [|done].
  intros E.
  assert (t' = (finishTranscodeLoop tx).2) as -> by (by injection E as <-).
  pose proof (finishTranscodeLoop_queue tx) as Hq.
  split; [done|].
  rewrite arriveAll_as_push, Hq, pushAll_aborted by done.
  rewrite <-Hq. apply withQueue_same.
Qed.

Lemma pushAll_Forall (P : Message → Prop) l : ∀ q,
  Forall (λ p, P p.1) l → Forall P (mQueue q) → Forall P (mQueue (pushAll l q)).
Proof.
  induction l as [|p l IH]; intros q Hl Hq; [done|].
  apply Forall_cons in Hl as [Hp Hl].
  unfold pushAll. simpl. fold (pushAll l (push p.1 p.2 q)).
  apply IH; [done|]. unfold push.
  destruct (mAborted q); [done|]. destruct p.2; simpl.
  - by constructor.
  - apply Forall_app. split; [done|]. by constructor.
Qed.

Ltac calls_tac :=
  rewrite <-?app_assoc; first [exact (eq_sym (app_nil_r _)) | reflexivity].

(** What running one message does to the fields the loop depends on. *)
Lemma execute_effects env m t :
  mCodecMessageQueue (execute env m t) = mCodecMessageQueue t
  ∧ ∃ cs, mCalls (execute env m t) = mCalls t ++ cs
     ∧ (isStartMessage m = false → Forall (λ c, isCodecStartOrStop c = false) cs)
     ∧ (mEosFromSource t = true → Forall (λ c, isInputCall c = false) cs)
     ∧ (mEosFromSource t = true → mEosFromSource (execute env m t) = true)
     ∧ (mEosFromEncoder (execute env m t) = true →
        mEosFromEncoder t = true ∨ isEncoderEos m = true)
     ∧ (isStopMessage m = true →
        cs = [] ∧ mStopRequested (execute env m t) = true).
Proof.
  destruct m as [| |index|[] index bufferInfo|format|error|]; simpl;
    unfold enqueueInputSample, transferBuffer, dequeueOutputSample,
      onOutputSampleAvailable, updateTrackFormat, notifyTrackFormatAvailable;
    cbv zeta; repeat case_match; simpl;
    (split; [done|]); eexists; (split; [calls_tac|]);
    split_and!; intros; simpl in *; try done; try congruence;
    try (by right); repeat constructor; eauto.
Qed.

Lemma pushedFront_app l1 l2 :
  pushedFront (l1 ++ l2) = pushedFront l1 ++ pushedFront l2.
Proof. unfold pushedFront. by rewrite filter_app, fmap_app. Qed.

Lemma pushedBack_app l1 l2 :
  pushedBack (l1 ++ l2) = pushedBack l1 ++ pushedBack l2.
Proof. unfold pushedBack. by rewrite filter_app, fmap_app. Qed.

Lemma arrivalPush_shape a :
  Forall (λ m, isStopMessage m = true) (pushedFront (arrivalPush a))
  ∧ Forall (λ m, isStartMessage m = false) (pushedBack (arrivalPush a))
  ∧ Forall (λ p, isStartMessage p.1 = false) (arrivalPush a)
  ∧ (queuesBehind a = false → pushedFront (arrivalPush a) ≠ [])
  ∧ (isEncoderEosArrival a = false →
     Forall (λ p, isEncoderEos p.1 = false) (arrivalPush a)).
Proof.
  destruct a as [c i|c i b|c f|c e x|]; simpl; try destruct (decide _);
    try destruct c; simpl; split_and!; try done;
    repeat constructor; try done.
Qed.

Lemma arrivals_shape l :
  Forall (λ m, isStopMessage m = true) (pushedFront (l ≫= arrivalPush))
  ∧ Forall (λ m, isStartMessage m = false) (pushedBack (l ≫= arrivalPush))
  ∧ Forall (λ p, isStartMessage p.1 = false) (l ≫= arrivalPush)
  ∧ (Exists (λ a, queuesBehind a = false) l → pushedFront (l ≫= arrivalPush) ≠ [])
  ∧ (Forall (λ a, isEncoderEosArrival a = false) l →
     Forall (λ p, isEncoderEos p.1 = false) (l ≫= arrivalPush)).
Proof.
  induction l as [|a l (IH1 & IH2 & IH3 & IH4 & IH5)].
  - split_and!; try done. by intros ?%Exists_nil.
  - destruct (arrivalPush_shape a) as (H1 & H2 & H3 & H4 & H5).
    change ((a :: l) ≫= arrivalPush) with (arrivalPush a ++ (l ≫= arrivalPush)).
    rewrite pushedFront_app, pushedBack_app. split_and!.
    + by apply Forall_app.
    + by apply Forall_app.
    + by apply Forall_app.
    + intros [Ha|Hl]%Exists_cons.
      * intros [E _]%app_eq_nil. by apply H4.
      * intros [_ E]%app_eq_nil. by apply IH4.
    + intros [Ha Hl]%Forall_cons. apply Forall_app. split; [by apply H5|by apply IH5].
Qed.

Lemma loopCondition_true t :
  loopCondition t = true →
  mStopRequested t = false ∧ mEosFromEncoder t = false ∧ mStatus t = AMEDIA_OK.
Proof.
  unfold loopCondition. rewrite !andb_true_iff, !negb_true_iff.
  intros [[? ?] ?%bool_decide_eq_true]. done.
Qed.

(** One turn of the loop, with the arrivals read as pushes. *)
Lemma transcodeLoop_step tick sched t :
  loopCondition t = true →
  transcodeLoop (tick :: sched) t
  = match mQueue (pushAll (arrivals tick ≫= arrivalPush) (mCodecMessageQueue t)) with
    | [] =>
        transcodeLoop sched
          (withQueue (pushAll (arrivals tick ≫= arrivalPush) (mCodecMessageQueue t)) t)
    | m :: rest =>
        transcodeLoop sched
          (execute (answers tick) m
             (withQueue
                (mkQueue rest
                   (mAborted (pushAll (arrivals tick ≫= arrivalPush)
                                (mCodecMessageQueue t)))) t))
    end.
Proof.
  intros Hc. cbn [transcodeLoop]. rewrite Hc, arriveAll_as_push.
  unfold pop. cbn [mCodecMessageQueue withQueue].
  by destruct (mQueue _).
Qed.

Lemma stop_message_exits env m sched t :
  isStopMessage m = true →
  transcodeLoop sched (execute env m t) = Exited (execute env m t)
  ∧ mCalls (execute env m t) = mCalls t
  ∧ mStopRequested (execute env m t) = true
  ∧ mEosFromEncoder (execute env m t) = mEosFromEncoder t
  ∧ mEncoderStarted (execute env m t) = mEncoderStarted t.
Proof.
  intros Hm. split; [|by destruct m].
  apply transcodeLoop_stopped. by destruct m.
Qed.

Lemma finish_after_stop tx :
  mStopRequested tx = true → mEosFromEncoder tx = false →
  (finishTranscodeLoop tx).1 ≠ AMEDIA_OK
  ∧ mCalls (finishTranscodeLoop tx).2 = mCalls tx ++ [CodecStop Decoder]
  ∧ mEncoderStarted (finishTranscodeLoop tx).2 = mEncoderStarted tx.
Proof.
  intros Hs He. unfold finishTranscodeLoop. cbv zeta. simpl.
  rewrite Hs, He. simpl.
  destruct (bool_decide (mStatus tx = AMEDIA_OK)) eqn:Eb; simpl.
  - done.
  - by apply bool_decide_eq_false in Eb.
Qed.

Lemma finish_calls tx :
  mCalls (finishTranscodeLoop tx).2 = mCalls tx ++ [CodecStop Decoder].
Proof. unfold finishTranscodeLoop. cbv zeta. by destruct (_ && _). Qed.

Lemma finish_ok tx :
  loopCondition tx = false → (finishTranscodeLoop tx).1 = AMEDIA_OK →
  mEosFromEncoder tx = true.
Proof.
  unfold loopCondition, finishTranscodeLoop. cbv zeta. simpl.
  destruct (mStopRequested tx), (mEosFromEncoder tx); simpl; try done;
    destruct (bool_decide (mStatus tx = AMEDIA_OK)) eqn:Eb; simpl; try done;
    intros _ E; by apply bool_decide_eq_false in Eb.
Qed.

Lemma start_queue t :
  mAborted (mCodecMessageQueue t) = false →
  mCodecMessageQueue
    (pushMessage MsgStartEncoder false (pushMessage MsgStartDecoder false t))
  = mkQueue (mQueue (mCodecMessageQueue t) ++ [MsgStartDecoder; MsgStartEncoder])
      false.
Proof.
  intros Ha. unfold pushMessage, push. simpl. rewrite Ha. simpl.
  rewrite ?Ha. simpl. by rewrite <-app_assoc.
Qed.

(** X21: a stop request (an abort or a codec error) that arrives before the
    loop runs its first message is run ahead of the two start messages: the
    codecs are never started, the decoder is stopped, and the run returns
    an error. *)
Theorem stop_request_before_start tick sched t :
  loopCondition t = true → mAborted (mCodecMessageQueue t) = false →
  Exists (λ a, queuesBehind a = false) (arrivals tick) →
  ∃ r t', runTranscodeLoop (tick :: sched) t = Some (r, t')
    ∧ r ≠ AMEDIA_OK
    ∧ mCalls t' = mCalls t ++ [CodecStop Decoder]
    ∧ mEncoderStarted t' = mEncoderStarted t.
Proof.
  intros Hc Ha Hex. unfold runTranscodeLoop. cbv zeta.
  rewrite transcodeLoop_step by exact Hc.
  rewrite (start_queue t Ha), pushAll_queue by done.
  destruct (arrivals_shape (arrivals tick)) as (Hf & _ & _ & Hne & _).
  specialize (Hne Hex).
  apply Forall_reverse in Hf.
  destruct (reverse (pushedFront (arrivals tick ≫= arrivalPush)))
    as [|m fronts] eqn:Er.
  { destruct Hne. apply (f_equal reverse) in Er.
    by rewrite reverse_involutive in Er. }
  apply Forall_cons in Hf as [Hm _]. cbn [mQueue mAborted app].
  match goal with |- context [execute ?e m ?s] =>
    destruct (stop_message_exits e m sched s Hm) as (-> & Ecalls & Estop & Eeos & Est);
    destruct (finish_after_stop (execute e m s)) as (Hr & Hcalls & Hst);
      [done| |]
  end.
  { rewrite Eeos. by destruct (loopCondition_true _ Hc) as (_ & ? & _). }
  eexists _, _. split; [by rewrite <-surjective_pairing|].
  split; [done|]. split; [by rewrite Hcalls, Ecalls|by rewrite Hst, Est].
Qed.

(** Once the start messages are gone from the queue, the loop starts and
    stops no codec. *)
Lemma loop_started sched : ∀ t,
  Forall (λ m, isStartMessage m = false) (mQueue (mCodecMessageQueue t)) →
  ∃ rest, mCalls (resultState (transcodeLoop sched t)) = mCalls t ++ rest
          ∧ Forall (λ c, isCodecStartOrStop c = false) rest.
Proof.
  induction sched as [|tick sched IH]; intros t Hq.
  - exists []. cbn. rewrite app_nil_r. by destruct (loopCondition t).
  - destruct (loopCondition t) eqn:Ec.
    2:{ exists []. rewrite transcodeLoop_stopped by done. by rewrite app_nil_r. }
    rewrite transcodeLoop_step by done.
    destruct (arrivals_shape (arrivals tick)) as (_ & _ & Hns & _).
    pose proof (pushAll_Forall _ _ _ Hns Hq) as Hq'.
    destruct (mQueue (pushAll _ _)) as [|m rest] eqn:Eq.
    + match goal with |- context [transcodeLoop sched ?s] =>
        destruct (IH s) as (rest' & E & Hrest')
      end.
      { cbn [mCodecMessageQueue withQueue]. by rewrite Eq. }
      exists rest'. split; [exact E|done].
    + apply Forall_cons in Hq' as [Hm Hrest].
      match goal with |- context [execute ?e m ?s] =>
        destruct (execute_effects e m s) as (Equeue & cs & Ecs & Hcs & _);
        destruct (IH (execute e m s)) as (rest' & E & Hrest')
      end.
      { by rewrite Equeue. }
      exists (cs ++ rest'). rewrite E, Ecs, <-app_assoc. split; [done|].
      apply Forall_app. split; [by apply Hcs|done].
Qed.

Lemma execute_start env c t :
  mCalls (execute env (startMessage c) t) = mCalls t ++ [CodecStart c]
  ∧ mCodecMessageQueue (execute env (startMessage c) t) = mCodecMessageQueue t.
Proof. destruct c; simpl; by destruct (decide _). Qed.

(** The loop while start messages are pending: a stop message runs ahead
    of them and ends the loop; otherwise they run in their order, before
    anything that queued up behind them. *)
Lemma loop_starting sched : ∀ t fronts starts backs,
  mCodecMessageQueue t
  = mkQueue (fronts ++ (startMessage <$> starts) ++ backs) false →
  Forall (λ m, isStopMessage m = true) fronts →
  Forall (λ m, isStartMessage m = false) backs →
  ∃ n rest,
    mCalls (resultState (transcodeLoop sched t))
    = mCalls t ++ (CodecStart <$> take n starts) ++ rest
    ∧ ((n < length starts)%nat → rest = [])
    ∧ Forall (λ c, isCodecStartOrStop c = false) rest.
Proof.
  induction sched as [|tick sched IH]; intros t fronts starts backs Hq Hf Hb.
  - exists 0%nat, []. cbn. rewrite app_nil_r. by destruct (loopCondition t).
  - destruct (loopCondition t) eqn:Ec.
    2:{ exists 0%nat, []. rewrite transcodeLoop_stopped by done.
        cbn. by rewrite app_nil_r. }
    destruct starts as [|c starts].
    { destruct (loop_started (tick :: sched) t) as (rest & E & Hrest).
      - rewrite Hq. cbn. apply Forall_app. split; [|done].
        eapply Forall_impl; [exact Hf|]. by intros [].
      - exists 0%nat, rest. split; [done|]. split; [simpl; lia|done]. }
    rewrite transcodeLoop_step by done.
    rewrite Hq, pushAll_queue by done.
    destruct (arrivals_shape (arrivals tick)) as (Hpf & Hpb & _).
    apply Forall_reverse in Hpf.
    set (pf := reverse (pushedFront (arrivals tick ≫= arrivalPush))) in *.
    set (pb := pushedBack (arrivals tick ≫= arrivalPush)) in *.
    cbn [mQueue mAborted].
    assert (pf ++ (fronts ++ (startMessage <$> c :: starts) ++ backs) ++ pb
            = (pf ++ fronts)
              ++ startMessage c :: (startMessage <$> starts) ++ (backs ++ pb)) as ->.
    { rewrite fmap_cons. by rewrite <-!app_assoc. }
    assert (Forall (λ m, isStopMessage m = true) (pf ++ fronts)) as Hstop.
    { by apply Forall_app. }
    destruct (pf ++ fronts) as [|m more].
    + cbn [app].
      match goal with |- context [execute ?e (startMessage c) ?s] =>
        destruct (execute_start e c s) as [Ecalls Equeue];
        destruct (IH (execute e (startMessage c) s) [] starts (backs ++ pb))
          as (n & rest & E & Hn & Hrest)
      end.
      { by rewrite Equeue. }
      { constructor. }
      { by apply Forall_app. }
      exists (S n), rest. rewrite E, Ecalls. cbn [take fmap list_fmap].
      split; [by rewrite <-app_assoc|]. split; [|done].
      intros Hlt. apply Hn. simpl in Hlt. lia.
    + apply Forall_cons in Hstop as [Hm _]. cbn [app].
      match goal with |- context [execute ?e m ?s] =>
        destruct (stop_message_exits e m sched s Hm) as (-> & Ecalls & _)
      end.
      exists 0%nat, []. cbn. rewrite app_nil_r. split; [done|]. split; [done|constructor].
Qed.

(** X22: on a fresh queue the run starts the decoder, then the encoder,
    before any other call on a codec; a stop request or a failed start may
    cut this short; the decoder is stopped once, at the very end. *)
Theorem codecs_are_started_first sched t r t' :
  mCodecMessageQueue t = mkQueue [] false →
  runTranscodeLoop sched t = Some (r, t') →
  ∃ cs, mCalls t' = mCalls t ++ cs ++ [CodecStop Decoder]
    ∧ (cs = [] ∨ cs = [CodecStart Decoder]
       ∨ ∃ rest, cs = CodecStart Decoder :: CodecStart Encoder :: rest
                 ∧ Forall (λ c, isCodecStartOrStop c = false) rest).
Proof.
  intros Hq. unfold runTranscodeLoop. cbv zeta.
  destruct (loop_starting sched
              (pushMessage MsgStartEncoder false (pushMessage MsgStartDecoder false t))
              [] [Decoder; Encoder] []) as (n & rest & E & Hn & Hrest).
  { rewrite start_queue by (by rewrite Hq). by rewrite Hq. }
  { constructor. }
  { constructor. }
  destruct (transcodeLoop sched _) as [tx|tx]; [|done].
  intros Er.
  assert (t' = (finishTranscodeLoop tx).2) as -> by (by injection Er as <-).
  rewrite finish_calls. cbn [resultState] in E. rewrite E.
  change (mCalls (pushMessage MsgStartEncoder false
                    (pushMessage MsgStartDecoder false t))) with (mCalls t).
  exists ((CodecStart <$> take n [Decoder; Encoder]) ++ rest).
  split; [by rewrite <-!app_assoc|].
  destruct n as [|[|n]].
  - left. rewrite Hn by (simpl; lia). done.
  - right. left. rewrite Hn by (simpl; lia). done.
  - right. right. exists rest. split; [|done]. by destruct n.
Qed.

(** Without an encoder output flagged end-of-stream, [mEosFromEncoder]
    stays unset. *)
Lemma loop_no_eos sched : ∀ t,
  Forall (λ tick, Forall (λ a, isEncoderEosArrival a = false) (arrivals tick)) sched →
  mEosFromEncoder t = false →
  Forall (λ m, isEncoderEos m = false) (mQueue (mCodecMessageQueue t)) →
  mEosFromEncoder (resultState (transcodeLoop sched t)) = false.
Proof.
  induction sched as [|tick sched IH]; intros t Hs He Hq.
  - cbn. by destruct (loopCondition t).
  - destruct (loopCondition t) eqn:Ec.
    2:{ by rewrite transcodeLoop_stopped. }
    apply Forall_cons in Hs as [Htick Hs].
    rewrite transcodeLoop_step by done.
    destruct (arrivals_shape (arrivals tick)) as (_ & _ & _ & _ & Hne).
    pose proof (pushAll_Forall _ _ _ (Hne Htick) Hq) as Hq'.
    destruct (mQueue (pushAll _ _)) as [|m rest] eqn:Eq.
    + match goal with |- context [transcodeLoop sched ?s] =>
        apply (IH s Hs He)
      end.
      cbn [mCodecMessageQueue withQueue]. by rewrite Eq.
    + apply Forall_cons in Hq' as [Hm Hrest].
      match goal with |- context [execute ?e m ?s] =>
        destruct (execute_effects e m s) as (Equeue & cs & _ & _ & _ & _ & Heos & _)
      end.
      apply IH; [done| |by rewrite Equeue].
      match goal with |- ?x = false => destruct x eqn:Ex; [|done] end.
      destruct (Heos eq_refl) as [E|E]; [|congruence].
      cbn in E. congruence.
Qed.

(** X23: the run returns [AMEDIA_OK] only when the encoder has delivered
    an output buffer flagged end-of-stream. *)
Theorem success_needs_encoder_eos sched t t' :
  mEosFromEncoder t = false → mQueue (mCodecMessageQueue t) = [] →
  runTranscodeLoop sched t = Some (AMEDIA_OK, t') →
  Exists (λ tick, Exists (λ a, isEncoderEosArrival a = true) (arrivals tick)) sched.
Proof.
  intros He Hq Hrun.
  destruct (Forall_Exists_dec
              (λ tick, Forall (λ a, isEncoderEosArrival a = false) (arrivals tick))
              (λ tick, Exists (λ a, isEncoderEosArrival a = true) (arrivals tick))
              (λ tick, Forall_Exists_dec
                         (λ a, isEncoderEosArrival a = false)
                         (λ a, isEncoderEosArrival a = true)
                         (λ a, match isEncoderEosArrival a as b
                                     return {b = false} + {b = true} with
                               | true => right eq_refl
                               | false => left eq_refl
                               end) (arrivals tick)) sched) as [Hno|Hex]; [|done].
  exfalso. revert Hrun. unfold runTranscodeLoop. cbv zeta.
  pose proof (loop_no_eos sched
                (pushMessage MsgStartEncoder false (pushMessage MsgStartDecoder false t))
                Hno He) as Hloop.
  destruct (transcodeLoop sched _) as [tx|tx] eqn:El; [|done].
  intros Er.
  assert (finishTranscodeLoop tx = (AMEDIA_OK, t')) as Ef by congruence.
  assert ((finishTranscodeLoop tx).1 = AMEDIA_OK) as Hok by (by rewrite Ef).
  pose proof (finish_ok tx (transcodeLoop_Exited _ _ _ El) Hok) as Heos.
  cbn [resultState] in Hloop. rewrite Hloop in Heos; [done|].
  change (mCodecMessageQueue
            (pushMessage MsgStartEncoder false (pushMessage MsgStartDecoder false t)))
    with (pushAll [(MsgStartDecoder, false); (MsgStartEncoder, false)]
            (mCodecMessageQueue t)).
  apply pushAll_Forall; [by repeat constructor|]. by rewrite Hq.
Qed.

(** X24: once the source has reported its end of stream, the loop asks the
    reader for nothing more and queues no further input buffer. *)
Theorem nothing_is_read_after_source_eos sched t :
  mEosFromSource t = true →
  ∃ cs, mCalls (resultState (transcodeLoop sched t)) = mCalls t ++ cs
        ∧ Forall (λ c, isInputCall c = false) cs.
Proof.
  revert t. induction sched as [|tick sched IH]; intros t He.
  - exists []. cbn. rewrite app_nil_r. by destruct (loopCondition t).
  - destruct (loopCondition t) eqn:Ec.
    2:{ exists []. rewrite transcodeLoop_stopped by done. by rewrite app_nil_r. }
    rewrite transcodeLoop_step by done.
    destruct (mQueue (pushAll _ _)) as [|m rest] eqn:Eq.
    + match goal with |- context [transcodeLoop sched ?s] =>
        destruct (IH s He) as (rest' & E & Hrest')
      end.
      exists rest'. split; [exact E|done].
    + match goal with |- context [execute ?e m ?s] =>
        destruct (execute_effects e m s) as (_ & cs & Ecs & _ & Hcs & Hkeep & _);
        destruct (IH (execute e m s)) as (rest' & E & Hrest')
      end.
      { by apply Hkeep. }
      exists (cs ++ rest'). rewrite E, Ecs, <-app_assoc. split; [done|].
      apply Forall_app. split; [by apply Hcs|done].
Qed.

(** A turn of the loop runs the message at the head of the queue, whatever
    queues up behind it in the meantime. *)
Lemma loop_head tick sched t m rest :
  loopCondition t = true →
  mQueue (mCodecMessageQueue t) = m :: rest →
  Forall (λ a, queuesBehind a = true) (arrivals tick) →
  ∃ more,
    transcodeLoop (tick :: sched) t
    = transcodeLoop sched
        (execute (answers tick) m
           (withQueue (mkQueue (rest ++ more) (mAborted (mCodecMessageQueue t))) t)).
Proof.
  intros Hc Hq Hb.
  destruct (arriveAll_behind (arrivals tick) t m rest Hb Hq) as (more & E).
  exists more. cbn [transcodeLoop]. by rewrite Hc, E.
Qed.

(** X25: when the encoder's format cannot be copied, [updateTrackFormat]
    records [AMEDIA_ERROR_INVALID_PARAMETER]: no format is published, the
    sink is not told of one, the loop is left at once and the run returns
    that error. *)
Theorem format_copy_failure_ends_run tick sched t format rest :
  loopCondition t = true →
  mQueue (mCodecMessageQueue t) = MsgUpdateTrackFormat format :: rest →
  Forall (λ a, queuesBehind a = true) (arrivals tick) →
  mActualOutputFormat t = None → formatCopyOk (answers tick) = false →
  ∃ tx, transcodeLoop (tick :: sched) t = Exited tx
    ∧ (finishTranscodeLoop tx).1 = AMEDIA_ERROR_INVALID_PARAMETER
    ∧ getOutputFormat (finishTranscodeLoop tx).2 = None
    ∧ mCalls (finishTranscodeLoop tx).2 = mCalls t ++ [CodecStop Decoder].
Proof.
  intros Hc Hq Hb Hnone Hfail.
  destruct (loop_head tick sched t _ rest Hc Hq Hb) as (more & ->).
  cbn [execute]. unfold updateTrackFormat. cbn [mActualOutputFormat withQueue].
  rewrite Hnone, Hfail.
  eexists. split.
  { apply transcodeLoop_stopped. unfold loopCondition. simpl.
    by rewrite andb_false_r. }
  unfold finishTranscodeLoop, getOutputFormat. cbv zeta. simpl.
  rewrite andb_false_r. simpl. by split_and!.
Qed.

(** X27: [enqueueInputSample] reads sample data only into an input buffer
    that exists and is large enough for the sample, and queues the input
    buffer only at the source's end of stream or after a successful
    read. *)
Theorem enqueueInputSample_reads_within_buffer env bufferIndex t :
  ∃ cs, mCalls (enqueueInputSample env bufferIndex t) = mCalls t ++ cs
    ∧ (∀ n, ReadSampleDataForTrack n ∈ cs →
         sampleInfoStatus env = AMEDIA_OK ∧ n = si_size (sampleInfo env)
         ∧ ∃ b, inputBufferSize env = Some b ∧ n ≤ b)
    ∧ (∀ i n p f, QueueInputBuffer i n p f ∈ cs →
         i = bufferIndex
         ∧ (sampleInfoStatus env = AMEDIA_ERROR_END_OF_STREAM
            ∨ (sampleInfoStatus env = AMEDIA_OK ∧ readStatus env = AMEDIA_OK
               ∧ ReadSampleDataForTrack n ∈ cs))).
Proof.
  unfold enqueueInputSample.
  destruct (mEosFromSource t).
  { exists []. rewrite app_nil_r. split; [done|].
    split; intros; by apply elem_of_nil in H. }
  cbv zeta.
  destruct (decide (sampleInfoStatus env ≠ AMEDIA_OK
                    ∧ sampleInfoStatus env ≠ AMEDIA_ERROR_END_OF_STREAM)) as [Hbad|Hgood].
  { exists [GetSampleInfoForTrack]. split; [done|].
    split; intros; repeat (apply elem_of_cons in H as [H|H]; [done|]);
      by apply elem_of_nil in H. }
  destruct (bool_decide (sampleInfoStatus env = AMEDIA_ERROR_END_OF_STREAM)) eqn:Eb;
    simpl.
  - apply bool_decide_eq_true in Eb.
    eexists. split.
    { destruct (decide (queueStatus env ≠ AMEDIA_OK)); simpl; calls_tac. }
    split.
    + intros n H. repeat (apply elem_of_cons in H as [H|H]; [done|]).
      by apply elem_of_nil in H.
    + intros i n p f H. apply elem_of_cons in H as [H|H]; [done|].
      apply elem_of_cons in H as [H|H]; [|by apply elem_of_nil in H].
      injection H as -> _ _ _. by split; [|left].
  - apply bool_decide_eq_false in Eb.
    assert (sampleInfoStatus env = AMEDIA_OK) as Hok.
    { destruct (decide (sampleInfoStatus env = AMEDIA_OK)); [done|].
      destruct Hgood. by split. }
    destruct (inputBufferSize env) as [b|] eqn:Ebuf.
    2:{ exists [GetSampleInfoForTrack]. split; [done|].
        split; intros; repeat (apply elem_of_cons in H as [H|H]; [done|]);
          by apply elem_of_nil in H. }
    cbn [mSampleInfo withSampleInfo call].
    destruct (decide (b < si_size (sampleInfo env))) as [Hsmall|Hfits]; simpl.
    { exists [GetSampleInfoForTrack]. split; [done|].
      split; intros; repeat (apply elem_of_cons in H as [H|H]; [done|]);
        by apply elem_of_nil in H. }
    destruct (decide (readStatus env ≠ AMEDIA_OK)) as [Hread|Hread]; simpl.
    { exists [GetSampleInfoForTrack; ReadSampleDataForTrack (si_size (sampleInfo env))].
      split; [by rewrite <-app_assoc|]. split.
      - intros n H. apply elem_of_cons in H as [H|H]; [done|].
        apply elem_of_cons in H as [H|H]; [|by apply elem_of_nil in H].
        injection H as ->. split; [done|]. split; [done|]. exists b. split; [done|lia].
      - intros i n p f H. repeat (apply elem_of_cons in H as [H|H]; [done|]).
        by apply elem_of_nil in H. }
    assert (readStatus env = AMEDIA_OK) as Hrok.
    { destruct (decide (readStatus env = AMEDIA_OK)); [done|]. by destruct Hread. }
    eexists. split.
    { destruct (decide (queueStatus env ≠ AMEDIA_OK)); simpl; calls_tac. }
    split.
    + intros n H. apply elem_of_cons in H as [H|H]; [done|].
      apply elem_of_cons in H as [H|H].
      * injection H as ->. split; [done|]. split; [done|]. exists b. split; [done|lia].
      * repeat (apply elem_of_cons in H as [H|H]; [done|]). by apply elem_of_nil in H.
    + intros i n p f H. apply elem_of_cons in H as [H|H]; [done|].
      apply elem_of_cons in H as [H|H]; [done|].
      apply elem_of_cons in H as [H|H]; [|by apply elem_of_nil in H].
      injection H as -> -> _ _. split; [done|]. right. split; [done|]. split; [done|].
      right. by left.
Qed.

Lemma getInt32_Some (f : gmap string FormatValue) name v :
  AMediaFormat_getInt32 f name = Some v → f !! name = Some (VInt32 v).
Proof.
  unfold AMediaFormat_getInt32. destruct (f !! name) as [[]|]; try done.
  by intros [= ->].
Qed.

Lemma getInt64_Some (f : gmap string FormatValue) name v :
  AMediaFormat_getInt64 f name = Some v → f !! name = Some (VInt64 v).
Proof.
  unfold AMediaFormat_getInt64. destruct (f !! name) as [[]|]; try done.
  by intros [= ->].
Qed.

Lemma validDimensions_Some src kw kh w h :
  validDimensions src kw kh = Some (w, h) →
  src !! kw = Some (VInt32 w) ∧ src !! kh = Some (VInt32 h).
Proof.
  unfold validDimensions.
  destruct (AMediaFormat_getInt32 src kw) as [w'|] eqn:Ew; [|done].
  destruct (AMediaFormat_getInt32 src kh) as [h'|] eqn:Eh; [|done].
  destruct (bool_decide _); [|done]. intros [= -> ->].
  split; by apply getInt32_Some.
Qed.

(** X28: the published track format extends the encoder's: no key of the
    encoder's format is dropped, and an entry that differs from the
    encoder's is one of the six transferred keys with the very entry of the
    source format. *)
Theorem published_format_extends_encoder_format src out name :
  (is_Some (out !! name) → is_Some (composeTrackFormat src out !! name))
  ∧ (composeTrackFormat src out !! name ≠ out !! name →
     name ∈ transferredKeys ∧ composeTrackFormat src out !! name = src !! name).
Proof.
  rewrite composeTrackFormat_lookup. unfold overlaidEntry, transferredKeys.
  repeat (destruct (decide (name = _)) as [->|?]);
    try (split; [done|]; intros Hne; by destruct Hne).
  all: try (destruct (validDimensions src _ _) as [[w h]|] eqn:Ev;
            [destruct (validDimensions_Some _ _ _ _ _ Ev) as [Hw Hh]|
             split; [done|]; intros Hne; by destruct Hne]).
  all: try (destruct (AMediaFormat_getInt32 src _) as [r|] eqn:Er;
            [apply getInt32_Some in Er; destruct (decide (r ≠ 0))|];
            try (split; [done|]; intros Hne; by destruct Hne)).
  all: try (destruct (AMediaFormat_getInt64 src _) as [d|] eqn:Ed;
            [apply getInt64_Some in Ed; destruct (decide (0 < d))|];
            try (split; [done|]; intros Hne; by destruct Hne)).
  all: split; [by eauto|]; intros _; split; [|done];
    rewrite !elem_of_cons; tauto.
Qed.

Lemma push_sequence_witness :
  (mAborted (mCodecMessageQueue runningTranscoder) = false)
  ∧ (pushAll [(MsgAbort, true); (MsgStartDecoder, false)] (mCodecMessageQueue runningTranscoder)
  = mkQueue (reverse (pushedFront [(MsgAbort, true); (MsgStartDecoder, false)]) ++ mQueue
      (mCodecMessageQueue runningTranscoder) ++ pushedBack [(MsgAbort, true); (MsgStartDecoder,
      false)]) false).
Proof.
  assert (mAborted (mCodecMessageQueue runningTranscoder) = false) as H0
    by (reflexivity).
  split; [exact H0|].
  exact (push_sequence
           ([(MsgAbort, true); (MsgStartDecoder, false)])
           (mCodecMessageQueue runningTranscoder)
           H0).
Defined.

Lemma callbacks_after_the_run_are_dropped_witness :
  (runTranscodeLoop cleanRun transcoder0 = Some (AMEDIA_OK, cleanEnd))
  ∧ (mCodecMessageQueue cleanEnd = mkQueue [] true ∧ arriveAll [AbortTranscodeLoop] cleanEnd =
      cleanEnd).
Proof.
  assert (runTranscodeLoop cleanRun transcoder0 = Some (AMEDIA_OK, cleanEnd)) as H0
    by (vm_compute; reflexivity).
  split; [exact H0|].
  exact (callbacks_after_the_run_are_dropped
           cleanRun
           transcoder0
           AMEDIA_OK
           cleanEnd
           ([AbortTranscodeLoop])
           H0).
Defined.

Lemma stop_request_before_start_witness :
  (loopCondition transcoder0 = true)
  ∧ (mAborted (mCodecMessageQueue transcoder0) = false)
  ∧ (Exists (λ a, queuesBehind a = false) (arrivals (mkTick [AbortTranscodeLoop] envOk)))
  ∧ (∃ r t', runTranscodeLoop ((mkTick [AbortTranscodeLoop] envOk) :: cleanRun) transcoder0 =
      Some (r, t')
    ∧ r ≠ AMEDIA_OK
    ∧ mCalls t' = mCalls transcoder0 ++ [CodecStop Decoder]
    ∧ mEncoderStarted t' = mEncoderStarted transcoder0).
Proof.
  assert (loopCondition transcoder0 = true) as H0
    by (vm_compute; reflexivity).
  assert (mAborted (mCodecMessageQueue transcoder0) = false) as H1
    by (reflexivity).
  assert (Exists (λ a, queuesBehind a = false) (arrivals (mkTick [AbortTranscodeLoop] envOk)))
      as H2
    by (apply Exists_cons_hd; reflexivity).
  split; [exact H0|].
  split; [exact H1|].
  split; [exact H2|].
  exact (stop_request_before_start
           (mkTick [AbortTranscodeLoop] envOk)
           cleanRun
           transcoder0
           H0 H1 H2).
Defined.

Lemma codecs_are_started_first_witness :
  (mCodecMessageQueue transcoder0 = mkQueue [] false)
  ∧ (runTranscodeLoop cleanRun transcoder0 = Some (AMEDIA_OK, cleanEnd))
  ∧ (∃ cs, mCalls cleanEnd = mCalls transcoder0 ++ cs ++ [CodecStop Decoder]
    ∧ (cs = [] ∨ cs = [CodecStart Decoder]
       ∨ ∃ rest, cs = CodecStart Decoder :: CodecStart Encoder :: rest
                 ∧ Forall (λ c, isCodecStartOrStop c = false) rest)).
Proof.
  assert (mCodecMessageQueue transcoder0 = mkQueue [] false) as H0
    by (reflexivity).
  assert (runTranscodeLoop cleanRun transcoder0 = Some (AMEDIA_OK, cleanEnd)) as H1
    by (vm_compute; reflexivity).
  split; [exact H0|].
  split; [exact H1|].
  exact (codecs_are_started_first
           cleanRun
           transcoder0
           AMEDIA_OK
           cleanEnd
           H0 H1).
Defined.

Lemma success_needs_encoder_eos_witness :
  (mEosFromEncoder transcoder0 = false)
  ∧ (mQueue (mCodecMessageQueue transcoder0) = [])
  ∧ (runTranscodeLoop cleanRun transcoder0 = Some (AMEDIA_OK, cleanEnd))
  ∧ (Exists (λ tick, Exists (λ a, isEncoderEosArrival a = true) (arrivals tick)) cleanRun).
Proof.
  assert (mEosFromEncoder transcoder0 = false) as H0
    by (reflexivity).
  assert (mQueue (mCodecMessageQueue transcoder0) = []) as H1
    by (reflexivity).
  assert (runTranscodeLoop cleanRun transcoder0 = Some (AMEDIA_OK, cleanEnd)) as H2
    by (vm_compute; reflexivity).
  split; [exact H0|].
  split; [exact H1|].
  split; [exact H2|].
  exact (success_needs_encoder_eos
           cleanRun
           transcoder0
           cleanEnd
           H0 H1 H2).
Defined.

Lemma nothing_is_read_after_source_eos_witness :
  (mEosFromSource (enqueueInputSample envEos 1 runningTranscoder) = true)
  ∧ (∃ cs, mCalls (resultState (transcodeLoop cleanRun (enqueueInputSample envEos 1
      runningTranscoder))) = mCalls (enqueueInputSample envEos 1 runningTranscoder) ++ cs
        ∧ Forall (λ c, isInputCall c = false) cs).
Proof.
  assert (mEosFromSource (enqueueInputSample envEos 1 runningTranscoder) = true) as H0
    by (vm_compute; reflexivity).
  split; [exact H0|].
  exact (nothing_is_read_after_source_eos
           cleanRun
           (enqueueInputSample envEos 1 runningTranscoder)
           H0).
Defined.

Lemma format_copy_failure_ends_run_witness :
  (loopCondition formatPending = true)
  ∧ (mQueue (mCodecMessageQueue formatPending) = MsgUpdateTrackFormat encoderFormat0 :: [])
  ∧ (Forall (λ a, queuesBehind a = true) (arrivals (mkTick [] envNoCopy)))
  ∧ (mActualOutputFormat formatPending = None)
  ∧ (formatCopyOk (answers (mkTick [] envNoCopy)) = false)
  ∧ (∃ tx, transcodeLoop ((mkTick [] envNoCopy) :: cleanRun) formatPending = Exited tx
    ∧ (finishTranscodeLoop tx).1 = AMEDIA_ERROR_INVALID_PARAMETER
    ∧ getOutputFormat (finishTranscodeLoop tx).2 = None
    ∧ mCalls (finishTranscodeLoop tx).2 = mCalls formatPending ++ [CodecStop Decoder]).
Proof.
  assert (loopCondition formatPending = true) as H0
    by (vm_compute; reflexivity).
  assert (mQueue (mCodecMessageQueue formatPending) = MsgUpdateTrackFormat encoderFormat0 ::
      []) as H1
    by (reflexivity).
  assert (Forall (λ a, queuesBehind a = true) (arrivals (mkTick [] envNoCopy))) as H2
    by (constructor).
  assert (mActualOutputFormat formatPending = None) as H3
    by (reflexivity).
  assert (formatCopyOk (answers (mkTick [] envNoCopy)) = false) as H4
    by (reflexivity).
  split; [exact H0|].
  split; [exact H1|].
  split; [exact H2|].
  split; [exact H3|].
  split; [exact H4|].
  exact (format_copy_failure_ends_run
           (mkTick [] envNoCopy)
           cleanRun
           formatPending
           encoderFormat0
           ([])
           H0 H1 H2 H3 H4).
Defined.

(** *** The run loop from its start to its return *)

Lemma transcodeLoop_Waiting sched : ∀ t tw,
  transcodeLoop sched t = Waiting tw → loopCondition tw = true.
Proof.
  induction sched as [|tick sched IH]; intros t tw; simpl.
  - destruct (loopCondition t) eqn:E; [|done]. by intros [= <-].
  - destruct (loopCondition t) eqn:E; [|done].
    destruct (pop _) as [[m q]|]; apply IH.
Qed.

(** A schedule in two parts: the second part continues where the first
    leaves the loop running. *)
Lemma transcodeLoop_app pre post : ∀ t,
  transcodeLoop (pre ++ post) t
  = match transcodeLoop pre t with
    | Waiting tw => transcodeLoop post tw
    | Exited tx => Exited tx
    end.
Proof.
  induction pre as [|tick pre IH]; intros t.
  - cbn [app transcodeLoop]. destruct (loopCondition t) eqn:E; [done|].
    by apply transcodeLoop_stopped.
  - cbn [app transcodeLoop]. destruct (loopCondition t); [|done].
    destruct (pop _) as [[m q]|]; apply IH.
Qed.

Lemma transcodeLoop_nil t : resultState (transcodeLoop [] t) = t.
Proof. cbn. by destruct (loopCondition t). Qed.

(** Nothing in the loop aborts the queue. *)
Lemma loop_not_aborted sched : ∀ t,
  mAborted (mCodecMessageQueue t) = false →
  mAborted (mCodecMessageQueue (resultState (transcodeLoop sched t))) = false.
Proof.
  induction sched as [|tick sched IH]; intros t Ha.
  - by rewrite transcodeLoop_nil.
  - destruct (loopCondition t) eqn:Ec.
    2:{ by rewrite transcodeLoop_stopped. }
    rewrite transcodeLoop_step by done. rewrite pushAll_queue by done.
    cbn [mQueue mAborted].
    destruct (reverse _ ++ _) as [|m rest].
    + by apply IH.
    + apply IH.
      match goal with |- context [execute ?e m ?s] =>
        destruct (execute_effects e m s) as [-> _]
      end.
      done.
Qed.

Lemma execute_stop env m t :
  mStopRequested (execute env m t) = true →
  mStopRequested t = true ∨ isStopMessage m = true.
Proof.
  destruct m as [| |index|[] index bufferInfo|format|error|]; simpl;
    unfold enqueueInputSample, transferBuffer, dequeueOutputSample,
      onOutputSampleAvailable, updateTrackFormat, notifyTrackFormatAvailable;
    cbv zeta; repeat case_match; simpl; auto.
Qed.

Lemma arrivals_behind l :
  Forall (λ a, queuesBehind a = true) l →
  pushedFront (l ≫= arrivalPush) = []
  ∧ Forall (λ p, isStopMessage p.1 = false) (l ≫= arrivalPush).
Proof.
  induction l as [|a l IH]; intros Hl; [done|].
  apply Forall_cons in Hl as [Ha Hl]. destruct (IH Hl) as [E Hns].
  change ((a :: l) ≫= arrivalPush) with (arrivalPush a ++ (l ≫= arrivalPush)).
  rewrite pushedFront_app, E.
  destruct a as [c i|c i b|c f|c e x|]; simpl in *; try done;
    try destruct (decide _); simpl; split; try done;
    repeat constructor; done.
Qed.

(** Without a stop request, [mStopRequested] stays unset. *)
Lemma loop_no_stop sched : ∀ t,
  Forall (λ tick, Forall (λ a, queuesBehind a = true) (arrivals tick)) sched →
  mStopRequested t = false →
  Forall (λ m, isStopMessage m = false) (mQueue (mCodecMessageQueue t)) →
  mStopRequested (resultState (transcodeLoop sched t)) = false.
Proof.
  induction sched as [|tick sched IH]; intros t Hs He Hq.
  - by rewrite transcodeLoop_nil.
  - destruct (loopCondition t) eqn:Ec.
    2:{ by rewrite transcodeLoop_stopped. }
    apply Forall_cons in Hs as [Htick Hs].
    rewrite transcodeLoop_step by done.
    destruct (arrivals_behind _ Htick) as [_ Hns].
    pose proof (pushAll_Forall _ _ _ Hns Hq) as Hq'.
    destruct (mQueue (pushAll _ _)) as [|m rest] eqn:Eq.
    + match goal with |- context [transcodeLoop sched ?s] =>
        apply (IH s Hs He)
      end.
      cbn [mCodecMessageQueue withQueue]. by rewrite Eq.
    + apply Forall_cons in Hq' as [Hm Hrest].
      match goal with |- context [execute ?e m ?s] =>
        destruct (execute_effects e m s) as (Equeue & _);
        pose proof (execute_stop e m s) as Hstop
      end.
      apply IH; [done| |by rewrite Equeue].
      match goal with |- ?x = false => destruct x eqn:Ex; [|done] end.
      destruct (Hstop eq_refl) as [E|E]; [|congruence].
      cbn in E. congruence.
Qed.

(** The last stop request of a turn's arrivals is at the head of the queue
    when the loop pops. *)
Lemma front_arrival_head before a after m :
  arrivalPush a = [(m, true)] →
  Forall (λ a, queuesBehind a = true) after →
  reverse (pushedFront ((before ++ a :: after) ≫= arrivalPush))
  = m :: reverse (pushedFront (before ≫= arrivalPush)).
Proof.
  intros Ha Hafter. rewrite bind_app.
  change ((a :: after) ≫= arrivalPush) with (arrivalPush a ++ (after ≫= arrivalPush)).
  rewrite !pushedFront_app, Ha.
  destruct (arrivals_behind after Hafter) as [-> _].
  rewrite app_nil_r.
  change (pushedFront [(m, true)]) with [m].
  by rewrite reverse_app.
Qed.

Lemma arrivalPush_front_stop a m : arrivalPush a = [(m, true)] → isStopMessage m = true.
Proof.
  destruct a as [c i|c i b|c f|c e x|]; simpl; try destruct (decide _);
    intros [= <-]; done.
Qed.

(** The turn at which a stop request arrives is the last. *)
Lemma stop_turn tick post tw before a after m :
  loopCondition tw = true → mAborted (mCodecMessageQueue tw) = false →
  arrivals tick = before ++ a :: after →
  arrivalPush a = [(m, true)] →
  Forall (λ a, queuesBehind a = true) after →
  ∃ q, transcodeLoop (tick :: post) tw
       = Exited (execute (answers tick) m (withQueue q tw)).
Proof.
  intros Hc Ha Harr Hpush Hafter.
  rewrite transcodeLoop_step by done. rewrite pushAll_queue by done.
  rewrite Harr, (front_arrival_head _ _ _ _ Hpush Hafter).
  cbn [mQueue mAborted app].
  pose proof (arrivalPush_front_stop _ _ Hpush) as Hm.
  match goal with |- context [execute ?e m ?s] =>
    destruct (stop_message_exits e m post s Hm) as (-> & _)
  end.
  by eexists.
Qed.

Lemma start_fields t :
  loopCondition
    (pushMessage MsgStartEncoder false (pushMessage MsgStartDecoder false t))
  = loopCondition t
  ∧ mStopRequested
      (pushMessage MsgStartEncoder false (pushMessage MsgStartDecoder false t))
    = mStopRequested t
  ∧ mEosFromEncoder
      (pushMessage MsgStartEncoder false (pushMessage MsgStartDecoder false t))
    = mEosFromEncoder t.
Proof. done. Qed.

Lemma start_not_aborted t :
  mAborted (mCodecMessageQueue t) = false →
  mAborted (mCodecMessageQueue
              (pushMessage MsgStartEncoder false (pushMessage MsgStartDecoder false t)))
  = false.
Proof. intros Ha. by rewrite start_queue. Qed.

(** The run has not returned after [pre]: the loop is still running, on a
    queue that is not aborted. *)
Lemma run_pending pre t :
  mAborted (mCodecMessageQueue t) = false →
  runTranscodeLoop pre t = None →
  ∃ tw,
    transcodeLoop pre
      (pushMessage MsgStartEncoder false (pushMessage MsgStartDecoder false t))
    = Waiting tw
    ∧ loopCondition tw = true ∧ mAborted (mCodecMessageQueue tw) = false.
Proof.
  intros Ha. unfold runTranscodeLoop. cbv zeta.
  pose proof (loop_not_aborted pre _ (start_not_aborted t Ha)) as Hna.
  destruct (transcodeLoop pre _) as [tx|tw] eqn:E; [done|]. intros _.
  exists tw. split; [done|]. split; [|exact Hna].
  exact (transcodeLoop_Waiting _ _ _ E).
Qed.

(** The run returns at the turn whose message leaves the loop condition
    false, with what [finishTranscodeLoop] makes of that state. *)
Lemma run_returns pre tick post t tw tx :
  transcodeLoop pre
    (pushMessage MsgStartEncoder false (pushMessage MsgStartDecoder false t))
  = Waiting tw →
  transcodeLoop (tick :: post) tw = Exited tx →
  runTranscodeLoop (pre ++ tick :: post) t = Some (finishTranscodeLoop tx).
Proof.
  intros Hpre Htick. unfold runTranscodeLoop. cbv zeta.
  by rewrite transcodeLoop_app, Hpre, Htick.
Qed.

Lemma finish_result tx :
  (finishTranscodeLoop tx).1
  = if mStopRequested tx && negb (mEosFromEncoder tx)
       && bool_decide (mStatus tx = AMEDIA_OK)
    then AMEDIA_ERROR_UNKNOWN else mStatus tx.
Proof. unfold finishTranscodeLoop. cbv zeta. simpl. by destruct (_ && _). Qed.

Lemma finish_status tx : mStatus (finishTranscodeLoop tx).2 = (finishTranscodeLoop tx).1.
Proof. done. Qed.

Lemma dequeueOutputSample_eos index bufferInfo t :
  hasEosFlag (bi_flags bufferInfo) = true →
  mEosFromEncoder (dequeueOutputSample index bufferInfo t) = true
  ∧ mStatus (dequeueOutputSample index bufferInfo t) = mStatus t
  ∧ mStopRequested (dequeueOutputSample index bufferInfo t) = mStopRequested t.
Proof.
  intros He. unfold dequeueOutputSample. cbv zeta. rewrite He.
  by repeat destruct (decide _).
Qed.

(** C3: the value the run loop returns.  A run that returns has left the
    loop with its condition false, and returns the generic error when the
    stop was requested with the encoder not at its end of stream and no
    error recorded, the recorded error when there is one, and [AMEDIA_OK]
    when the encoder reached its end of stream without an error; on a fresh
    transcoder the stop flag and the end-of-stream flag come from a stop
    request and from an encoder output flagged end-of-stream that arrived
    during the run.  The other way round, while the run has not returned:
    an abort request makes it return the generic error, a codec error that
    error, any message that records an error that error, and the encoder's
    end-of-stream output [AMEDIA_OK]. *)
Theorem runTranscodeLoop_result t :
  mAborted (mCodecMessageQueue t) = false →
  (∀ sched r t',
     runTranscodeLoop sched t = Some (r, t') →
     ∃ tx,
       transcodeLoop sched
         (pushMessage MsgStartEncoder false (pushMessage MsgStartDecoder false t))
       = Exited tx
       ∧ loopCondition tx = false
       ∧ mStatus t' = r
       ∧ ((mStopRequested tx = true ∧ mEosFromEncoder tx = false
           ∧ mStatus tx = AMEDIA_OK ∧ r = AMEDIA_ERROR_UNKNOWN)
          ∨ (mStatus tx ≠ AMEDIA_OK ∧ r = mStatus tx)
          ∨ (mEosFromEncoder tx = true ∧ mStatus tx = AMEDIA_OK ∧ r = AMEDIA_OK))
       ∧ (loopCondition t = true → mQueue (mCodecMessageQueue t) = [] →
          (mStopRequested tx = true →
           Exists (λ tick, Exists (λ a, queuesBehind a = false) (arrivals tick)) sched)
          ∧ (mEosFromEncoder tx = true →
             Exists (λ tick, Exists (λ a, isEncoderEosArrival a = true) (arrivals tick))
               sched)))
  ∧ (∀ pre tick post before after,
       runTranscodeLoop pre t = None →
       arrivals tick = before ++ AbortTranscodeLoop :: after →
       Forall (λ a, queuesBehind a = true) after →
       ∃ t', runTranscodeLoop (pre ++ tick :: post) t
             = Some (AMEDIA_ERROR_UNKNOWN, t'))
  ∧ (∀ pre tick post before after codec e actionCode,
       runTranscodeLoop pre t = None →
       arrivals tick = before ++ OnAsyncError codec e actionCode :: after →
       Forall (λ a, queuesBehind a = true) after →
       e ≠ AMEDIA_OK →
       ∃ t', runTranscodeLoop (pre ++ tick :: post) t = Some (e, t'))
  ∧ (∀ pre tick post tw m rest,
       transcodeLoop pre
         (pushMessage MsgStartEncoder false (pushMessage MsgStartDecoder false t))
       = Waiting tw →
       mQueue (mCodecMessageQueue (arriveAll (arrivals tick) tw)) = m :: rest →
       mStatus (execute (answers tick) m (withQueue (mkQueue rest false) tw))
       ≠ AMEDIA_OK →
       ∃ t', runTranscodeLoop (pre ++ tick :: post) t
             = Some (mStatus (execute (answers tick) m
                                (withQueue (mkQueue rest false) tw)), t'))
  ∧ (∀ pre tick post tw index bufferInfo rest,
       transcodeLoop pre
         (pushMessage MsgStartEncoder false (pushMessage MsgStartDecoder false t))
       = Waiting tw →
       mQueue (mCodecMessageQueue (arriveAll (arrivals tick) tw))
       = MsgOutputAvailable Encoder index bufferInfo :: rest →
       hasEosFlag (bi_flags bufferInfo) = true →
       ∃ t', runTranscodeLoop (pre ++ tick :: post) t = Some (AMEDIA_OK, t')).
Proof.
  intros Ha. split_and!.
  - intros sched r t'. unfold runTranscodeLoop. cbv zeta.
    destruct (transcodeLoop sched _) as [tx|tx] eqn:El; [|done].
    intros Er.
    assert (finishTranscodeLoop tx = (r, t')) as Ef by congruence.
    assert (r = (finishTranscodeLoop tx).1) as Hr by (by rewrite Ef).
    assert (t' = (finishTranscodeLoop tx).2) as Ht by (by rewrite Ef).
    pose proof (transcodeLoop_Exited _ _ _ El) as Hexit.
    exists tx. split; [done|]. split; [done|].
    split; [by rewrite Ht, finish_status|].
    split.
    + rewrite Hr, finish_result. revert Hexit. unfold loopCondition.
      destruct (mStopRequested tx), (mEosFromEncoder tx);
        destruct (bool_decide (mStatus tx = AMEDIA_OK)) eqn:Eb; simpl;
        try (apply bool_decide_eq_true in Eb);
        try (apply bool_decide_eq_false in Eb); intros; try done; auto 10.
    + intros Hc Hq. split.
      * intros Hstop.
        destruct (Forall_Exists_dec
              (λ tick, Forall (λ a, queuesBehind a = true) (arrivals tick))
              (λ tick, Exists (λ a, queuesBehind a = false) (arrivals tick))
              (λ tick, Forall_Exists_dec
                         (λ a, queuesBehind a = true)
                         (λ a, queuesBehind a = false)
                         (λ a, match queuesBehind a as b
                                     return {b = true} + {b = false} with
                               | true => left eq_refl
                               | false => right eq_refl
                               end) (arrivals tick)) sched) as [Hno|Hex]; [|done].
        exfalso.
        pose proof (loop_no_stop sched
                      (pushMessage MsgStartEncoder false
                         (pushMessage MsgStartDecoder false t)) Hno) as Hloop.
        rewrite El in Hloop. cbn [resultState] in Hloop.
        rewrite Hloop in Hstop; [done| |].
        -- by destruct (loopCondition_true _ Hc) as (? & _).
        -- rewrite start_queue, Hq by done. by repeat constructor.
      * intros Heos.
        destruct (Forall_Exists_dec
              (λ tick, Forall (λ a, isEncoderEosArrival a = false) (arrivals tick))
              (λ tick, Exists (λ a, isEncoderEosArrival a = true) (arrivals tick))
              (λ tick, Forall_Exists_dec
                         (λ a, isEncoderEosArrival a = false)
                         (λ a, isEncoderEosArrival a = true)
                         (λ a, match isEncoderEosArrival a as b
                                     return {b = false} + {b = true} with
                               | true => right eq_refl
                               | false => left eq_refl
                               end) (arrivals tick)) sched) as [Hno|Hex]; [|done].
        exfalso.
        pose proof (loop_no_eos sched
                      (pushMessage MsgStartEncoder false
                         (pushMessage MsgStartDecoder false t)) Hno) as Hloop.
        rewrite El in Hloop. cbn [resultState] in Hloop.
        rewrite Hloop in Heos; [done| |].
        -- by destruct (loopCondition_true _ Hc) as (_ & ? & _).
        -- rewrite start_queue, Hq by done. by repeat constructor.
  - intros pre tick post before after Hpre Harr Hafter.
    destruct (run_pending pre t Ha Hpre) as (tw & Ew & Hc & Hna).
    destruct (stop_turn tick post tw before _ after MsgAbort Hc Hna Harr eq_refl Hafter)
      as (q & Et).
    rewrite (run_returns _ _ _ _ _ _ Ew Et).
    destruct (loopCondition_true _ Hc) as (_ & He & Hs).
    eexists. rewrite (surjective_pairing (finishTranscodeLoop _)).
    rewrite finish_result. cbn [execute]. simpl. rewrite He, Hs. simpl.
    first [done | by rewrite bool_decide_eq_true_2].
  - intros pre tick post before after codec e actionCode Hpre Harr Hafter Hne.
    destruct (run_pending pre t Ha Hpre) as (tw & Ew & Hc & Hna).
    destruct (stop_turn tick post tw before _ after (MsgError e) Hc Hna Harr
                eq_refl Hafter) as (q & Et).
    rewrite (run_returns _ _ _ _ _ _ Ew Et).
    eexists. rewrite (surjective_pairing (finishTranscodeLoop _)).
    rewrite finish_result. cbn [execute]. simpl.
    by rewrite (bool_decide_eq_false_2 _ Hne), andb_false_r.
  - intros pre tick post tw m rest Ew Eq Hne.
    pose proof (transcodeLoop_Waiting _ _ _ Ew) as Hc.
    pose proof (loop_not_aborted pre _ (start_not_aborted t Ha)) as Hna.
    rewrite Ew in Hna. cbn [resultState] in Hna.
    assert (transcodeLoop (tick :: post) tw
            = Exited (execute (answers tick) m (withQueue (mkQueue rest false) tw)))
      as Et.
    { cbn [transcodeLoop]. rewrite Hc. unfold pop. rewrite Eq.
      destruct (arriveAll_fields (arrivals tick) tw) as (q & E & Eab & _).
      rewrite E in *. cbn [mCodecMessageQueue withQueue mAborted] in *.
      rewrite Eab, Hna.
      apply transcodeLoop_stopped. unfold loopCondition.
      by rewrite (bool_decide_eq_false_2 _ Hne), andb_false_r. }
    rewrite (run_returns _ _ _ _ _ _ Ew Et).
    eexists. rewrite (surjective_pairing (finishTranscodeLoop _)).
    rewrite finish_result.
    by rewrite (bool_decide_eq_false_2 _ Hne), andb_false_r.
  - intros pre tick post tw index bufferInfo rest Ew Eq Heos.
    pose proof (transcodeLoop_Waiting _ _ _ Ew) as Hc.
    destruct (loopCondition_true _ Hc) as (Hs & _ & Hst).
    assert (∃ q, transcodeLoop (tick :: post) tw
                 = Exited (execute (answers tick)
                             (MsgOutputAvailable Encoder index bufferInfo)
                             (withQueue q tw))) as (q & Et).
    { destruct (arriveAll_fields (arrivals tick) tw) as (q0 & E & _).
      exists (mkQueue rest (mAborted q0)).
      cbn [transcodeLoop]. rewrite Hc. unfold pop. rewrite Eq, E.
      etrans; [apply transcodeLoop_stopped|reflexivity].
      cbn [execute]. unfold dequeueOutputSample. cbv zeta. rewrite Heos.
      unfold loopCondition. simpl. by rewrite andb_false_r. }
    rewrite (run_returns _ _ _ _ _ _ Ew Et).
    destruct (dequeueOutputSample_eos index bufferInfo (withQueue q tw) Heos)
      as (E1 & E2 & E3).
    match goal with |- context [finishTranscodeLoop ?x] =>
      assert ((finishTranscodeLoop x).1 = AMEDIA_OK) as Hr;
        [|exists (finishTranscodeLoop x).2; rewrite <-Hr;
          by rewrite <-surjective_pairing]
    end.
    rewrite finish_result. cbn [execute]. rewrite E1, E2. cbn [withQueue mStatus].
    by rewrite andb_false_r.
Qed.

(** *** Codec errors *)

(** What was pushed to the front by a turn's arrivals are abort requests
    and the errors of its error events. *)
Lemma pushedFront_arrivals l m :
  m ∈ pushedFront (l ≫= arrivalPush) →
  m = MsgAbort ∨ ∃ c e x, OnAsyncError c e x ∈ l ∧ m = MsgError e.
Proof.
  induction l as [|a l IH]; [by intros ?%elem_of_nil|].
  change ((a :: l) ≫= arrivalPush) with (arrivalPush a ++ (l ≫= arrivalPush)).
  rewrite pushedFront_app, elem_of_app. intros [Hm|Hm].
  - destruct a as [c i|c i b|c f|c e x|]; simpl in Hm; try destruct (decide _);
      try (by apply elem_of_nil in Hm).
    + apply elem_of_cons in Hm as [->|Hm]; [|by apply elem_of_nil in Hm].
      right. exists c, e, x. split; [by left|done].
    + apply elem_of_cons in Hm as [->|Hm]; [|by apply elem_of_nil in Hm].
      by left.
  - destruct (IH Hm) as [?|(c & e & x & Hin & ->)]; [by left|].
    right. exists c, e, x. split; [by right|done].
Qed.

Lemma samplesDelivered_finish tx :
  samplesDelivered (finishTranscodeLoop tx).2 = samplesDelivered tx.
Proof.
  unfold samplesDelivered. rewrite finish_calls, filter_snoc. simpl.
  by rewrite app_nil_r.
Qed.

(** C5: a codec error is pushed to the front of the message queue, and its
    message records the error and requests the stop.  Whatever else arrives
    before the loop's next turn, that turn runs a stop request (the error,
    or an abort or a later error that cut ahead of it) and is the last: the
    pending messages stay in the queue, no call is made, no sample reaches
    the sink any more, and the run returns an error; a recorded error is
    what the run returns, and it is this event's or that of an error event
    that arrived after it.  When nothing cuts ahead of it, the error is
    recorded and returned.  A recorded error is never overwritten: with a
    status other than [AMEDIA_OK] the loop runs no further message. *)
Theorem error_event_cuts_ahead t codec e actionCode :
  mAborted (mCodecMessageQueue t) = false → loopCondition t = true →
  mQueue (mCodecMessageQueue (arrive (OnAsyncError codec e actionCode) t))
  = MsgError e :: mQueue (mCodecMessageQueue t)
  ∧ (∀ env t0,
       mStatus (execute env (MsgError e) t0) = e
       ∧ mStopRequested (execute env (MsgError e) t0) = true)
  ∧ (∀ later env sched,
       ∃ tx ahead more,
         transcodeLoop (mkTick later env :: sched)
           (arrive (OnAsyncError codec e actionCode) t) = Exited tx
         ∧ mStopRequested tx = true
         ∧ mQueue (mCodecMessageQueue tx)
           = ahead ++ mQueue (mCodecMessageQueue t) ++ more
         ∧ Forall (λ m, isStopMessage m = true) ahead
         ∧ mCalls tx = mCalls t
         ∧ samplesDelivered (finishTranscodeLoop tx).2 = samplesDelivered t
         ∧ (finishTranscodeLoop tx).1 ≠ AMEDIA_OK
         ∧ (mStatus tx ≠ AMEDIA_OK →
            (finishTranscodeLoop tx).1 = mStatus tx
            ∧ (mStatus tx = e ∨ ∃ c x, OnAsyncError c (mStatus tx) x ∈ later))
         ∧ (Forall (λ a, queuesBehind a = true) later →
            ahead = [] ∧ mStatus tx = e
            ∧ (e ≠ AMEDIA_OK → (finishTranscodeLoop tx).1 = e)))
  ∧ (∀ sched t0,
       mStatus t0 ≠ AMEDIA_OK →
       transcodeLoop sched t0 = Exited t0
       ∧ (finishTranscodeLoop t0).1 = mStatus t0).
Proof.
  intros Ha Hc. split_and!.
  - simpl. unfold push. by rewrite Ha.
  - done.
  - intros later env sched.
    destruct (loopCondition_true _ Hc) as (Hstop & Heos & Hst).
    assert (arrive (OnAsyncError codec e actionCode) t
            = withQueue (mkQueue (MsgError e :: mQueue (mCodecMessageQueue t)) false) t)
      as -> by (simpl; unfold pushMessage, push; by rewrite Ha).
    rewrite transcodeLoop_step by exact Hc.
    cbn [mCodecMessageQueue withQueue arrivals answers].
    rewrite pushAll_queue by done. cbn [mQueue mAborted].
    destruct (arrivals_shape later) as (Hf & _).
    set (pb := pushedBack (later ≫= arrivalPush)).
    destruct (reverse (pushedFront (later ≫= arrivalPush))) as [|m fronts] eqn:Er.
    + (* the error runs *)
      cbn [app].
      match goal with |- context [execute ?e0 (MsgError e) ?s] =>
        destruct (stop_message_exits e0 (MsgError e) sched s eq_refl)
          as (-> & Ecalls & Es & Ee & _);
        exists (execute e0 (MsgError e) s), [], pb
      end.
      split; [done|]. split; [done|]. split; [done|]. split; [constructor|].
      split; [done|]. split; [by rewrite samplesDelivered_finish|].
      split.
      { apply finish_after_stop; [done|]. by rewrite Ee. }
      split.
      { intros Hne. split; [|by left].
        rewrite finish_result. cbn [execute mStatus withStopRequested withStatus] in *.
        by rewrite (bool_decide_eq_false_2 _ Hne), andb_false_r. }
      intros _. split; [done|]. split; [done|]. intros Hne.
      rewrite finish_result. cbn [execute mStatus withStopRequested withStatus].
      by rewrite (bool_decide_eq_false_2 _ Hne), andb_false_r.
    + (* a later stop request runs instead *)
      assert (m ∈ pushedFront (later ≫= arrivalPush)) as Hin.
      { apply elem_of_reverse. rewrite Er. by left. }
      assert (Forall (λ m, isStopMessage m = true) (m :: fronts)) as Hall.
      { rewrite <-Er. by apply Forall_reverse. }
      apply Forall_cons in Hall as [Hm Hfronts].
      cbn [app].
      match goal with |- context [execute ?e0 m ?s] =>
        destruct (stop_message_exits e0 m sched s Hm)
          as (-> & Ecalls & Es & Ee & _);
        exists (execute e0 m s), (fronts ++ [MsgError e]), pb
      end.
      split; [done|]. split; [done|].
      split.
      { match goal with |- context [execute ?e0 m ?s] =>
          destruct (execute_effects e0 m s) as [-> _]
        end.
        cbn [mCodecMessageQueue withQueue mQueue].
        rewrite <-(app_assoc fronts [MsgError e]). reflexivity. }
      split.
      { apply Forall_app. split; [exact Hfronts|]. apply Forall_cons. split; [reflexivity|constructor]. }
      split; [exact Ecalls|].
      split; [rewrite samplesDelivered_finish; unfold samplesDelivered; by rewrite Ecalls|].
      split.
      { apply finish_after_stop; [done|]. by rewrite Ee. }
      split.
      { intros Hne. split.
        - rewrite finish_result.
          by rewrite (bool_decide_eq_false_2 _ Hne), andb_false_r.
        - right.
          destruct (pushedFront_arrivals _ _ Hin) as [->|(c & e' & x & Hl & ->)].
          + cbn [execute mStatus withStopRequested withQueue] in Hne. congruence.
          + exists c, x. exact Hl. }
      intros Hb. destruct (arrivals_behind later Hb) as [E _].
      rewrite E in Er. done.
  - intros sched t0 Hs. split.
    + apply transcodeLoop_stopped. unfold loopCondition.
      rewrite (bool_decide_eq_false_2 _ Hs). by rewrite andb_false_r.
    + unfold finishTranscodeLoop. simpl.
      rewrite (bool_decide_eq_false_2 _ Hs). by rewrite andb_false_r.
Qed.

(** C8: only the first format change of the encoder publishes the actual
    output format and tells the sink.  The first format-changed event, when
    its format can be copied, publishes the format composed from it and
    tells the sink once; format-changed events that come one per turn after
    it leave the loop exactly where the first alone leaves it, so that the
    published format is the first one's and the sink has heard of it once;
    when the first cannot be copied, nothing is published at all.  Once a
    format is published, no schedule whatsoever changes it or makes the
    sink hear of a format again. *)
Theorem format_changed_only_first t fe more :
  mQueue (mCodecMessageQueue t) = [] →
  transcodeLoop (formatTick fe :: map formatTick more) t
  = transcodeLoop [formatTick fe] t
  ∧ (loopCondition t = true → mAborted (mCodecMessageQueue t) = false →
     mActualOutputFormat t = None →
     (formatCopyOk fe.2 = true →
      getOutputFormat (resultState (transcodeLoop [formatTick fe] t))
      = Some (composeTrackFormat (mSourceFormat t) fe.1)
      ∧ getOutputFormat
          (resultState (transcodeLoop (formatTick fe :: map formatTick more) t))
        = Some (composeTrackFormat (mSourceFormat t) fe.1)
      ∧ formatNotifications
          (resultState (transcodeLoop (formatTick fe :: map formatTick more) t))
        = formatNotifications t ++ [TrackFormatAvailable])
     ∧ (formatCopyOk fe.2 = false →
        getOutputFormat
          (resultState (transcodeLoop (formatTick fe :: map formatTick more) t))
        = None
        ∧ formatNotifications
            (resultState (transcodeLoop (formatTick fe :: map formatTick more) t))
          = formatNotifications t
        ∧ mStatus
            (resultState (transcodeLoop (formatTick fe :: map formatTick more) t))
          = AMEDIA_ERROR_INVALID_PARAMETER))
  ∧ (∀ sched t1 F,
       mActualOutputFormat t1 = Some F →
       mActualOutputFormat (resultState (transcodeLoop sched t1)) = Some F
       ∧ formatNotifications (resultState (transcodeLoop sched t1))
         = formatNotifications t1).
Proof.
  intros Hq.
  assert (transcodeLoop (formatTick fe :: map formatTick more) t
          = transcodeLoop [formatTick fe] t) as Efirst.
  { destruct (loopCondition t) eqn:Ec.
    2:{ by rewrite !transcodeLoop_stopped. }
    rewrite !formatTick_step by done.
    apply further_format_changes_ignored.
    - destruct (mAborted (mCodecMessageQueue t)); [done|].
      unfold updateTrackFormat. by repeat case_match.
    - destruct (mAborted (mCodecMessageQueue t)) eqn:Ea; [by left|right].
      unfold updateTrackFormat, loopCondition.
      destruct (mActualOutputFormat t) eqn:EF; [by rewrite EF|].
      destruct (formatCopyOk fe.2); simpl; [eauto|].
      rewrite !andb_true_iff. by intros [_ ?]. }
  split; [exact Efirst|]. split; [|intros; by apply format_published_stable].
  intros Hc Ha Hnone. rewrite Efirst.
  rewrite formatTick_step by done. rewrite Ha, transcodeLoop_nil.
  unfold updateTrackFormat, getOutputFormat, formatNotifications. rewrite Hnone.
  split; intros ->; simpl.
  - by rewrite filter_snoc.
  - done.
Qed.

Lemma size_t_of_small x : 0 ≤ x < 2 ^ 64 → size_t_of x = x.
Proof. intros Hx. unfold size_t_of. by apply Z.mod_small. Qed.

(** X26: an encoder output buffer flagged end-of-stream is still handed to
    the sink, with its offset and size as [size_t]; the loop is left at
    once after it and the run returns [AMEDIA_OK]. *)
Theorem encoder_eos_ends_run tick sched t index bufferInfo rest :
  loopCondition t = true →
  mQueue (mCodecMessageQueue t)
  = MsgOutputAvailable Encoder index bufferInfo :: rest →
  Forall (λ a, queuesBehind a = true) (arrivals tick) →
  0 ≤ index → hasEosFlag (bi_flags bufferInfo) = true →
  ∃ tx, transcodeLoop (tick :: sched) t = Exited tx
    ∧ (finishTranscodeLoop tx).1 = AMEDIA_OK
    ∧ mCalls (finishTranscodeLoop tx).2
      = mCalls t
        ++ [OutputSampleAvailable
              (mkMediaSample index (size_t_of (bi_offset bufferInfo))
                 (mkSampleInfo (size_t_of (bi_size bufferInfo))
                    (bi_presentationTimeUs bufferInfo) (bi_flags bufferInfo)));
            CodecStop Decoder]
    ∧ (0 ≤ bi_offset bufferInfo < 2 ^ 64 → 0 ≤ bi_size bufferInfo < 2 ^ 64 →
       mCalls (finishTranscodeLoop tx).2
       = mCalls t
         ++ [OutputSampleAvailable
               (mkMediaSample index (bi_offset bufferInfo)
                  (mkSampleInfo (bi_size bufferInfo)
                     (bi_presentationTimeUs bufferInfo) (bi_flags bufferInfo)));
             CodecStop Decoder]).
Proof.
  intros Hc Hq Hb Hi He.
  destruct (loop_head tick sched t _ rest Hc Hq Hb) as (more & ->).
  destruct (loopCondition_true _ Hc) as (Hs & _ & Hst).
  cbn [execute]. unfold dequeueOutputSample, onOutputSampleAvailable. cbv zeta.
  rewrite He, decide_True by done.
  eexists. split; [by apply transcodeLoop_stopped; unfold loopCondition;
                      simpl; rewrite andb_false_r|].
  unfold finishTranscodeLoop. cbv zeta. simpl. rewrite Hs, Hst. simpl.
  split; [done|]. split; [by rewrite <-app_assoc|].
  intros Ho Hz. rewrite !size_t_of_small by done. by rewrite <-app_assoc.
Qed.

(** A size of [-1] in the buffer info reaches the sink as [2^64 - 1]. *)
Example negative_size_is_converted :
  samplesDelivered
    (dequeueOutputSample 0 (mkBufferInfo (-3) (-1) 7 0) transcoder0)
  = [OutputSampleAvailable
       (mkMediaSample 0 18446744073709551613
          (mkSampleInfo 18446744073709551615 7 0))].
Proof. vm_compute. reflexivity. Qed.

Lemma runTranscodeLoop_result_witness :
  mAborted (mCodecMessageQueue transcoder0) = false
  ∧ (∃ tx,
       transcodeLoop cleanRun
         (pushMessage MsgStartEncoder false
            (pushMessage MsgStartDecoder false transcoder0))
       = Exited tx
       ∧ loopCondition tx = false
       ∧ mStatus cleanEnd = AMEDIA_OK
       ∧ ((mStopRequested tx = true ∧ mEosFromEncoder tx = false
           ∧ mStatus tx = AMEDIA_OK ∧ AMEDIA_OK = AMEDIA_ERROR_UNKNOWN)
          ∨ (mStatus tx ≠ AMEDIA_OK ∧ AMEDIA_OK = mStatus tx)
          ∨ (mEosFromEncoder tx = true ∧ mStatus tx = AMEDIA_OK
             ∧ AMEDIA_OK = AMEDIA_OK))
       ∧ (loopCondition transcoder0 = true →
          mQueue (mCodecMessageQueue transcoder0) = [] →
          (mStopRequested tx = true →
           Exists (λ tick, Exists (λ a, queuesBehind a = false) (arrivals tick))
             cleanRun)
          ∧ (mEosFromEncoder tx = true →
             Exists (λ tick, Exists (λ a, isEncoderEosArrival a = true) (arrivals tick))
               cleanRun)))
  ∧ (∃ t', runTranscodeLoop
             (pendingRun
              ++ mkTick [OnAsyncInputAvailable Decoder 2; AbortTranscodeLoop;
                         OnAsyncInputAvailable Decoder 3] envOk
              :: cleanRun)
             transcoder0
           = Some (AMEDIA_ERROR_UNKNOWN, t'))
  ∧ (∃ t', runTranscodeLoop
             (pendingRun
              ++ mkTick [OnAsyncInputAvailable Decoder 2; OnAsyncError Encoder (-10005) 0;
                         OnAsyncInputAvailable Decoder 3] envOk
              :: cleanRun)
             transcoder0
           = Some (-10005, t'))
  ∧ (∃ t', runTranscodeLoop ([] ++ mkTick [] envStartFails :: cleanRun) transcoder0
           = Some (mStatus
                     (execute (answers (mkTick [] envStartFails)) MsgStartDecoder
                        (withQueue (mkQueue [MsgStartEncoder] false)
                           (pushMessage MsgStartEncoder false
                              (pushMessage MsgStartDecoder false transcoder0)))), t'))
  ∧ (∃ t', runTranscodeLoop
             (pendingRun
              ++ mkTick [OnAsyncOutputAvailable Encoder 1 (mkBufferInfo 0 0 0 4)] envOk
              :: [])
             transcoder0
           = Some (AMEDIA_OK, t')).
Proof.
  assert (mAborted (mCodecMessageQueue transcoder0) = false) as H0 by reflexivity.
  assert (runTranscodeLoop cleanRun transcoder0 = Some (AMEDIA_OK, cleanEnd)) as Hrun
    by (vm_compute; reflexivity).
  assert (runTranscodeLoop pendingRun transcoder0 = None) as Hpre
    by (vm_compute; reflexivity).
  assert (transcodeLoop pendingRun
            (pushMessage MsgStartEncoder false
               (pushMessage MsgStartDecoder false transcoder0))
          = Waiting beforeLastOutput) as Hwait
    by (vm_compute; reflexivity).
  assert (transcodeLoop []
            (pushMessage MsgStartEncoder false
               (pushMessage MsgStartDecoder false transcoder0))
          = Waiting (pushMessage MsgStartEncoder false
                       (pushMessage MsgStartDecoder false transcoder0))) as Hstart
    by (vm_compute; reflexivity).
  assert (mQueue (mCodecMessageQueue
                    (arriveAll (arrivals (mkTick [] envStartFails))
                       (pushMessage MsgStartEncoder false
                          (pushMessage MsgStartDecoder false transcoder0))))
          = MsgStartDecoder :: [MsgStartEncoder]) as Hhead
    by (vm_compute; reflexivity).
  assert (mStatus
            (execute (answers (mkTick [] envStartFails)) MsgStartDecoder
               (withQueue (mkQueue [MsgStartEncoder] false)
                  (pushMessage MsgStartEncoder false
                     (pushMessage MsgStartDecoder false transcoder0))))
          ≠ AMEDIA_OK) as Hfail
    by (vm_compute; discriminate).
  assert (mQueue (mCodecMessageQueue
                    (arriveAll
                       (arrivals
                          (mkTick [OnAsyncOutputAvailable Encoder 1 (mkBufferInfo 0 0 0 4)]
                             envOk))
                       beforeLastOutput))
          = MsgOutputAvailable Encoder 1 (mkBufferInfo 0 0 0 4) :: []) as Hlast
    by (vm_compute; reflexivity).
  assert (hasEosFlag (bi_flags (mkBufferInfo 0 0 0 4)) = true) as Heos
    by (vm_compute; reflexivity).
  assert (-10005 ≠ AMEDIA_OK) as Hne by (vm_compute; discriminate).
  assert (Forall (λ a, queuesBehind a = true) [OnAsyncInputAvailable Decoder 3]) as Hafter
    by (repeat constructor).
  destruct (runTranscodeLoop_result transcoder0 H0) as (HA & HB & HC & HD & HE).
  split; [exact H0|].
  split; [exact (HA cleanRun AMEDIA_OK cleanEnd Hrun)|].
  split.
  { exact (HB pendingRun
             (mkTick [OnAsyncInputAvailable Decoder 2; AbortTranscodeLoop;
                      OnAsyncInputAvailable Decoder 3] envOk)
             cleanRun [OnAsyncInputAvailable Decoder 2] [OnAsyncInputAvailable Decoder 3]
             Hpre eq_refl Hafter). }
  split.
  { exact (HC pendingRun
             (mkTick [OnAsyncInputAvailable Decoder 2; OnAsyncError Encoder (-10005) 0;
                      OnAsyncInputAvailable Decoder 3] envOk)
             cleanRun [OnAsyncInputAvailable Decoder 2] [OnAsyncInputAvailable Decoder 3]
             Encoder (-10005) 0 Hpre eq_refl Hafter Hne). }
  split.
  { exact (HD [] (mkTick [] envStartFails) cleanRun _ MsgStartDecoder [MsgStartEncoder]
             Hstart Hhead Hfail). }
  exact (HE pendingRun
           (mkTick [OnAsyncOutputAvailable Encoder 1 (mkBufferInfo 0 0 0 4)] envOk)
           [] beforeLastOutput 1 (mkBufferInfo 0 0 0 4) [] Hwait Hlast Heos).
Defined.

Lemma error_event_cuts_ahead_witness :
  mAborted (mCodecMessageQueue runningTranscoder) = false
  ∧ loopCondition runningTranscoder = true
  ∧ mQueue (mCodecMessageQueue
              (arrive (OnAsyncError Encoder (-10005) 0) runningTranscoder))
    = MsgError (-10005) :: mQueue (mCodecMessageQueue runningTranscoder)
  ∧ (∀ env t0,
       mStatus (execute env (MsgError (-10005)) t0) = -10005
       ∧ mStopRequested (execute env (MsgError (-10005)) t0) = true)
  ∧ (∀ later env sched,
       ∃ tx ahead more,
         transcodeLoop (mkTick later env :: sched)
           (arrive (OnAsyncError Encoder (-10005) 0) runningTranscoder) = Exited tx
         ∧ mStopRequested tx = true
         ∧ mQueue (mCodecMessageQueue tx)
           = ahead ++ mQueue (mCodecMessageQueue runningTranscoder) ++ more
         ∧ Forall (λ m, isStopMessage m = true) ahead
         ∧ mCalls tx = mCalls runningTranscoder
         ∧ samplesDelivered (finishTranscodeLoop tx).2
           = samplesDelivered runningTranscoder
         ∧ (finishTranscodeLoop tx).1 ≠ AMEDIA_OK
         ∧ (mStatus tx ≠ AMEDIA_OK →
            (finishTranscodeLoop tx).1 = mStatus tx
            ∧ (mStatus tx = -10005 ∨ ∃ c x, OnAsyncError c (mStatus tx) x ∈ later))
         ∧ (Forall (λ a, queuesBehind a = true) later →
            ahead = [] ∧ mStatus tx = -10005
            ∧ (-10005 ≠ AMEDIA_OK → (finishTranscodeLoop tx).1 = -10005)))
  ∧ (∀ sched t0,
       mStatus t0 ≠ AMEDIA_OK →
       transcodeLoop sched t0 = Exited t0
       ∧ (finishTranscodeLoop t0).1 = mStatus t0).
Proof.
  split; [reflexivity|]. split; [reflexivity|].
  exact (error_event_cuts_ahead runningTranscoder Encoder (-10005) 0
           eq_refl eq_refl).
Defined.

Lemma format_changed_only_first_witness :
  mQueue (mCodecMessageQueue transcoder0) = []
  ∧ transcodeLoop
      (formatTick (encoderFormat0, envOk)
         :: map formatTick [(sourceFormat0, envOk); (encoderFormat0, envOk)])
      transcoder0
    = transcodeLoop [formatTick (encoderFormat0, envOk)] transcoder0
  ∧ (getOutputFormat
       (resultState (transcodeLoop [formatTick (encoderFormat0, envOk)] transcoder0))
     = Some (composeTrackFormat (mSourceFormat transcoder0) (encoderFormat0, envOk).1)
     ∧ getOutputFormat
         (resultState
            (transcodeLoop
               (formatTick (encoderFormat0, envOk)
                  :: map formatTick [(sourceFormat0, envOk); (encoderFormat0, envOk)])
               transcoder0))
       = Some (composeTrackFormat (mSourceFormat transcoder0) (encoderFormat0, envOk).1)
     ∧ formatNotifications
         (resultState
            (transcodeLoop
               (formatTick (encoderFormat0, envOk)
                  :: map formatTick [(sourceFormat0, envOk); (encoderFormat0, envOk)])
               transcoder0))
       = formatNotifications transcoder0 ++ [TrackFormatAvailable])
  ∧ (∀ sched t1 F,
       mActualOutputFormat t1 = Some F →
       mActualOutputFormat (resultState (transcodeLoop sched t1)) = Some F
       ∧ formatNotifications (resultState (transcodeLoop sched t1))
         = formatNotifications t1).
Proof.
  assert (mQueue (mCodecMessageQueue transcoder0) = []) as H0 by reflexivity.
  assert (loopCondition transcoder0 = true) as Hc by (vm_compute; reflexivity).
  assert (mAborted (mCodecMessageQueue transcoder0) = false) as Ha by reflexivity.
  assert (mActualOutputFormat transcoder0 = None) as Hn by reflexivity.
  assert (formatCopyOk (encoderFormat0, envOk).2 = true) as Hok by reflexivity.
  destruct (format_changed_only_first transcoder0 (encoderFormat0, envOk)
              [(sourceFormat0, envOk); (encoderFormat0, envOk)] H0)
    as (Hsame & Hfirst & Hstable).
  split; [exact H0|]. split; [exact Hsame|]. split; [|exact Hstable].
  exact (proj1 (Hfirst Hc Ha Hn) Hok).
Defined.

Lemma encoder_eos_ends_run_witness :
  loopCondition lastOutputPending = true
  ∧ mQueue (mCodecMessageQueue lastOutputPending)
    = MsgOutputAvailable Encoder 1 (mkBufferInfo 0 0 0 4) :: []
  ∧ Forall (λ a, queuesBehind a = true) (arrivals (mkTick [] envOk))
  ∧ 0 ≤ 1
  ∧ hasEosFlag (bi_flags (mkBufferInfo 0 0 0 4)) = true
  ∧ ∃ tx, transcodeLoop (mkTick [] envOk :: cleanRun) lastOutputPending = Exited tx
    ∧ (finishTranscodeLoop tx).1 = AMEDIA_OK
    ∧ mCalls (finishTranscodeLoop tx).2
      = mCalls lastOutputPending
        ++ [OutputSampleAvailable
              (mkMediaSample 1 (size_t_of (bi_offset (mkBufferInfo 0 0 0 4)))
                 (mkSampleInfo (size_t_of (bi_size (mkBufferInfo 0 0 0 4)))
                    (bi_presentationTimeUs (mkBufferInfo 0 0 0 4))
                    (bi_flags (mkBufferInfo 0 0 0 4))));
            CodecStop Decoder]
    ∧ (0 ≤ bi_offset (mkBufferInfo 0 0 0 4) < 2 ^ 64 →
       0 ≤ bi_size (mkBufferInfo 0 0 0 4) < 2 ^ 64 →
       mCalls (finishTranscodeLoop tx).2
       = mCalls lastOutputPending
         ++ [OutputSampleAvailable
               (mkMediaSample 1 (bi_offset (mkBufferInfo 0 0 0 4))
                  (mkSampleInfo (bi_size (mkBufferInfo 0 0 0 4))
                     (bi_presentationTimeUs (mkBufferInfo 0 0 0 4))
                     (bi_flags (mkBufferInfo 0 0 0 4))));
             CodecStop Decoder]).
Proof.
  assert (loopCondition lastOutputPending = true) as H0 by (vm_compute; reflexivity).
  assert (mQueue (mCodecMessageQueue lastOutputPending)
          = MsgOutputAvailable Encoder 1 (mkBufferInfo 0 0 0 4) :: []) as H1
    by reflexivity.
  assert (Forall (λ a, queuesBehind a = true) (arrivals (mkTick [] envOk))) as H2
    by constructor.
  assert (0 ≤ 1) as H3 by lia.
  assert (hasEosFlag (bi_flags (mkBufferInfo 0 0 0 4)) = true) as H4
    by (vm_compute; reflexivity).
  split; [exact H0|]. split; [exact H1|]. split; [exact H2|].
  split; [exact H3|]. split; [exact H4|].
  exact (encoder_eos_ends_run (mkTick [] envOk) cleanRun lastOutputPending 1
           (mkBufferInfo 0 0 0 4) [] H0 H1 H2 H3 H4).
Defined.

(** An error followed by an abort, by a second error, and by nothing that
    cuts ahead of it. *)
Example error_then_abort_returns_generic_error :
  (finishTranscodeLoop
     (resultState
        (transcodeLoop [mkTick [AbortTranscodeLoop] envOk]
           (arrive (OnAsyncError Encoder (-10005) 0) runningTranscoder)))).1
  = AMEDIA_ERROR_UNKNOWN.
Proof. vm_compute. reflexivity. Qed.

Example later_error_is_the_one_recorded :
  (finishTranscodeLoop
     (resultState
        (transcodeLoop [mkTick [OnAsyncError Decoder (-10001) 0] envOk]
           (arrive (OnAsyncError Encoder (-10005) 0) runningTranscoder)))).1
  = -10001.
Proof. vm_compute. reflexivity. Qed.

Example error_alone_is_returned :
  (finishTranscodeLoop
     (resultState
        (transcodeLoop [mkTick [OnAsyncInputAvailable Decoder 3] envOk]
           (arrive (OnAsyncError Encoder (-10005) 0) runningTranscoder)))).1
  = -10005.
Proof. vm_compute. reflexivity. Qed.

End PipelineFacts.
